(** * A shallow embedding of [json.cpp]

    The development follows the layout of the source file: the generic
    singly linked [list] container, the [json] value with its five
    payload pointers, the [Tokenizer] over a [std::istream], the
    recursive-descent parser, and the serializer.

    Conventions.
    - A C++ operation is a function into [outcome]: it returns, throws,
      runs into undefined behaviour, or is still looping when the
      iteration budget of its loops is used up.
    - A payload pointer is [nullptr], [live] (it owns an object) or
      [dangling] (the object was deleted and the field was left as it
      was).  The variant predicates of the source compare the field with
      [nullptr] only, so they cannot tell [live] from [dangling].
    - [double] is an IEEE 754 binary64 datum ([spec_float]).
    - Destructors run by [delete] and at the end of temporaries release
      memory only and are left out of the operations (the destructor
      itself is [destroy]); so are the diagnostic lines written to
      [std::cout] before a throw. *)

From Stdlib Require Import ZArith List Bool Ascii String Lia.
From Stdlib Require Import Floats.SpecFloat.
Import ListNotations.

Local Open Scope char_scope.
Local Open Scope string_scope.

(** ** Outcomes of a C++ operation *)

(** The exceptions that can leave the code: the project's own
    [json_exception] (a struct holding a message), the two standard
    exceptions thrown by [std::stod], and the [std::bad_alloc] of an
    allocation that is refused. *)
Inductive exn : Type :=
| json_exception (msg : string)
| std_invalid_argument (what : string)
| std_out_of_range (what : string)
| std_bad_alloc.

Inductive outcome (A : Type) : Type :=
| Ret (a : A)
| Throw (e : exn)
| Undefined
| Timeout.

Arguments Ret {A} a.
Arguments Throw {A} e.
Arguments Undefined {A}.
Arguments Timeout {A}.

Definition bind {A B : Type} (m : outcome A) (k : A -> outcome B) : outcome B :=
  match m with
  | Ret a => k a
  | Throw e => Throw e
  | Undefined => Undefined
  | Timeout => Timeout
  end.

Notation "x <- m ;; k" := (bind m (fun x => k))
  (at level 61, m at next level, right associativity).
Notation "' p <- m ;; k" := (bind m (fun x => let p := x in k))
  (at level 61, p pattern, m at next level, right associativity).

Definition is_json_exception (e : exn) : bool :=
  match e with
  | json_exception _ => true
  | _ => false
  end.

(** ** The allocator

    Wherever what the code allocates is bounded by its input, the
    allocator is taken to grant the request.  Two loops can allocate
    without bound: the string loop of the tokenizer on a literal that
    is never closed, and [operator+=] of the container on a list
    appended to itself.  They take the limit [heap] of the allocator:
    the number of elements the growing object can come to hold before
    the next request is refused with [std::bad_alloc]; [None] is an
    allocator that never refuses.  ([std::string] refuses a text
    longer than [max_size()] with [std::length_error]; [max_size()] is
    some 2^62 characters, more than any allocator grants, so the limit
    that is met is the allocator's.) *)
Definition allocate (heap : option nat) (held : nat) : outcome unit :=
  match heap with
  | Some limit => if Nat.leb limit held then Throw std_bad_alloc else Ret tt
  | None => Ret tt
  end.

(** ** Payload pointers *)

Inductive ptr (A : Type) : Type :=
| nullptr
| live (a : A)
| dangling.

Arguments nullptr {A}.
Arguments live {A} a.
Arguments dangling {A}.

(** [p != nullptr] *)
Definition non_null {A : Type} (p : ptr A) : bool :=
  match p with
  | nullptr => false
  | _ => true
  end.

(** [delete p]: releases the object; the pointer variable itself keeps
    its old, now invalid, value.  Deleting twice is undefined. *)
Definition delete {A : Type} (p : ptr A) : outcome (ptr A) :=
  match p with
  | nullptr => Ret nullptr
  | live _ => Ret dangling
  | dangling => Undefined
  end.

(** [*p] *)
Definition deref {A : Type} (p : ptr A) : outcome A :=
  match p with
  | live a => Ret a
  | _ => Undefined
  end.

(** ** The [list<Val>] container (lines 4-604)

    The nodes reachable from [m_front] are a Rocq list; [m_back] always
    designates its last node. *)
Module list_.
Section Ops.
Context {Val : Type}.

Definition empty (xs : list Val) : bool :=
  match xs with
  | [] => true
  | _ => false
  end.

Definition push_front (v : Val) (xs : list Val) : list Val :=
  if empty xs then [v] else v :: xs.

Definition push_back (v : Val) (xs : list Val) : list Val :=
  if empty xs then push_front v xs else (xs ++ [v])%list.

(** [back()->val]; dereferencing [m_back] of an empty list is
    undefined. *)
Definition back_val (xs : list Val) : outcome Val :=
  match rev xs with
  | [] => Undefined
  | v :: _ => Ret v
  end.

(** An iterator is the node it points to, that is the suffix of the
    list starting there; [end()] is the null iterator. *)
Definition begin (xs : list Val) : list Val := xs.
Definition end_ (xs : list Val) : list Val := [].
(** [pop_front] (lines 266-273): nothing happens on an empty list. *)
Definition pop_front (xs : list Val) : list Val :=
  if empty xs then xs else tl xs.

(** The walk of [pop_back] (line 285): from [prev], follow [next] until
    the node whose successor is [m_back]; the nodes kept are those
    visited. *)
Fixpoint before_back (prev : list Val) : list Val :=
  match prev with
  | x :: ((_ :: _ :: _) as next) => x :: before_back next
  | x :: _ => [x]
  | [] => []
  end.

(** [pop_back] (lines 277-291): when [m_front == m_back], that is on
    an empty list or a single node, it is [pop_front]. *)
Definition pop_back (xs : list Val) : list Val :=
  match xs with
  | [] => pop_front xs
  | [_] => pop_front xs
  | _ => before_back xs
  end.

(** [clear] (lines 295-297): [pop_front] while the list is not
    empty. *)
Fixpoint clear (xs : list Val) : list Val :=
  match xs with
  | [] => xs
  | _ :: next => clear next
  end.

(** [operator[]] of a const list (lines 410-415): [i] steps along
    [next] from [m_front], without any test, then the value of the node
    reached.  Stepping from, or reading, the null pointer is
    undefined. *)
Fixpoint index (ptr : list Val) (i : nat) : outcome Val :=
  match i with
  | 0 =>
    match ptr with
    | x :: _ => Ret x
    | [] => Undefined
    end
  | S k =>
    match ptr with
    | _ :: next => index next k
    | [] => Undefined
    end
  end.

(** [operator+=] with a list (lines 391-398), [rhs] being another
    object than [*this]: the values of [rhs] are pushed to the back
    one by one. *)
Fixpoint append (xs rhs : list Val) : list Val :=
  match rhs with
  | [] => xs
  | v :: next => append (push_back v xs) next
  end.

(** The same operator with [rhs] bound to [*this], as in [a += a]:
    the parameter is a reference and the body has no test for it.  The
    pointer [ptr] of the walk is the position [pos] of its node in the
    list, which the walk itself extends; a node is allocated at every
    turn. *)
Fixpoint append_self_from (heap : option nat) (fuel : nat) (pos : nat)
    (xs : list Val) : outcome (list Val) :=
  match nth_error xs pos with
  | None => Ret xs
  | Some v =>
    match fuel with
    | 0 => Timeout
    | S f =>
      _ <- allocate heap (List.length xs) ;;
      append_self_from heap f (S pos) (push_back v xs)
    end
  end.

Definition append_self (heap : option nat) (fuel : nat) (xs : list Val)
  : outcome (list Val) :=
  append_self_from heap fuel 0 xs.

(** The three [operator+] (lines 556-577): a copy of one operand,
    extended; the copy is a new object, so no operand of its
    [operator+=] is the copy itself. *)
Definition plus (lhs rhs : list Val) : list Val := append (append [] lhs) rhs.
Definition plus_back (lhs : list Val) (rhs : Val) : list Val :=
  push_back rhs (append [] lhs).
Definition plus_front (lhs : Val) (rhs : list Val) : list Val :=
  push_front lhs (append [] rhs).
End Ops.
End list_.

(** ** The [json] value (lines 606-650) *)

Definition double : Type := spec_float.

(** [struct json::impl]: one pointer per variant. *)
#[warnings="-register-all"]
Inductive json : Type :=
  Impl { number : ptr double;
         b : ptr bool;
         s : ptr string;
         l : ptr (list json);
         dict : ptr (list (string * json)) }.

(** [json::json()] *)
Definition json_new : json := Impl nullptr nullptr nullptr nullptr nullptr.

Definition set_number_ptr (p : ptr double) (j : json) : json :=
  Impl p (b j) (s j) (l j) (dict j).
Definition set_b_ptr (p : ptr bool) (j : json) : json :=
  Impl (number j) p (s j) (l j) (dict j).
Definition set_s_ptr (p : ptr string) (j : json) : json :=
  Impl (number j) (b j) p (l j) (dict j).
Definition set_l_ptr (p : ptr (list json)) (j : json) : json :=
  Impl (number j) (b j) (s j) p (dict j).
Definition set_dict_ptr (p : ptr (list (string * json))) (j : json) : json :=
  Impl (number j) (b j) (s j) (l j) p.

Definition is_list (j : json) : bool := non_null (l j).
Definition is_dictionary (j : json) : bool := non_null (dict j).
Definition is_string (j : json) : bool := non_null (s j).
Definition is_number (j : json) : bool := non_null (number j).
Definition is_bool (j : json) : bool := non_null (b j).
Definition is_null (j : json) : bool :=
  negb (is_list j) && negb (is_dictionary j) && negb (is_string j)
  && negb (is_number j) && negb (is_bool j).

(** [impl::clear()] (lines 613-624): the chain tests number, b, s, l,
    dict in this order and deletes the first non-null one. *)
Definition clear (j : json) : outcome json :=
  if non_null (number j) then p <- delete (number j) ;; Ret (set_number_ptr p j)
  else if non_null (b j) then p <- delete (b j) ;; Ret (set_b_ptr p j)
  else if non_null (s j) then p <- delete (s j) ;; Ret (set_s_ptr p j)
  else if non_null (l j) then p <- delete (l j) ;; Ret (set_l_ptr p j)
  else if non_null (dict j) then p <- delete (dict j) ;; Ret (set_dict_ptr p j)
  else Ret j.

(** The chain that opens each of the six setters (lines 1126-1135,
    repeated verbatim at 1141, 1156, 1171, 1184 and 1199): number, list,
    bool, dictionary, string. *)
Definition delete_held (j : json) : outcome json :=
  if is_number j then p <- delete (number j) ;; Ret (set_number_ptr p j)
  else if is_list j then p <- delete (l j) ;; Ret (set_l_ptr p j)
  else if is_bool j then p <- delete (b j) ;; Ret (set_b_ptr p j)
  else if is_dictionary j then p <- delete (dict j) ;; Ret (set_dict_ptr p j)
  else if is_string j then p <- delete (s j) ;; Ret (set_s_ptr p j)
  else Ret j.

Definition set_string (x : string) (j : json) : outcome json :=
  j' <- delete_held j ;; Ret (set_s_ptr (live x) j').

Definition set_bool (x : bool) (j : json) : outcome json :=
  j' <- delete_held j ;; Ret (set_b_ptr (live x) j').

Definition set_number (x : double) (j : json) : outcome json :=
  j' <- delete_held j ;; Ret (set_number_ptr (live x) j').

Definition set_null (j : json) : outcome json :=
  delete_held j.

Definition set_list (j : json) : outcome json :=
  j' <- delete_held j ;; Ret (set_l_ptr (live []) j').

Definition set_dictionary (j : json) : outcome json :=
  j' <- delete_held j ;; Ret (set_dict_ptr (live []) j').

(** Copy constructor (lines 983-996).  Every non-null field of the
    source is dereferenced; the list copy constructor (lines 201-213)
    pushes a copy of each element to the back, so the copy holds the
    copied elements in the same order. *)
Fixpoint copy (j : json) : outcome json :=
  match j with
  | Impl pn pb ps pl pd =>
    nb <- (if non_null pb then x <- deref pb ;; Ret (live x) else Ret nullptr) ;;
    nn <- (if non_null pn then x <- deref pn ;; Ret (live x) else Ret nullptr) ;;
    ns <- (if non_null ps then x <- deref ps ;; Ret (live x) else Ret nullptr) ;;
    nd <- match pd with
          | nullptr => Ret nullptr
          | dangling => Undefined
          | live members =>
            ys <- (fix copy_members (it : list (string * json)) :=
                     match it with
                     | [] => Ret []
                     | (k, v) :: next =>
                       v' <- copy v ;;
                       rest <- copy_members next ;;
                       Ret ((k, v') :: rest)
                     end) members ;;
            Ret (live ys)
          end ;;
    nl <- match pl with
          | nullptr => Ret nullptr
          | dangling => Undefined
          | live elems =>
            ys <- (fix copy_elems (it : list json) :=
                     match it with
                     | [] => Ret []
                     | v :: next =>
                       v' <- copy v ;;
                       rest <- copy_elems next ;;
                       Ret (v' :: rest)
                     end) elems ;;
            Ret (live ys)
          end ;;
    Ret (Impl nn nb ns nl nd)
  end.

(** Move assignment [this = std::move(j)] (lines 1042-1068); the
    moved-from temporary is dropped. *)
Definition move_assign (this j : json) : outcome json :=
  this <- clear this ;;
  let this := if is_bool j then set_b_ptr (b j) this else this in
  let this := if is_number j then set_number_ptr (number j) this else this in
  let this := if is_string j then set_s_ptr (s j) this else this in
  let this := if is_dictionary j then set_dict_ptr (dict j) this else this in
  let this := if is_list j then set_l_ptr (l j) this else this in
  Ret this.

(** Typed getters (lines 1071-1123); the reference returned is modelled
    by the value it designates. *)
Definition get_number (j : json) : outcome double :=
  if is_number j then deref (number j)
  else Throw (json_exception "this is not a number").

Definition get_bool (j : json) : outcome bool :=
  if is_bool j then deref (b j)
  else Throw (json_exception "this is not a bool").

Definition get_string (j : json) : outcome string :=
  if is_string j then deref (s j)
  else Throw (json_exception "this is not a string").

(** [json::push_front], [json::push_back], [json::insert]
    (lines 1213-1238).  The container takes its argument by value, which
    copies it; the copy made once more into the node is a copy of a
    copy and is not written out. *)
Definition push_front (x : json) (j : json) : outcome json :=
  if is_list j then
    xs <- deref (l j) ;;
    v <- copy x ;;
    Ret (set_l_ptr (live (list_.push_front v xs)) j)
  else Throw (json_exception "this is not a list").

Definition push_back (x : json) (j : json) : outcome json :=
  if is_list j then
    xs <- deref (l j) ;;
    v <- copy x ;;
    Ret (set_l_ptr (live (list_.push_back v xs)) j)
  else Throw (json_exception "this is not a list").

Definition insert (x : string * json) (j : json) : outcome json :=
  if is_dictionary j then
    members <- deref (dict j) ;;
    v <- copy (snd x) ;;
    Ret (set_dict_ptr (live (list_.push_front (fst x, v) members)) j)
  else Throw (json_exception "this is not a dictionary").

(** *** Iterators (lines 852-931) *)

Definition list_iterator : Type := list json.
Definition dictionary_iterator : Type := list (string * json).

Definition begin_list (j : json) : outcome list_iterator :=
  if negb (is_list j) then Throw (json_exception "this is not a list")
  else xs <- deref (l j) ;; Ret (list_.begin xs).

Definition end_list (j : json) : outcome list_iterator :=
  if negb (is_list j) then Throw (json_exception "this is not a list")
  else xs <- deref (l j) ;; Ret (list_.end_ xs).

(** The non-const overloads for dictionaries (lines 893-911). *)
Definition begin_dictionary (j : json) : outcome dictionary_iterator :=
  if negb (is_list j) then Throw (json_exception "this is not a list")
  else members <- deref (dict j) ;; Ret (list_.begin members).

Definition end_dictionary (j : json) : outcome dictionary_iterator :=
  if negb (is_list j) then Throw (json_exception "this is not a list")
  else members <- deref (dict j) ;; Ret (list_.end_ members).

(** The const overloads (lines 913-931). *)
Definition begin_dictionary_const (j : json) : outcome dictionary_iterator :=
  if negb (is_dictionary j) then Throw (json_exception "this is not a dictionary")
  else members <- deref (dict j) ;; Ret (list_.begin members).

Definition end_dictionary_const (j : json) : outcome dictionary_iterator :=
  if negb (is_dictionary j) then Throw (json_exception "this is not a dictionary")
  else members <- deref (dict j) ;; Ret (list_.end_ members).

(** *** Keyed lookup (lines 935-964) *)

(** The [for] loop shared by both overloads: walk the members from
    [begin()] and stop at the first one whose key equals [kiave].  The
    result is the position of that member and its value. *)
Fixpoint find_member (kiave : string) (it : dictionary_iterator) (pos : nat)
  : option (nat * json) :=
  match it with
  | [] => None
  | (k, v) :: next =>
    if String.eqb k kiave then Some (pos, v)
    else find_member kiave next (S pos)
  end.

(** [operator[]] on a const value: the reference returned is modelled
    by the member value it designates. *)
Definition subscript_const (kiave : string) (j : json) : outcome json :=
  if negb (is_dictionary j) then Throw (json_exception "this is not a dictionary")
  else
    members <- deref (dict j) ;;
    match find_member kiave (list_.begin members) 0 with
    | Some (_, v) => Ret v
    | None => Throw (json_exception "non posso effettuare l'inserimento")
    end.

(** [operator[]] on a mutable value: the result is the value after the
    call together with the position, in its member sequence, of the slot
    the returned reference designates. *)
Definition subscript (kiave : string) (j : json) : outcome (json * nat) :=
  if negb (is_dictionary j) then Throw (json_exception "this is not a dictionary")
  else
    members <- deref (dict j) ;;
    match find_member kiave (list_.begin members) 0 with
    | Some (pos, _) => Ret (j, pos)
    | None =>
      fresh <- copy json_new ;;
      let members' := list_.push_back (kiave, fresh) members in
      _ <- list_.back_val members' ;;
      Ret (set_dict_ptr (live members') j, pred (List.length members'))
    end.

(** The member a slot position designates. *)
Definition slot (j : json) (pos : nat) : option (string * json) :=
  match dict j with
  | live members => nth_error members pos
  | _ => None
  end.

(** *** Construction, assignment and destruction (lines 966-1068) *)

(** Move constructor (lines 998-1019): the new value and what is left
    of the source. *)
Definition move_construct (j : json) : json * json :=
  let this := json_new in
  let '(this, j) :=
    if is_bool j then (set_b_ptr (b j) this, set_b_ptr nullptr j)
    else (this, j) in
  let '(this, j) :=
    if is_number j then (set_number_ptr (number j) this, set_number_ptr nullptr j)
    else (this, j) in
  let '(this, j) :=
    if is_string j then (set_s_ptr (s j) this, set_s_ptr nullptr j)
    else (this, j) in
  let '(this, j) :=
    if is_dictionary j then (set_dict_ptr (dict j) this, set_dict_ptr nullptr j)
    else (this, j) in
  let '(this, j) :=
    if is_list j then (set_l_ptr (l j) this, set_l_ptr nullptr j)
    else (this, j) in
  (this, j).

(** Copy assignment [this = j] with [this] and [j] distinct objects
    (lines 1021-1039): [clear], then the same allocations as the copy
    constructor, each stored in the field of [this]. *)
Definition copy_assign (this j : json) : outcome json :=
  this <- clear this ;;
  c <- copy j ;;
  let this := if is_bool j then set_b_ptr (b c) this else this in
  let this := if is_number j then set_number_ptr (number c) this else this in
  let this := if is_string j then set_s_ptr (s c) this else this in
  let this := if is_dictionary j then set_dict_ptr (dict c) this else this in
  let this := if is_list j then set_l_ptr (l c) this else this in
  Ret this.

(** Destructor (lines 968-981): every non-null field is deleted;
    deleting a list or a dictionary destroys its nodes, and with them
    the values they hold (lines 295-303). *)
Fixpoint destroy (j : json) : outcome unit :=
  match j with
  | Impl pn pb ps pl pd =>
    _ <- (if non_null pb then delete pb else Ret pb) ;;
    _ <- (if non_null pn then delete pn else Ret pn) ;;
    _ <- (if non_null ps then delete ps else Ret ps) ;;
    _ <- match pd with
         | nullptr => Ret tt
         | dangling => Undefined
         | live members =>
           (fix pop (it : list (string * json)) :=
              match it with
              | [] => Ret tt
              | (_, v) :: next => _ <- destroy v ;; pop next
              end) members
         end ;;
    match pl with
    | nullptr => Ret tt
    | dangling => Undefined
    | live elems =>
      (fix pop (it : list json) :=
         match it with
         | [] => Ret tt
         | v :: next => _ <- destroy v ;; pop next
         end) elems
    end
  end.

(** ** The input stream

    [std::istream] over an in-memory buffer (a [std::istringstream]):
    the characters not yet read, the two state bits the code can set,
    and the [skipws] format flag, which is set on every stream unless
    the caller clears it with [std::noskipws]. *)

Record istream : Type :=
  { buf : string; eofbit : bool; failbit : bool; skipws : bool }.

Definition good (i : istream) : bool := negb (eofbit i) && negb (failbit i).

Definition set_failbit (i : istream) : istream :=
  {| buf := buf i; eofbit := eofbit i; failbit := true; skipws := skipws i |}.

Definition set_eofbit (i : istream) : istream :=
  {| buf := buf i; eofbit := true; failbit := failbit i; skipws := skipws i |}.

Definition set_buf (r : string) (i : istream) : istream :=
  {| buf := r; eofbit := eofbit i; failbit := failbit i; skipws := skipws i |}.

(** [std::isspace] in the "C" locale: space, \t, \n, \v, \f, \r. *)
Definition isspace (c : ascii) : bool :=
  let n := nat_of_ascii c in
  Nat.eqb n 32 || (Nat.leb 9 n && Nat.leb n 13).

Fixpoint skip_space (r : string) : string :=
  match r with
  | String c r' => if isspace c then skip_space r' else r
  | EmptyString => EmptyString
  end.

(** [is >> c] for a [char]: the sentry fails on a stream that is not
    good, else skips white space when [skipws] is set; then one
    character is extracted.  [None] means the extraction failed and [c]
    was left as it was. *)
Definition extract (i : istream) : istream * option ascii :=
  if negb (good i) then (set_failbit i, None)
  else
    match (if skipws i then skip_space (buf i) else buf i) with
    | EmptyString => (set_failbit (set_eofbit (set_buf EmptyString i)), None)
    | String c r => (set_buf r i, Some c)
    end.

(** [is.get(c)]: unformatted, never skips. *)
Definition get (i : istream) : istream * option ascii :=
  if negb (good i) then (set_failbit i, None)
  else
    match buf i with
    | EmptyString => (set_failbit (set_eofbit i), None)
    | String c r => (set_buf r i, Some c)
    end.

(** [is.peek()]: [None] is [EOF]. *)
Definition peek (i : istream) : istream * option ascii :=
  if negb (good i) then (set_failbit i, None)
  else
    match buf i with
    | EmptyString => (set_eofbit i, None)
    | String c _ => (i, Some c)
    end.

(** Conversion of the [int] returned by [peek] to [char]: [EOF] is -1,
    which becomes the character 255. *)
Definition char_of_int (p : option ascii) : ascii :=
  match p with
  | Some c => c
  | None => "255"%char
  end.

(** [is.get(buffer, n)]: at most [n - 1] characters, stopping before a
    newline, which stays in the stream.  The library looks at the
    character that follows the last one it stores, also when the count
    has run out, and sets [eofbit] when there is none.  The result is
    the stream, the characters stored, and whether the end of the input
    was seen. *)
Fixpoint get_chars (count : nat) (r : string) : string * string * bool :=
  match count with
  | 0 =>
    match r with
    | EmptyString => (EmptyString, r, true)
    | _ => (EmptyString, r, false)
    end
  | S k =>
    match r with
    | EmptyString => (EmptyString, EmptyString, true)
    | String c r' =>
      if Ascii.eqb c "010" then (EmptyString, r, false)
      else let '(got, rest, e) := get_chars k r' in (String c got, rest, e)
    end
  end.

Definition get_buffer (n : nat) (i : istream) : istream * string :=
  if negb (good i) then (set_failbit i, EmptyString)
  else
    let '(got, rest, e) := get_chars (pred n) (buf i) in
    ({| buf := rest;
        eofbit := e;
        failbit := match got with EmptyString => true | _ => false end;
        skipws := skipws i |}, got).

(** [std::string data(buffer)]: the characters before the first NUL. *)
Fixpoint c_str (r : string) : string :=
  match r with
  | EmptyString => EmptyString
  | String c r' => if Ascii.eqb c "000" then EmptyString else String c (c_str r')
  end.

(** [is.seekg(off, std::ios_base::cur)] with [off >= 0]: clears
    [eofbit]; on a stream that has not failed, moves the read position,
    and fails when the target lies beyond the end of the buffer. *)
Fixpoint advance (off : nat) (r : string) : option string :=
  match off with
  | 0 => Some r
  | S k =>
    match r with
    | EmptyString => None
    | String _ r' => advance k r'
    end
  end.

Definition seekg_cur (off : nat) (i : istream) : istream :=
  let i := {| buf := buf i; eofbit := false; failbit := failbit i;
              skipws := skipws i |} in
  if failbit i then i
  else
    match advance off (buf i) with
    | Some r => set_buf r i
    | None => set_failbit i
    end.

(** ** Tokens and the tokenizer (lines 1270-1418) *)

Inductive TOKEN : Type :=
| GRAFFA_APERTA
| GRAFFA_CHIUSA
| DUE_PUNTI
| STRING
| NUMBER
| QUADRA_APERTA
| QUADRA_CHIUSA
| VIRGOLA
| BOOLEAN
| NULLO
| FINE_INPUT.

Record Token : Type := { value : string; type : TOKEN }.

(** The member [s] of the class is never used and is left out; the
    stream member [is] is spelled [is_]. *)
Record Tokenizer : Type := { is_ : istream; curr_char : ascii }.

(** [Tokenizer(std::istream& input)] *)
Definition Tokenizer_new (input : istream) : Tokenizer :=
  {| is_ := input; curr_char := " "%char |}.

Definition dquote : ascii := "034"%char.

Definition is_digit (c : ascii) : bool := Ascii.leb "0" c && Ascii.leb c "9".

(** The test of the number loop: '-', a digit, or '.'. *)
Definition number_char (c : ascii) : bool :=
  Ascii.eqb c "-" || is_digit c || Ascii.eqb c ".".

Definition blank (c : ascii) : bool := Ascii.eqb c " " || Ascii.eqb c "010".

(** [is >> curr_char] and [is.get(curr_char)] on the tokenizer; the
    boolean is the truth value of the stream afterwards. *)
Definition read_curr (t : Tokenizer) : Tokenizer * bool :=
  match extract (is_ t) with
  | (i, Some c) => ({| is_ := i; curr_char := c |}, true)
  | (i, None) => ({| is_ := i; curr_char := curr_char t |}, false)
  end.

Definition get_curr (t : Tokenizer) : Tokenizer :=
  match get (is_ t) with
  | (i, Some c) => {| is_ := i; curr_char := c |}
  | (i, None) => {| is_ := i; curr_char := curr_char t |}
  end.

(** [Tokenizer::getWithoutWhiteSpace] (lines 1314-1321) *)
Fixpoint getWithoutWhiteSpace (fuel : nat) (t : Tokenizer) : outcome Tokenizer :=
  if blank (curr_char t) then
    match read_curr t with
    | (t', true) =>
      match fuel with
      | 0 => Timeout
      | S f => getWithoutWhiteSpace f t'
      end
    | (t', false) => Ret t'
    end
  else Ret t.

(** The string loop (lines 1344-1349): while [curr_char] is not the
    double quote, [token.value += curr_char; is.get(curr_char);].
    [string_body] is the turn whose append is granted; [string_turn]
    asks the allocator first, for a text that holds one character
    more. *)
Definition string_cond (t : Tokenizer) : bool := negb (Ascii.eqb (curr_char t) dquote).

Definition string_body (st : string * Tokenizer) : string * Tokenizer :=
  (fst st ++ String (curr_char (snd st)) EmptyString, get_curr (snd st)).

Definition string_turn (heap : option nat) (st : string * Tokenizer)
  : outcome (string * Tokenizer) :=
  _ <- allocate heap (String.length (fst st)) ;;
  Ret (string_body st).

Fixpoint string_while_in (heap : option nat) (fuel : nat)
    (st : string * Tokenizer) : outcome (string * Tokenizer) :=
  if string_cond (snd st) then
    match fuel with
    | 0 => Timeout
    | S f => st' <- string_turn heap st ;; string_while_in heap f st'
    end
  else Ret st.

(** The loop with an allocator that never refuses. *)
Definition string_while (fuel : nat) (st : string * Tokenizer)
  : outcome (string * Tokenizer) :=
  string_while_in None fuel st.

(** The number loop (lines 1360-1376). *)
Fixpoint number_while (fuel : nat) (st : string * Tokenizer)
  : outcome (string * Tokenizer) :=
  let '(v, t) := st in
  if number_char (curr_char t) then
    match fuel with
    | 0 => Timeout
    | S f =>
      let '(i1, p1) := peek (is_ t) in
      let c := char_of_int p1 in
      let '(i2, p2) := peek i1 in
      match p2 with
      | Some "000"%char => Ret (v, {| is_ := i2; curr_char := c |})
      | _ =>
        if number_char c then
          number_while f (v ++ String c EmptyString,
                          get_curr {| is_ := i2; curr_char := c |})
        else number_while f (v, {| is_ := i2; curr_char := c |})
      end
    end
  else Ret st.

(** The argument of the last [throw] of [get_token] (line 1415) is
    [&"carattere non identificato: "[curr_char]]: the literal indexed
    by the character, not the literal followed by it.  The literal has
    28 characters and a terminator; an index beyond that leaves the
    array. *)
Definition unidentified (c : ascii) : outcome string :=
  let n := nat_of_ascii c in
  if Nat.leb n 28 then Ret (substring n (28 - n) "carattere non identificato: ")
  else Undefined.

Definition token (ty : TOKEN) (v : string) : Token := {| value := v; type := ty |}.

(** [Tokenizer::get_token] (lines 1324-1418), [heap] being the limit
    of the allocator for the text of a string token. *)
Definition get_token_in (heap : option nat) (fuel : nat) (t : Tokenizer)
  : outcome (Token * Tokenizer) :=
  match read_curr t with
  | (t, false) => Ret (token FINE_INPUT "", t)
  | (t, true) =>
    t <- (if blank (curr_char t) then getWithoutWhiteSpace fuel t else Ret t) ;;
    let c := curr_char t in
    if Ascii.eqb c dquote then
      ' (v, t) <- string_while_in heap fuel (EmptyString, get_curr t) ;;
      Ret (token STRING v, t)
    else if Ascii.eqb c "{" then Ret (token GRAFFA_APERTA "", t)
    else if Ascii.eqb c "}" then Ret (token GRAFFA_CHIUSA "", t)
    else if Ascii.eqb c "-" || is_digit c then
      ' (v, t) <- number_while fuel (String c EmptyString, t) ;;
      Ret (token NUMBER v, t)
    else if Ascii.eqb c "f" then
      let '(i, buffer) := get_buffer 5 (is_ t) in
      if negb (String.eqb (c_str buffer) "alse")
      then Throw (json_exception "boolean not valid")
      else Ret (token BOOLEAN "False", {| is_ := i; curr_char := c |})
    else if Ascii.eqb c "t" then
      let '(i, buffer) := get_buffer 4 (is_ t) in
      if negb (String.eqb (c_str buffer) "rue")
      then Throw (json_exception "boolean not valid")
      else Ret (token BOOLEAN "True", {| is_ := i; curr_char := c |})
    else if Ascii.eqb c "n" then
      Ret (token NULLO "", {| is_ := seekg_cur 3 (is_ t); curr_char := c |})
    else if Ascii.eqb c "[" then Ret (token QUADRA_APERTA "", t)
    else if Ascii.eqb c "]" then Ret (token QUADRA_CHIUSA "", t)
    else if Ascii.eqb c ":" then Ret (token DUE_PUNTI "", t)
    else if Ascii.eqb c "," then Ret (token VIRGOLA "", t)
    else msg <- unidentified c ;; Throw (json_exception msg)
  end.

(** The part of [get_token] that follows its first read, named for
    the unfolding equation [get_token_unfold]. *)
Definition get_token_after_in (heap : option nat) (fuel : nat) (t : Tokenizer)
  : outcome (Token * Tokenizer) :=
  t <- (if blank (curr_char t) then getWithoutWhiteSpace fuel t else Ret t) ;;
  let c := curr_char t in
  if Ascii.eqb c dquote then
    ' (v, t) <- string_while_in heap fuel (EmptyString, get_curr t) ;;
    Ret (token STRING v, t)
  else if Ascii.eqb c "{" then Ret (token GRAFFA_APERTA "", t)
  else if Ascii.eqb c "}" then Ret (token GRAFFA_CHIUSA "", t)
  else if Ascii.eqb c "-" || is_digit c then
    ' (v, t) <- number_while fuel (String c EmptyString, t) ;;
    Ret (token NUMBER v, t)
  else if Ascii.eqb c "f" then
    let '(i, buffer) := get_buffer 5 (is_ t) in
    if negb (String.eqb (c_str buffer) "alse")
    then Throw (json_exception "boolean not valid")
    else Ret (token BOOLEAN "False", {| is_ := i; curr_char := c |})
  else if Ascii.eqb c "t" then
    let '(i, buffer) := get_buffer 4 (is_ t) in
    if negb (String.eqb (c_str buffer) "rue")
    then Throw (json_exception "boolean not valid")
    else Ret (token BOOLEAN "True", {| is_ := i; curr_char := c |})
  else if Ascii.eqb c "n" then
    Ret (token NULLO "", {| is_ := seekg_cur 3 (is_ t); curr_char := c |})
  else if Ascii.eqb c "[" then Ret (token QUADRA_APERTA "", t)
  else if Ascii.eqb c "]" then Ret (token QUADRA_CHIUSA "", t)
  else if Ascii.eqb c ":" then Ret (token DUE_PUNTI "", t)
  else if Ascii.eqb c "," then Ret (token VIRGOLA "", t)
  else msg <- unidentified c ;; Throw (json_exception msg).

(** [get_token] with an allocator that never refuses: the text of a
    token is then bounded by the input alone. *)
Definition get_token (fuel : nat) (t : Tokenizer) : outcome (Token * Tokenizer) :=
  get_token_in None fuel t.

Definition get_token_after (fuel : nat) (t : Tokenizer)
  : outcome (Token * Tokenizer) :=
  get_token_after_in None fuel t.

(** ** Text to double and back

    [std::stod] and the stream inserter for [double] are library
    functions.  They are modelled on decimal texts without exponent,
    which covers every text a NUMBER token can hold (it is made of '-',
    digits and '.' only).  [std::stod] converts the longest prefix that
    is a number, rounds it to the nearest double, throws
    [std::invalid_argument] when there is no such prefix and
    [std::out_of_range] when [strtod] reports a range error. *)

Definition digit_val (c : ascii) : Z := Z.of_nat (nat_of_ascii c) - 48.

(** Reads a run of digits: the number read so far, how many digits were
    read, and the text left. *)
Fixpoint read_digits (r : string) (acc : Z) (count : nat) : Z * nat * string :=
  match r with
  | String c r' =>
    if is_digit c then read_digits r' (10 * acc + digit_val c)%Z (S count)
    else (acc, count, r)
  | EmptyString => (acc, count, r)
  end.

(** The subject sequence of [strtod]: optional white space, an optional
    sign, digits with an optional '.', at least one digit in all.  The
    result is the sign, the digits read as one integer [m], and the
    number [k] of digits after the point: the value is [m / 10^k]. *)
Definition strtod_decimal (r : string) : option (bool * Z * nat) :=
  let r := skip_space r in
  let '(neg, r) :=
    match r with
    | String "-" r' => (true, r')
    | String "+" r' => (false, r')
    | _ => (false, r)
    end in
  let '(m, ni, r) := read_digits r 0%Z 0 in
  let '(m, nf) :=
    match r with
    | String "." r' => let '(m', nf, _) := read_digits r' m 0 in (m', nf)
    | _ => (m, 0)
    end in
  match ni + nf with
  | 0 => None
  | _ => Some (neg, m, nf)
  end.

(** [m / 10^k] rounded to the nearest binary64, ties to even. *)
Definition decimal_to_double (neg : bool) (m : Z) (k : nat) : double :=
  match m with
  | Zpos p =>
    SFdiv 53 1024 (S754_finite neg p 0)
                  (S754_finite false (Z.to_pos (10 ^ Z.of_nat k)) 0)
  | _ => S754_zero neg
  end.

(** Does [x] have exactly the value [m / 10^k] in magnitude? *)
Definition exactly (x : double) (m : Z) (k : nat) : bool :=
  match x with
  | S754_zero _ => Z.eqb m 0
  | S754_finite _ p e =>
    Z.eqb (Zpos p * 2 ^ Z.max e 0 * 10 ^ Z.of_nat k) (m * 2 ^ Z.max (- e) 0)
  | _ => false
  end.

(** The range errors of [strtod]: overflow, and a result below the
    normal range that is not exact. *)
Definition range_error (x : double) (m : Z) (k : nat) : bool :=
  match x with
  | S754_infinity _ => true
  | S754_zero _ => negb (exactly x m k)
  | S754_finite _ p _ => Pos.ltb p (2 ^ 52) && negb (exactly x m k)
  | S754_nan => false
  end.

Definition stod (str : string) : outcome double :=
  match strtod_decimal str with
  | None => Throw (std_invalid_argument "stod")
  | Some (neg, m, k) =>
    let x := decimal_to_double neg m k in
    if range_error x m k then Throw (std_out_of_range "stod") else Ret x
  end.

(** [os << x] for a [double] with the stream's default format: the
    [%g] conversion with precision 6. *)

Fixpoint dec_digits (n : nat) (x : Z) (acc : string) : string :=
  match n with
  | 0 => acc
  | S k =>
    dec_digits k (x / 10)%Z
               (String (ascii_of_nat (48 + Z.to_nat (x mod 10))) acc)
  end.

Fixpoint exponent_up (fuel : nat) (n d x : Z) : Z :=
  match fuel with
  | 0 => x
  | S f => if (10 * d <=? n)%Z then exponent_up f n (10 * d)%Z (x + 1)%Z else x
  end.

Fixpoint exponent_down (fuel : nat) (n d x : Z) : Z :=
  match fuel with
  | 0 => x
  | S f => if (n <? d)%Z then exponent_down f (10 * n)%Z d (x - 1)%Z else x
  end.

(** The decimal exponent [X] of [n / d]: [10^X <= n / d < 10^(X+1)].
    A binary64 value has [-324 <= X <= 308]. *)
Definition decimal_exponent (n d : Z) : Z :=
  if (d <=? n)%Z then exponent_up 400 n d 0 else exponent_down 400 n d 0.

(** [n / d] rounded to six significant decimal digits, ties to even:
    the six digits as an integer, and the decimal exponent of the
    rounded value. *)
Definition six_digits (n d : Z) : Z * Z :=
  let X := decimal_exponent n d in
  let num := (n * 10 ^ Z.max (5 - X) 0)%Z in
  let den := (d * 10 ^ Z.max (X - 5) 0)%Z in
  let q := (num / den)%Z in
  let r := (num mod den)%Z in
  let q := if (den <? 2 * r)%Z || ((den =? 2 * r)%Z && Z.odd q)
           then (q + 1)%Z else q in
  if (q =? 1000000)%Z then (100000%Z, (X + 1)%Z) else (q, X).

Fixpoint strip_zeros (r : string) : string :=
  match r with
  | EmptyString => EmptyString
  | String c r' =>
    match strip_zeros r' with
    | EmptyString => if Ascii.eqb c "0" then EmptyString else String c EmptyString
    | z => String c z
    end
  end.

Definition with_point (int frac : string) : string :=
  match strip_zeros frac with
  | EmptyString => int
  | f => int ++ "." ++ f
  end.

Fixpoint zeros (n : nat) : string :=
  match n with
  | 0 => EmptyString
  | S k => String "0" (zeros k)
  end.

Definition format_g (n d : Z) : string :=
  let '(q, X) := six_digits n d in
  let ds := dec_digits 6 q EmptyString in
  if ((-4 <=? X) && (X <? 6))%Z then
    if (0 <=? X)%Z then
      with_point (substring 0 (Z.to_nat X + 1) ds)
                 (substring (Z.to_nat X + 1) (5 - Z.to_nat X) ds)
    else with_point "0" (zeros (Z.to_nat (- X - 1)) ++ ds)
  else
    with_point (substring 0 1 ds) (substring 1 5 ds)
    ++ "e" ++ (if (X <? 0)%Z then "-" else "+")
    ++ dec_digits (if (Z.abs X <? 100)%Z then 2 else 3) (Z.abs X) EmptyString.

Definition print_double (x : double) : string :=
  match x with
  | S754_zero neg => (if neg then "-" else "") ++ "0"
  | S754_infinity neg => (if neg then "-" else "") ++ "inf"
  | S754_nan => "nan"
  | S754_finite neg p e =>
    (if neg then "-" else "")
    ++ format_g (Zpos p * 2 ^ Z.max e 0) (2 ^ Z.max (- e) 0)
  end.

(** ** The serializer (lines 1240-1264)

    The result is the text written to the output stream. *)
Fixpoint operator_shl (rhs : json) : outcome string :=
  match rhs with
  | Impl pn pb ps pl pd =>
    if non_null pn then x <- deref pn ;; Ret (print_double x)
    else
      match pl with
      | live elems =>
        body <- (fix each (it : list_iterator) :=
                   match it with
                   | [] => Ret ""
                   | v :: next =>
                     sv <- operator_shl v ;;
                     rest <- each next ;;
                     Ret (sv ++ ", " ++ rest)
                   end) elems ;;
        Ret ("[ " ++ body ++ "] ")
      | dangling => Undefined
      | nullptr =>
        match pd with
        | live members =>
          body <- (fix each (it : dictionary_iterator) :=
                     match it with
                     | [] => Ret ""
                     | (k, v) :: next =>
                       sv <- operator_shl v ;;
                       rest <- each next ;;
                       Ret (k ++ ":" ++ sv ++ ", " ++ rest)
                     end) members ;;
          Ret ("{ " ++ body ++ "} ")
        | dangling => Undefined
        | nullptr =>
          if non_null ps then deref ps
          else if non_null pb then
            x <- deref pb ;; Ret (if x : bool then "true" else "false")
          else Ret "null"
        end
      end
  end.

(** ** The parser (lines 1421-1795) *)

Definition get_json_string (t : Token) : outcome json :=
  set_string (value t) json_new.

Definition get_json_number (t : Token) : outcome json :=
  x <- stod (value t) ;; set_number x json_new.

Definition get_json_boolean (t : Token) : outcome json :=
  if String.eqb (value t) "True" then set_bool true json_new
  else set_bool false json_new.

Definition get_json_null (t : Token) : outcome json :=
  set_null json_new.

(** The local variables of [get_json_dictionary] and of
    [get_json_list]. *)
Record dictionary_locals : Type :=
  { dj : json; sinistra : string; db : bool; dprimo : bool; dvirgola : bool }.

Record list_locals : Type :=
  { lj : json; lprimo : bool; lvirgola : bool }.

Definition str_empty (x : string) : bool :=
  match x with
  | EmptyString => true
  | _ => false
  end.

(** A parser of one value: from the tokenizer to the value and the
    tokenizer after it.  A literal does not touch the tokenizer. *)
Definition value_parser : Type := Tokenizer -> outcome (json * Tokenizer).

Definition literal (v : outcome json) : value_parser :=
  fun t => j <- v ;; Ret (j, t).

(** The branch of the dictionary loop taken for a token that can start
    a value.  The source spells it out six times (lines 1461-1618), the
    copies differing only in the call that builds the value, here
    [mk]. *)
Definition dictionary_value (mk : value_parser) (tok : Token)
    (st : dictionary_locals) (t : Tokenizer)
  : outcome (dictionary_locals * Tokenizer) :=
  if str_empty (sinistra st) && negb (db st) then
    Ret ({| dj := dj st; sinistra := value tok; db := db st;
            dprimo := dprimo st; dvirgola := dvirgola st |}, t)
  else if negb (str_empty (sinistra st)) && db st then
    if dprimo st && negb (dvirgola st) then
      ' (v, t) <- mk t ;;
      j <- insert (sinistra st, v) (dj st) ;;
      Ret ({| dj := j; sinistra := sinistra st; db := false;
              dprimo := false; dvirgola := dvirgola st |}, t)
    else if negb (dprimo st) && dvirgola st then
      ' (v, t) <- mk t ;;
      j <- insert (sinistra st, v) (dj st) ;;
      Ret ({| dj := j; sinistra := sinistra st; db := false;
              dprimo := dprimo st; dvirgola := false |}, t)
    else Throw (json_exception "problema virgola")
  else Throw (json_exception "due punti mancanti").

(** The same for the list loop (lines 1656-1737). *)
Definition list_value (mk : value_parser) (st : list_locals) (t : Tokenizer)
  : outcome (list_locals * Tokenizer) :=
  if lprimo st && negb (lvirgola st) then
    ' (v, t) <- mk t ;;
    j <- push_back v (lj st) ;;
    Ret ({| lj := j; lprimo := false; lvirgola := lvirgola st |}, t)
  else if negb (lprimo st) && lvirgola st then
    ' (v, t) <- mk t ;;
    j <- push_back v (lj st) ;;
    Ret ({| lj := j; lprimo := lprimo st; lvirgola := false |}, t)
  else Throw (json_exception "problema virgola").

(** [get_json_dictionary] and [get_json_list] with their [while]
    loops.  [fuel] bounds the number of iterations of every loop and the
    depth of the recursion. *)
Fixpoint get_json_dictionary (fuel : nat) (t : Tokenizer) {struct fuel}
  : outcome (json * Tokenizer) :=
  match fuel with
  | 0 => Timeout
  | S f =>
    j <- set_dictionary json_new ;;
    ' (tok, t) <- get_token f t ;;
    dictionary_while f {| dj := j; sinistra := ""; db := false;
                          dprimo := true; dvirgola := false |} tok t
  end

with dictionary_while (fuel : nat) (st : dictionary_locals) (tok : Token)
    (t : Tokenizer) {struct fuel} : outcome (json * Tokenizer) :=
  match type tok with
  | GRAFFA_CHIUSA => Ret (dj st, t)
  | ty =>
    match fuel with
    | 0 => Timeout
    | S f =>
      ' (st, t) <-
        match ty with
        | STRING => dictionary_value (literal (get_json_string tok)) tok st t
        | NUMBER => dictionary_value (literal (get_json_number tok)) tok st t
        | BOOLEAN => dictionary_value (literal (get_json_boolean tok)) tok st t
        | NULLO => dictionary_value (literal (get_json_null tok)) tok st t
        | GRAFFA_APERTA => dictionary_value (get_json_dictionary f) tok st t
        | QUADRA_APERTA => dictionary_value (get_json_list f) tok st t
        | DUE_PUNTI =>
          if negb (str_empty (sinistra st)) && negb (db st) then
            Ret ({| dj := dj st; sinistra := sinistra st; db := true;
                    dprimo := dprimo st; dvirgola := dvirgola st |}, t)
          else Throw (json_exception "formato json non valido")
        | VIRGOLA =>
          if negb (dvirgola st) then
            Ret ({| dj := dj st; sinistra := ""; db := false;
                    dprimo := dprimo st; dvirgola := true |}, t)
          else Throw (json_exception "hai ricevuto una virgola non necessaria")
        | _ => Throw (json_exception "formato json non valido")
        end ;;
      ' (tok, t) <- get_token f t ;;
      dictionary_while f st tok t
    end
  end

with get_json_list (fuel : nat) (t : Tokenizer) {struct fuel}
  : outcome (json * Tokenizer) :=
  match fuel with
  | 0 => Timeout
  | S f =>
    j <- set_list json_new ;;
    ' (tok, t) <- get_token f t ;;
    list_while f {| lj := j; lprimo := true; lvirgola := false |} tok t
  end

with list_while (fuel : nat) (st : list_locals) (tok : Token) (t : Tokenizer)
    {struct fuel} : outcome (json * Tokenizer) :=
  match type tok with
  | QUADRA_CHIUSA => Ret (lj st, t)
  | ty =>
    match fuel with
    | 0 => Timeout
    | S f =>
      ' (st, t) <-
        match ty with
        | STRING => list_value (literal (get_json_string tok)) st t
        | NUMBER => list_value (literal (get_json_number tok)) st t
        | BOOLEAN => list_value (literal (get_json_boolean tok)) st t
        | NULLO => list_value (literal (get_json_null tok)) st t
        | GRAFFA_APERTA => list_value (get_json_dictionary f) st t
        | QUADRA_APERTA => list_value (get_json_list f) st t
        | VIRGOLA =>
          if negb (lvirgola st) then
            Ret ({| lj := lj st; lprimo := lprimo st; lvirgola := true |}, t)
          else Throw (json_exception "hai ricevuto una virgola non necessaria")
        | _ => Throw (json_exception "formato json non valido")
        end ;;
      ' (tok, t) <- get_token f t ;;
      list_while f st tok t
    end
  end.

(** [operator>>] (lines 1758-1795): the [while (true)] loop, then the
    operator itself.  The result is the stream and the target value
    [rhs] after the call. *)
Fixpoint operator_shr_while (fuel : nat) (t : Tokenizer) (rhs : json)
  : outcome (Tokenizer * json) :=
  match fuel with
  | 0 => Timeout
  | S f =>
    ' (tok, t) <- get_token f t ;;
    match type tok with
    | GRAFFA_APERTA =>
      ' (v, t) <- get_json_dictionary f t ;;
      rhs <- move_assign rhs v ;; operator_shr_while f t rhs
    | STRING =>
      v <- get_json_string tok ;;
      rhs <- move_assign rhs v ;; operator_shr_while f t rhs
    | NUMBER =>
      v <- get_json_number tok ;;
      rhs <- move_assign rhs v ;; operator_shr_while f t rhs
    | QUADRA_APERTA =>
      ' (v, t) <- get_json_list f t ;;
      rhs <- move_assign rhs v ;; operator_shr_while f t rhs
    | BOOLEAN =>
      v <- get_json_boolean tok ;;
      rhs <- move_assign rhs v ;; operator_shr_while f t rhs
    | NULLO =>
      v <- get_json_null tok ;;
      rhs <- move_assign rhs v ;; operator_shr_while f t rhs
    | FINE_INPUT => Ret (t, rhs)
    | _ => Throw (json_exception "formato json non valiod")
    end
  end.

(** One turn of the loop of [operator>>], named for the unfolding
    equation [operator_shr_while_S]. *)
Definition shr_body (f : nat) (t : Tokenizer) (rhs : json)
  : outcome (Tokenizer * json) :=
  ' (tok, t) <- get_token f t ;;
  match type tok with
  | GRAFFA_APERTA =>
    ' (v, t) <- get_json_dictionary f t ;;
    rhs <- move_assign rhs v ;; operator_shr_while f t rhs
  | STRING =>
    v <- get_json_string tok ;;
    rhs <- move_assign rhs v ;; operator_shr_while f t rhs
  | NUMBER =>
    v <- get_json_number tok ;;
    rhs <- move_assign rhs v ;; operator_shr_while f t rhs
  | QUADRA_APERTA =>
    ' (v, t) <- get_json_list f t ;;
    rhs <- move_assign rhs v ;; operator_shr_while f t rhs
  | BOOLEAN =>
    v <- get_json_boolean tok ;;
    rhs <- move_assign rhs v ;; operator_shr_while f t rhs
  | NULLO =>
    v <- get_json_null tok ;;
    rhs <- move_assign rhs v ;; operator_shr_while f t rhs
  | FINE_INPUT => Ret (t, rhs)
  | _ => Throw (json_exception "formato json non valiod")
  end.

Definition operator_shr (fuel : nat) (lhs : istream) (rhs : json)
  : outcome (istream * json) :=
  ' (t, rhs) <- operator_shr_while fuel (Tokenizer_new lhs) rhs ;;
  Ret (is_ t, rhs).

(** A stream freshly opened on a text, as [std::istringstream(text)]
    builds it, and the same with [std::noskipws] applied. *)
Definition istringstream (text : string) : istream :=
  {| buf := text; eofbit := false; failbit := false; skipws := true |}.

Definition noskipws (i : istream) : istream :=
  {| buf := buf i; eofbit := eofbit i; failbit := failbit i; skipws := false |}.

(** Parsing a text into a fresh value. *)
Definition parse (fuel : nat) (text : string) : outcome json :=
  ' (_, rhs) <- operator_shr fuel (istringstream text) json_new ;;
  Ret rhs.

(** ** Notions used to state the properties *)

(** [kiave] first occurs in [members] at position [pos], with value
    [v]. *)
Definition first_match (kiave : string) (members : list (string * json))
    (pos : nat) (v : json) : Prop :=
  nth_error members pos = Some (kiave, v)
  /\ forall i k w, i < pos -> nth_error members i = Some (k, w) -> k <> kiave.

(** No member of [members] has the key [kiave]. *)
Definition absent (kiave : string) (members : list (string * json)) : Prop :=
  forall k w, In (k, w) members -> k <> kiave.

(** The values with exactly one variant populated. *)
Definition number_value (x : double) : json :=
  Impl (live x) nullptr nullptr nullptr nullptr.
Definition bool_value (x : bool) : json :=
  Impl nullptr (live x) nullptr nullptr nullptr.
Definition string_value (x : string) : json :=
  Impl nullptr nullptr (live x) nullptr nullptr.
Definition array_value (elems : list json) : json :=
  Impl nullptr nullptr nullptr (live elems) nullptr.
Definition object_value (members : list (string * json)) : json :=
  Impl nullptr nullptr nullptr nullptr (live members).

(** The doubles 1.0 and 2.0: [2^52 * 2^-52] and [2^52 * 2^-51]. *)
Definition double_one : double := S754_finite false 4503599627370496 (-52).
Definition double_two : double := S754_finite false 4503599627370496 (-51).

(** A text between double quotes. *)
Definition quoted (x : string) : string :=
  String dquote (x ++ String dquote EmptyString).

(** Successive calls of [insert], first member first. *)
Fixpoint insert_all (xs : list (string * json)) (j : json) : outcome json :=
  match xs with
  | [] => Ret j
  | x :: rest => j' <- insert x j ;; insert_all rest j'
  end.

(** Every character of a text satisfies a test. *)
Fixpoint all_chars (p : ascii -> bool) (x : string) : bool :=
  match x with
  | EmptyString => true
  | String c r => p c && all_chars p r
  end.

Definition not_dquote (c : ascii) : bool := negb (Ascii.eqb c dquote).

(** The characters [ws] in front of a token are skipped on the stream
    [i]: any white space when [skipws] is set, where the formatted read
    skips it; else spaces and newlines only, skipped by the loop of
    [getWithoutWhiteSpace], one turn per character. *)
Definition skippable (i : istream) (fuel : nat) (ws : string) : Prop :=
  if skipws i then all_chars isspace ws = true
  else all_chars blank ws = true /\ String.length ws <= fuel.

(** The tokenizer reading the text [r] on the stream [i]. *)
Definition tokenizer_at (i : istream) (r : string) (c0 : ascii) : Tokenizer :=
  {| is_ := set_buf r i; curr_char := c0 |}.

(** The stream [i] after [get(buffer, n)] has stored all the
    characters it was asked for, [tail] being what is left: the
    library has looked at the next character, and [eofbit] is set when
    there is none. *)
Definition looked_ahead (i : istream) (tail : string) : istream :=
  match tail with
  | EmptyString => set_eofbit (set_buf tail i)
  | _ => set_buf tail i
  end.

(** Serializing [j] gives a text that parses, into a fresh value, to
    [j']; [j] round-trips when it is read back as itself. *)
Definition reparses (j j' : json) : Prop :=
  exists text, operator_shl j = Ret text
               /\ exists fuel, parse fuel text = Ret j'.

Definition round_trips (j : json) : Prop := reparses j j.

(** A text that is lexed as one NUMBER token: '-' or a digit, then
    only '-', digits and '.'. *)
Definition plain_decimal (text : string) : bool :=
  match text with
  | String c r => (Ascii.eqb c "-" || is_digit c) && all_chars number_char r
  | EmptyString => false
  end.

(** The state of the string loop on an unterminated literal: the
    current character is not the double quote and none is left in the
    stream. *)
Definition no_dquote_ahead (t : Tokenizer) : Prop :=
  not_dquote (curr_char t) = true /\ all_chars not_dquote (buf (is_ t)) = true.

(** [extends r r']: if [r] is settled (not a timeout), [r'] is the same
    outcome. *)
Definition extends {A : Type} (r r' : outcome A) : Prop :=
  r <> Timeout -> r' = r.

(** No pointer of the value, at any depth, is dangling. *)
Definition valid {A : Type} (p : ptr A) : bool :=
  match p with
  | dangling => false
  | _ => true
  end.

Fixpoint no_dangling (j : json) : bool :=
  match j with
  | Impl pn pb ps pl pd =>
    valid pn && valid pb && valid ps
    && match pl with
       | nullptr => true
       | dangling => false
       | live elems => forallb no_dangling elems
       end
    && match pd with
       | nullptr => true
       | dangling => false
       | live members => forallb (fun m => no_dangling (snd m)) members
       end
  end.

(** The number of non-null pointers of a value. *)
Definition populated (j : json) : nat :=
  (if is_number j then 1 else 0) + (if is_bool j then 1 else 0)
  + (if is_string j then 1 else 0) + (if is_list j then 1 else 0)
  + (if is_dictionary j then 1 else 0).

(** The invariant of the data model: at every depth, at most one
    variant is populated and no pointer is dangling. *)
Fixpoint well_formed (j : json) : bool :=
  Nat.leb (populated j) 1
  && match j with
     | Impl pn pb ps pl pd =>
       valid pn && valid pb && valid ps
       && match pl with
          | nullptr => true
          | dangling => false
          | live elems => forallb well_formed elems
          end
       && match pd with
          | nullptr => true
          | dangling => false
          | live members => forallb (fun m => well_formed (snd m)) members
          end
     end.

(** Successive calls of [push_back], and of [push_front], first value
    first. *)
Fixpoint push_back_all (xs : list json) (j : json) : outcome json :=
  match xs with
  | [] => Ret j
  | x :: rest => j' <- push_back x j ;; push_back_all rest j'
  end.

Fixpoint push_front_all (xs : list json) (j : json) : outcome json :=
  match xs with
  | [] => Ret j
  | x :: rest => j' <- push_front x j ;; push_front_all rest j'
  end.

(** *** Documents

    The documents the parser is checked on: compact JSON texts whose
    numbers are plain decimals and whose strings hold no double quote.
    A number comes with the double its text converts to. *)
#[warnings="-register-all"]
Inductive doc : Type :=
| DNumber (text : string) (x : double)
| DBool (x : bool)
| DNull
| DString (x : string)
| DList (elems : list doc)
| DObject (members : list (string * doc)).

(** The text of a document.  With [tc] set, a comma is written before
    every closing bracket and brace. *)
Fixpoint render (tc : bool) (d : doc) : string :=
  match d with
  | DNumber text _ => text
  | DBool x => if x then "true" else "false"
  | DNull => "null"
  | DString x => quoted x
  | DList elems =>
    "[" ++ String.concat "," (map (render tc) elems)
        ++ (if tc then "," else "") ++ "]"
  | DObject members =>
    "{" ++ String.concat ","
             (map (fun m => quoted (fst m) ++ ":" ++ render tc (snd m)) members)
        ++ (if tc then "," else "") ++ "}"
  end.

(** The value a document stands for under this parser: a List keeps
    the order of its elements, an Object holds its members last one
    first. *)
Fixpoint value_of (d : doc) : json :=
  match d with
  | DNumber _ x => number_value x
  | DBool x => bool_value x
  | DNull => json_new
  | DString x => string_value x
  | DList elems => array_value (map value_of elems)
  | DObject members =>
    object_value (rev (map (fun m => (fst m, value_of (snd m))) members))
  end.

(** The documents covered: number texts are plain decimals that
    convert, strings and keys hold no double quote, keys are not
    empty. *)
#[warnings="-register-all"]
Inductive ok : doc -> Prop :=
| ok_number text x :
    plain_decimal text = true -> stod text = Ret x -> ok (DNumber text x)
| ok_bool x : ok (DBool x)
| ok_null : ok DNull
| ok_string x : all_chars not_dquote x = true -> ok (DString x)
| ok_list elems : Forall ok elems -> ok (DList elems)
| ok_object members :
    Forall (fun m => str_empty (fst m) = false
                     /\ all_chars not_dquote (fst m) = true
                     /\ ok (snd m)) members ->
    ok (DObject members).

(** The tokens that can start a value, and the call each loop of the
    parser makes for them. *)
Definition value_kind (ty : TOKEN) : bool :=
  match ty with
  | STRING | NUMBER | BOOLEAN | NULLO | GRAFFA_APERTA | QUADRA_APERTA => true
  | _ => false
  end.

Definition value_parser_of (f : nat) (tok : Token) : value_parser :=
  match type tok with
  | STRING => literal (get_json_string tok)
  | NUMBER => literal (get_json_number tok)
  | BOOLEAN => literal (get_json_boolean tok)
  | NULLO => literal (get_json_null tok)
  | GRAFFA_APERTA => get_json_dictionary f
  | QUADRA_APERTA => get_json_list f
  | _ => fun _ => Timeout
  end.

(** The end of a turn of each loop: the next token, then the loop. *)
Definition list_continue (f : nat) (st : list_locals) (t : Tokenizer)
  : outcome (json * Tokenizer) :=
  ' (tok, t) <- get_token f t ;; list_while f st tok t.

Definition dictionary_continue (f : nat) (st : dictionary_locals)
    (t : Tokenizer) : outcome (json * Tokenizer) :=
  ' (tok, t) <- get_token f t ;; dictionary_while f st tok t.

(** What the two loops of the parser keep true of the value they
    build, and what they ask of the parser of a member or element. *)
Definition wf_array (j : json) : Prop :=
  exists elems, j = array_value elems /\ forallb well_formed elems = true.

Definition wf_object (j : json) : Prop :=
  exists members,
    j = object_value members
    /\ forallb (fun m => well_formed (snd m)) members = true.

Definition builds_well_formed (mk : value_parser) : Prop :=
  forall t v t', mk t = Ret (v, t') -> well_formed v = true.

(** The text that follows the first item of a comma-separated
    sequence, and the text that closes a List or an Object. *)
Fixpoint after_first (xs : list string) : string :=
  match xs with
  | [] => EmptyString
  | y :: rest => "," ++ y ++ after_first rest
  end.

Definition closing (tc : bool) (bracket : ascii) : string :=
  (if tc then "," else "") ++ String bracket EmptyString.

(** The text of a member of an Object. *)
Definition member_text (tc : bool) (m : string * doc) : string :=
  quoted (fst m) ++ ":" ++ render tc (snd m).

(** What the loops need of the text of one value: read in front of
    any text [rest], its first token starts a value, and the call made
    for that token returns the value and leaves the stream at [rest].
    For an element the text that follows starts with a character [d]
    that is not a number character. *)
Definition parses_as_value (tc : bool) (e : doc) : Prop :=
  forall F i rest c0,
    good i = true -> 2 * String.length (render tc e) <= F ->
    exists tok t1 c1,
      get_token (S F) (tokenizer_at i (render tc e ++ rest) c0) = Ret (tok, t1)
      /\ value_kind (type tok) = true
      /\ value_parser_of F tok t1 = Ret (value_of e, tokenizer_at i rest c1).

Definition parses_as_element (tc : bool) (e : doc) : Prop :=
  forall F i d rest c0,
    good i = true -> number_char d = false ->
    2 * String.length (render tc e) <= F ->
    exists tok t1 c1,
      get_token (S F) (tokenizer_at i (render tc e ++ String d rest) c0)
      = Ret (tok, t1)
      /\ value_kind (type tok) = true
      /\ value_parser_of F tok t1
         = Ret (value_of e, tokenizer_at i (String d rest) c1).

(** A member the Object loop can read: a key that is not empty and
    holds no double quote, and a value that can be read as an
    element. *)
Definition member_ok (tc : bool) (m : string * doc) : Prop :=
  str_empty (fst m) = false
  /\ all_chars not_dquote (fst m) = true
  /\ parses_as_element tc (snd m).

(** The tokens of the six punctuation characters. *)
Definition punctuation (d : ascii) : option TOKEN :=
  if Ascii.eqb d "{" then Some GRAFFA_APERTA
  else if Ascii.eqb d "}" then Some GRAFFA_CHIUSA
  else if Ascii.eqb d "[" then Some QUADRA_APERTA
  else if Ascii.eqb d "]" then Some QUADRA_CHIUSA
  else if Ascii.eqb d ":" then Some DUE_PUNTI
  else if Ascii.eqb d "," then Some VIRGOLA
  else None.

(** *** What the serializer writes

    The texts of a sequence one after the other. *)
Fixpoint join (xs : list string) : string :=
  match xs with
  | [] => EmptyString
  | x :: rest => x ++ join rest
  end.

(** The text [operator<<] writes for the value of a document: a
    blank after every bracket, brace and comma, a comma after every
    element and member, strings and keys bare, the members in the
    order the Object holds them. *)
Fixpoint written (d : doc) : string :=
  match d with
  | DNumber text _ => text
  | DBool x => if x then "true" else "false"
  | DNull => "null"
  | DString x => x
  | DList elems =>
    "[ " ++ join (map (fun e => written e ++ ", ") elems) ++ "] "
  | DObject members =>
    "{ " ++ join (rev (map (fun m => fst m ++ ":" ++ written (snd m) ++ ", ")
                           members))
         ++ "} "
  end.

(** The values whose text is read back: a Number written as a plain
    decimal that converts back to it, a Bool, a Null, and a List of
    such values, nested to any depth. *)
#[warnings="-register-all"]
Inductive printable : json -> Prop :=
| printable_number x :
    plain_decimal (print_double x) = true -> stod (print_double x) = Ret x ->
    printable (number_value x)
| printable_bool x : printable (bool_value x)
| printable_null : printable json_new
| printable_list elems : Forall printable elems -> printable (array_value elems).

(** What the List loop needs of the written text of an element: in
    front of a character [d] that is not a number character, its first
    token starts a value, and the call made for that token returns the
    value and leaves the stream at white space followed by [d]. *)
Definition reads_element (e : doc) : Prop :=
  forall F i d rest c0,
    good i = true -> skipws i = true -> number_char d = false ->
    2 * String.length (written e) <= F ->
    exists tok t1 c1 ws,
      get_token (S F) (tokenizer_at i (written e ++ String d rest) c0)
      = Ret (tok, t1)
      /\ value_kind (type tok) = true
      /\ all_chars isspace ws = true
      /\ value_parser_of F tok t1
         = Ret (value_of e, tokenizer_at i (ws ++ String d rest) c1).

(** The characters a token can start with. *)
Definition starts_token (c : ascii) : bool :=
  Ascii.eqb c dquote || Ascii.eqb c "{" || Ascii.eqb c "}"
  || Ascii.eqb c "-" || is_digit c
  || Ascii.eqb c "f" || Ascii.eqb c "t" || Ascii.eqb c "n"
  || Ascii.eqb c "[" || Ascii.eqb c "]" || Ascii.eqb c ":" || Ascii.eqb c ",".

(** *** Documents in a row

    The text of documents one after the other, each followed by its
    own white space, and the assignments [operator>>] makes for
    them. *)
Definition documents_text (tc : bool) (items : list (doc * string)) : string :=
  join (map (fun p => render tc (fst p) ++ snd p) items).

Fixpoint assign_all (rhs : json) (vs : list json) : outcome json :=
  match vs with
  | [] => Ret rhs
  | v :: rest => rhs' <- move_assign rhs v ;; assign_all rhs' rest
  end.

Definition spaced (p : doc * string) : Prop :=
  ok (fst p) /\ all_chars isspace (snd p) = true /\ str_empty (snd p) = false.

(** *** The loops of the serializer

    The two [for] loops of [operator<<] (lines 1245-1247 and
    1251-1253), named for the unfolding equation
    [operator_shl_unfold]. *)
Fixpoint shl_elements (it : list_iterator) : outcome string :=
  match it with
  | [] => Ret ""
  | v :: next =>
    sv <- operator_shl v ;;
    rest <- shl_elements next ;;
    Ret (sv ++ ", " ++ rest)
  end.

Fixpoint shl_members (it : dictionary_iterator) : outcome string :=
  match it with
  | [] => Ret ""
  | (k, v) :: next =>
    sv <- operator_shl v ;;
    rest <- shl_members next ;;
    Ret (k ++ ":" ++ sv ++ ", " ++ rest)
  end.

(** An outcome that is a result or undefined behaviour: nothing is
    thrown. *)
Definition never_throws {A : Type} (r : outcome A) : Prop :=
  (exists a, r = Ret a) \/ r = Undefined.

(** * Properties *)

(** ** More fuel never changes a settled outcome *)

Lemma extends_refl {A : Type} (r : outcome A) : extends r r.
Proof. intros _; reflexivity. Qed.

Lemma extends_timeout {A : Type} (r : outcome A) : extends Timeout r.
Proof. intros H; contradiction H; reflexivity. Qed.

Lemma extends_bind {A B : Type} (m m' : outcome A) (k k' : A -> outcome B) :
  extends m m' -> (forall a, extends (k a) (k' a)) ->
  extends (bind m k) (bind m' k').
Proof.
  intros Hm Hk H.
  destruct m as [a| e | |]; simpl in H |- *.
  - rewrite Hm by discriminate. simpl. apply Hk, H.
  - rewrite Hm by discriminate. reflexivity.
  - rewrite Hm by discriminate. reflexivity.
  - contradiction H; reflexivity.
Qed.

Create HintDb fuel.
#[local] Hint Resolve extends_refl extends_timeout : fuel.

Lemma bind_ret {A B : Type} (a : A) (k : A -> outcome B) :
  bind (Ret a) k = k a.
Proof. reflexivity. Qed.

Lemma getWithoutWhiteSpace_mono fuel : forall fuel' t,
  fuel <= fuel' ->
  extends (getWithoutWhiteSpace fuel t) (getWithoutWhiteSpace fuel' t).
Proof.
  induction fuel as [|f IH]; intros [|f'] t Hle; try lia; simpl;
    destruct (blank (curr_char t)); auto with fuel;
    destruct (read_curr t) as [t' [|]]; auto with fuel.
  apply IH; lia.
Qed.

Lemma string_while_in_mono heap fuel : forall fuel' st,
  fuel <= fuel' ->
  extends (string_while_in heap fuel st) (string_while_in heap fuel' st).
Proof.
  induction fuel as [|f IH]; intros [|f'] st Hle; try lia; simpl;
    destruct (string_cond (snd st)); auto with fuel.
  apply extends_bind; [apply extends_refl|].
  intros st'. apply IH; lia.
Qed.

Lemma string_while_mono fuel fuel' st :
  fuel <= fuel' ->
  extends (string_while fuel st) (string_while fuel' st).
Proof. apply string_while_in_mono. Qed.

Lemma number_while_mono fuel : forall fuel' st,
  fuel <= fuel' ->
  extends (number_while fuel st) (number_while fuel' st).
Proof.
  induction fuel as [|f IH]; intros [|f'] [v t] Hle; try lia; simpl;
    destruct (number_char (curr_char t)); auto with fuel.
  destruct (peek (is_ t)) as [i1 p1].
  destruct (peek i1) as [i2 p2].
  assert (Hrec : forall st, extends (number_while f st) (number_while f' st))
    by (intros st; apply IH; lia).
  destruct p2 as [c2|].
  - destruct c2 as [[] [] [] [] [] [] [] []];
      try (destruct (number_char (char_of_int p1)); apply Hrec).
    apply extends_refl.
  - destruct (number_char (char_of_int p1)); apply Hrec.
Qed.

Lemma get_token_in_mono heap fuel fuel' t :
  fuel <= fuel' ->
  extends (get_token_in heap fuel t) (get_token_in heap fuel' t).
Proof.
  intros Hle. unfold get_token_in.
  destruct (read_curr t) as [t1 [|]]; [|apply extends_refl].
  apply extends_bind.
  - destruct (blank (curr_char t1)); [|apply extends_refl].
    apply getWithoutWhiteSpace_mono, Hle.
  - intros t2.
    repeat match goal with
           | |- extends (if ?c then _ else _) _ =>
             destruct c; try apply extends_refl
           end.
    + apply extends_bind; [apply string_while_in_mono, Hle|].
      intros [v t3]; apply extends_refl.
    + apply extends_bind; [apply number_while_mono, Hle|].
      intros [v t3]; apply extends_refl.
Qed.

Lemma get_token_mono fuel fuel' t :
  fuel <= fuel' -> extends (get_token fuel t) (get_token fuel' t).
Proof. apply get_token_in_mono. Qed.

Lemma dictionary_value_mono (mk mk' : value_parser) tok st t :
  (forall t0, extends (mk t0) (mk' t0)) ->
  extends (dictionary_value mk tok st t) (dictionary_value mk' tok st t).
Proof.
  intros Hmk. unfold dictionary_value.
  repeat match goal with
         | |- extends (if ?c then _ else _) _ =>
           destruct c; try apply extends_refl
         end;
    (apply extends_bind; [apply Hmk | intros [v t1]; apply extends_refl]).
Qed.

Lemma list_value_mono (mk mk' : value_parser) st t :
  (forall t0, extends (mk t0) (mk' t0)) ->
  extends (list_value mk st t) (list_value mk' st t).
Proof.
  intros Hmk. unfold list_value.
  repeat match goal with
         | |- extends (if ?c then _ else _) _ =>
           destruct c; try apply extends_refl
         end;
    (apply extends_bind; [apply Hmk | intros [v t1]; apply extends_refl]).
Qed.

(** Unfolding equations of the parser. *)
Lemma get_json_dictionary_S f t :
  get_json_dictionary (S f) t =
  (j <- set_dictionary json_new ;;
   ' (tok, t) <- get_token f t ;;
   dictionary_while f {| dj := j; sinistra := ""; db := false;
                         dprimo := true; dvirgola := false |} tok t).
Proof. reflexivity. Qed.

Lemma get_json_list_S f t :
  get_json_list (S f) t =
  (j <- set_list json_new ;;
   ' (tok, t) <- get_token f t ;;
   list_while f {| lj := j; lprimo := true; lvirgola := false |} tok t).
Proof. reflexivity. Qed.

Lemma parser_mono fuel : forall fuel', fuel <= fuel' ->
  (forall t, extends (get_json_dictionary fuel t) (get_json_dictionary fuel' t))
  /\ (forall st tok t, extends (dictionary_while fuel st tok t)
                               (dictionary_while fuel' st tok t))
  /\ (forall t, extends (get_json_list fuel t) (get_json_list fuel' t))
  /\ (forall st tok t, extends (list_while fuel st tok t)
                               (list_while fuel' st tok t)).
Proof.
  induction fuel as [|f IH]; intros [|f'] Hle; try lia.
  - repeat split; intros; apply extends_refl.
  - repeat split; intros; try apply extends_timeout.
    + simpl. destruct (type tok); auto with fuel.
    + simpl. destruct (type tok); auto with fuel.
  - assert (Hf : f <= f') by lia.
    destruct (IH f' Hf) as (Hd & Hdw & Hl & Hlw).
    repeat split; intros.
    + rewrite !get_json_dictionary_S.
      apply extends_bind; [apply extends_refl|]. intros j.
      apply extends_bind; [apply get_token_mono, Hf|]. intros [tok t1].
      apply Hdw.
    + simpl. destruct (type tok); try apply extends_refl;
        (apply extends_bind;
         [ first [ apply extends_refl
                 | apply dictionary_value_mono; first [exact Hd | exact Hl]
                 | apply dictionary_value_mono; intros; apply extends_refl ]
         | intros [st1 t1];
           apply extends_bind; [apply get_token_mono, Hf|];
           intros [tok1 t2]; apply Hdw ]).
    + rewrite !get_json_list_S.
      apply extends_bind; [apply extends_refl|]. intros j.
      apply extends_bind; [apply get_token_mono, Hf|]. intros [tok t1].
      apply Hlw.
    + simpl. destruct (type tok); try apply extends_refl;
        (apply extends_bind;
         [ first [ apply extends_refl
                 | apply list_value_mono; first [exact Hd | exact Hl]
                 | apply list_value_mono; intros; apply extends_refl ]
         | intros [st1 t1];
           apply extends_bind; [apply get_token_mono, Hf|];
           intros [tok1 t2]; apply Hlw ]).
Qed.

Lemma operator_shr_while_S f t rhs :
  operator_shr_while (S f) t rhs = shr_body f t rhs.
Proof. reflexivity. Qed.

Lemma operator_shr_while_mono fuel : forall fuel' t rhs,
  fuel <= fuel' ->
  extends (operator_shr_while fuel t rhs) (operator_shr_while fuel' t rhs).
Proof.
  induction fuel as [|f IH]; intros [|f'] t rhs Hle; try lia;
    try apply extends_timeout.
  assert (Hf : f <= f') by lia.
  destruct (parser_mono f f' Hf) as (Hd & _ & Hl & _).
  change (operator_shr_while (S f) t rhs) with (shr_body f t rhs).
  change (operator_shr_while (S f') t rhs) with (shr_body f' t rhs).
  unfold shr_body.
  apply extends_bind; [apply get_token_mono, Hf|]. intros [tok t1].
  cbv beta iota.
  destruct (type tok); try apply extends_refl;
    (apply extends_bind;
     [ first [apply Hd | apply Hl | apply extends_refl]
     | intros a; try destruct a as [v t2];
       apply extends_bind; [apply extends_refl | intros; apply IH, Hf] ]).
Qed.

Lemma parse_mono fuel fuel' text :
  fuel <= fuel' -> extends (parse fuel text) (parse fuel' text).
Proof.
  intros Hle. unfold parse, operator_shr.
  apply extends_bind; [|intros; apply extends_refl].
  apply extends_bind; [|intros; apply extends_refl].
  apply operator_shr_while_mono, Hle.
Qed.

(** An outcome computed with some fuel is the outcome with any larger
    fuel. *)
Lemma parse_more fuel k text (r : outcome json) :
  parse fuel text = r -> r <> Timeout -> parse (fuel + k) text = r.
Proof.
  intros H Hr. rewrite <- H in Hr |- *.
  apply parse_mono; [lia | exact Hr].
Qed.

Lemma get_token_more fuel k t (r : outcome (Token * Tokenizer)) :
  get_token fuel t = r -> r <> Timeout -> get_token (fuel + k) t = r.
Proof.
  intros H Hr. rewrite <- H in Hr |- *.
  apply get_token_mono; [lia | exact Hr].
Qed.

(** ** The variant invariant and the setters *)

(** C1 (the code breaks the claim).  A setter deletes the payload it
    finds but leaves the pointer field as it was.  On a value that
    holds a Number, [set_null] therefore returns a value on which
    [is_null] is false and [is_number] still true; [set_string] returns
    a value on which both [is_number] and [is_string] are true; and a
    second setter call deletes the stale pointer again. *)
Theorem setter_leaves_stale_pointer (x : double) (str : string) :
  exists j1 j2,
    (j <- set_number x json_new ;; set_null j) = Ret j1
    /\ is_null j1 = false /\ is_number j1 = true
    /\ (j <- set_number x json_new ;; set_string str j) = Ret j2
    /\ is_number j2 = true /\ is_string j2 = true
    /\ set_null j1 = Undefined.
Proof.
  exists (Impl dangling nullptr nullptr nullptr nullptr).
  exists (Impl dangling nullptr (live str) nullptr nullptr).
  repeat split.
Qed.

(** On a fresh value every setter does establish its variant. *)
Lemma setter_on_fresh_value (x : double) (y : bool) (str : string) :
  set_number x json_new = Ret (Impl (live x) nullptr nullptr nullptr nullptr)
  /\ set_bool y json_new = Ret (Impl nullptr (live y) nullptr nullptr nullptr)
  /\ set_string str json_new = Ret (Impl nullptr nullptr (live str) nullptr nullptr)
  /\ set_null json_new = Ret json_new
  /\ set_list json_new = Ret (Impl nullptr nullptr nullptr (live []) nullptr)
  /\ set_dictionary json_new = Ret (Impl nullptr nullptr nullptr nullptr (live [])).
Proof. repeat split. Qed.

(** ** Iterators over a dictionary *)

(** C9, as it holds.  On a value whose dictionary is populated, the
    non-const [begin_dictionary] and [end_dictionary] test [is_list]:
    they throw a [json_exception] when it is false, which is the case
    of every Object whose list pointer is null, and return the
    iterators when it is true.  The const overloads test
    [is_dictionary] and return the iterators. *)
Theorem nonconst_dictionary_iterators_test_is_list
    (j : json) (members : list (string * json)) :
  dict j = live members ->
  (is_list j = false ->
   begin_dictionary j = Throw (json_exception "this is not a list")
   /\ end_dictionary j = Throw (json_exception "this is not a list"))
  /\ (is_list j = true ->
      begin_dictionary j = Ret members /\ end_dictionary j = Ret [])
  /\ begin_dictionary_const j = Ret members
  /\ end_dictionary_const j = Ret [].
Proof.
  intros Hd.
  unfold begin_dictionary, end_dictionary, begin_dictionary_const,
    end_dictionary_const, is_dictionary.
  rewrite Hd.
  split; [|split]; [intros -> | intros -> |]; repeat split.
Qed.

Lemma nonconst_dictionary_iterators_test_is_list_witness :
  let j := Impl nullptr nullptr nullptr nullptr (live [("a", json_new)]) in
  let j' := Impl nullptr nullptr nullptr dangling (live [("a", json_new)]) in
  (begin_dictionary j = Throw (json_exception "this is not a list")
   /\ end_dictionary j = Throw (json_exception "this is not a list"))
  /\ (begin_dictionary j' = Ret [("a", json_new)] /\ end_dictionary j' = Ret [])
  /\ begin_dictionary_const j = Ret [("a", json_new)]
  /\ end_dictionary_const j = Ret [].
Proof.
  intros j j'.
  destruct (nonconst_dictionary_iterators_test_is_list j [("a", json_new)]
              eq_refl) as (Hthrow & _ & Hbegin & Hend).
  destruct (nonconst_dictionary_iterators_test_is_list j' [("a", json_new)]
              eq_refl) as (_ & Hreturn & _ & _).
  split; [apply Hthrow; reflexivity|].
  split; [apply Hreturn; reflexivity|].
  split; [exact Hbegin | exact Hend].
Defined.

(** C9, as stated, fails.  A setter, like the assignment of a parsed
    value, deletes the payload it finds and leaves the pointer in
    place.  The Object made by [set_list] and then [set_dictionary],
    and the Object read from the text of an empty List followed by an
    empty Object, both have a stale list pointer: [is_dictionary] and
    [is_list] are both true of them, and the non-const
    [begin_dictionary] and [end_dictionary] return instead of
    throwing. *)
Lemma stale_list_pointer_passes_the_test :
  let made := Impl nullptr nullptr nullptr dangling (live []) in
  (j <- set_list json_new ;; set_dictionary j) = Ret made
  /\ parse 9 "[] {}" = Ret made
  /\ is_dictionary made = true
  /\ begin_dictionary made = Ret []
  /\ end_dictionary made = Ret []
  /\ ~ (exists e, begin_dictionary made = Throw e).
Proof.
  repeat split. intros [e H]. discriminate H.
Qed.

(** ** Keyed lookup *)

Lemma push_back_app {Val : Type} (v : Val) (xs : list Val) :
  list_.push_back v xs = (xs ++ [v])%list.
Proof. destruct xs; reflexivity. Qed.

Lemma find_member_first_match kiave : forall members base pos v,
  first_match kiave members pos v ->
  find_member kiave members base = Some (base + pos, v).
Proof.
  induction members as [|[k w] next IH]; intros base pos v [Hnth Hbefore].
  - destruct pos; discriminate.
  - destruct pos as [|pos]; simpl in *.
    + injection Hnth as -> ->. rewrite String.eqb_refl.
      rewrite Nat.add_0_r. reflexivity.
    + destruct (String.eqb_spec k kiave) as [Heq|Hne].
      * exfalso. apply (Hbefore 0 k w); [lia | reflexivity | exact Heq].
      * rewrite (IH (S base) pos v); [f_equal; f_equal; lia|].
        split; [exact Hnth|].
        intros i k0 w0 Hi Hn. apply (Hbefore (S i) k0 w0); [lia | exact Hn].
Qed.

Lemma find_member_absent kiave : forall members base,
  absent kiave members -> find_member kiave members base = None.
Proof.
  induction members as [|[k w] next IH]; intros base Habs; simpl.
  - reflexivity.
  - destruct (String.eqb_spec k kiave) as [Heq|Hne].
    + exfalso. apply (Habs k w); [left; reflexivity | exact Heq].
    + apply IH. intros k0 w0 Hin. apply (Habs k0 w0). right; exact Hin.
Qed.

(** C4.  On an Object holding [members]: when [kiave] first occurs at
    position [pos] with value [v], the mutable lookup leaves the object
    as it is and returns slot [pos], which holds [v], and the read-only
    lookup returns [v]; when no member has the key, the mutable lookup
    appends the member [(kiave, Null)] and returns that last slot, and
    the read-only lookup throws the not-found exception; on a value
    that is not a dictionary both throw the type-mismatch exception. *)
Theorem keyed_lookup (j : json) (members : list (string * json))
    (kiave : string) :
  (forall pos v,
      dict j = live members -> first_match kiave members pos v ->
      subscript kiave j = Ret (j, pos)
      /\ slot j pos = Some (kiave, v)
      /\ subscript_const kiave j = Ret v)
  /\ (dict j = live members -> absent kiave members ->
      let j' := set_dict_ptr (live (members ++ [(kiave, json_new)])%list) j in
      subscript kiave j = Ret (j', List.length members)
      /\ slot j' (List.length members) = Some (kiave, json_new)
      /\ is_null json_new = true
      /\ subscript_const kiave j
         = Throw (json_exception "non posso effettuare l'inserimento"))
  /\ (is_dictionary j = false ->
      subscript kiave j = Throw (json_exception "this is not a dictionary")
      /\ subscript_const kiave j
         = Throw (json_exception "this is not a dictionary")).
Proof.
  split; [|split].
  - intros pos v Hd Hfirst.
    pose proof (find_member_first_match kiave members 0 pos v Hfirst) as Hfind.
    unfold subscript, subscript_const, slot, is_dictionary, list_.begin.
    rewrite Hd. simpl. rewrite Hfind. simpl.
    repeat split. apply Hfirst.
  - intros Hd Habs j'.
    pose proof (find_member_absent kiave members 0 Habs) as Hfind.
    unfold subscript, subscript_const, is_dictionary, list_.begin.
    rewrite Hd. simpl. rewrite Hfind.
    rewrite push_back_app. unfold list_.back_val.
    rewrite rev_app_distr. simpl.
    rewrite length_app, Nat.add_1_r. simpl.
    repeat split.
    unfold slot, j'. simpl.
    rewrite nth_error_app2 by lia. rewrite Nat.sub_diag. reflexivity.
  - intros Hnot. unfold subscript, subscript_const. rewrite Hnot.
    split; reflexivity.
Qed.

Lemma keyed_lookup_witness :
  let members :=
    [("a", json_new);
     ("b", Impl nullptr (live true) nullptr nullptr nullptr);
     ("b", json_new)] in
  let j := Impl nullptr nullptr nullptr nullptr (live members) in
  (subscript "b" j = Ret (j, 1)
   /\ slot j 1 = Some ("b", Impl nullptr (live true) nullptr nullptr nullptr)
   /\ subscript_const "b" j
      = Ret (Impl nullptr (live true) nullptr nullptr nullptr))
  /\ (subscript "z" j
      = Ret (Impl nullptr nullptr nullptr nullptr
               (live (members ++ [("z", json_new)])%list), 3)
      /\ subscript_const "z" j
         = Throw (json_exception "non posso effettuare l'inserimento"))
  /\ (subscript "a" json_new = Throw (json_exception "this is not a dictionary")
      /\ subscript_const "a" json_new
         = Throw (json_exception "this is not a dictionary")).
Proof.
  intros members j.
  destruct (keyed_lookup j members "b") as (Hpresent & _ & _).
  destruct (keyed_lookup j members "z") as (_ & Habsent & _).
  destruct (keyed_lookup json_new [] "a") as (_ & _ & Hother).
  split; [|split].
  - apply Hpresent; [reflexivity|].
    split; [reflexivity|].
    intros [|[|i]] k w Hi Hn; simpl in Hn; try lia.
    injection Hn as <- _. discriminate.
  - assert (Hz : absent "z" members).
    { intros k w [H|[H|[H|[]]]]; injection H as <- _; discriminate. }
    destruct (Habsent eq_refl Hz) as (H1 & _ & _ & H2).
    split; [exact H1 | exact H2].
  - apply Hother. reflexivity.
Defined.

(** ** Numbers that do not convert *)

(** C6 (the code breaks the claim).  For the token whose text is the
    single character '-', [get_json_number] lets the
    [std::invalid_argument] of [std::stod] escape, and so does the
    parse of that document; whatever the token, an exception leaving
    [get_json_number] is never a [json_exception]. *)
Theorem number_failure_is_not_json_exception :
  get_json_number (token NUMBER "-") = Throw (std_invalid_argument "stod")
  /\ (forall k, parse (2 + k) "-" = Throw (std_invalid_argument "stod"))
  /\ (forall tok,
         match get_json_number tok with
         | Throw e => is_json_exception e = false
         | _ => True
         end).
Proof.
  split; [reflexivity|]. split.
  - intros k. apply parse_more; [reflexivity | discriminate].
  - intros tok. unfold get_json_number, stod.
    destruct (strtod_decimal (value tok)) as [[[neg m] k]|];
      [|reflexivity].
    destruct (range_error _ m k); reflexivity.
Qed.

(** ** Insertion order of object members *)

Lemma insert_all_reverses : forall xs pn pb ps pl members,
  Forall (fun x => copy (snd x) = Ret (snd x)) xs ->
  insert_all xs (Impl pn pb ps pl (live members))
  = Ret (Impl pn pb ps pl (live (rev xs ++ members)%list)).
Proof.
  induction xs as [|[k v] rest IH]; intros pn pb ps pl members Hall.
  - reflexivity.
  - inversion Hall as [|x xs' Hcopy Hrest]; subst. simpl in Hcopy.
    simpl. unfold insert at 1. simpl. rewrite Hcopy. simpl.
    assert (Hfront : list_.push_front (k, v) members = (k, v) :: members)
      by (destruct members; reflexivity).
    unfold set_dict_ptr. simpl. rewrite Hfront.
    rewrite IH by exact Hrest.
    rewrite <- app_assoc. reflexivity.
Qed.

(** C2.  [insert] puts the (copied) member in front of the members
    already held, so that members inserted one after the other end up
    in reverse order; and the document [{"a":1,"b":2}] parses to the
    Object whose members, in iteration order, are ("b", 2.0) and
    ("a", 1.0). *)
Theorem insert_prepends_member :
  (forall pn pb ps pl members k v,
      insert (k, v) (Impl pn pb ps pl (live members))
      = (v' <- copy v ;; Ret (Impl pn pb ps pl (live ((k, v') :: members)))))
  /\ (forall xs members,
         Forall (fun x => copy (snd x) = Ret (snd x)) xs ->
         insert_all xs (object_value members)
         = Ret (object_value (rev xs ++ members)%list))
  /\ (forall k,
         parse (9 + k) ("{" ++ quoted "a" ++ ":1," ++ quoted "b" ++ ":2}")
         = Ret (object_value [("b", number_value double_two);
                              ("a", number_value double_one)]))
  /\ begin_dictionary_const
       (object_value [("b", number_value double_two);
                      ("a", number_value double_one)])
     = Ret [("b", number_value double_two); ("a", number_value double_one)].
Proof.
  split; [|split; [|split]].
  - intros pn pb ps pl members k v. unfold insert. simpl.
    destruct (copy v); simpl; try reflexivity.
    destruct members; reflexivity.
  - intros xs members Hall. apply insert_all_reverses, Hall.
  - intros k. apply parse_more; [vm_compute; reflexivity | discriminate].
  - reflexivity.
Qed.

Lemma insert_prepends_member_witness :
  insert_all [("a", number_value double_one); ("b", number_value double_two)]
             (object_value [])
  = Ret (object_value [("b", number_value double_two);
                       ("a", number_value double_one)]).
Proof.
  destruct insert_prepends_member as (_ & Hall & _).
  apply (Hall [("a", number_value double_one); ("b", number_value double_two)] []).
  repeat constructor.
Defined.

(** ** Grammar violations *)

(** C7.  The documents [{"a" 1}], [[1,,2]] and [[1 2]] make
    [operator>>] throw a [json_exception], whatever the target held:
    no value is produced. *)
Theorem malformed_documents_throw (k : nat) (rhs : json) :
  operator_shr (4 + k) (istringstream ("{" ++ quoted "a" ++ " 1}")) rhs
  = Throw (json_exception "due punti mancanti")
  /\ operator_shr (5 + k) (istringstream "[1,,2]") rhs
     = Throw (json_exception "hai ricevuto una virgola non necessaria")
  /\ operator_shr (4 + k) (istringstream "[1 2]") rhs
     = Throw (json_exception "problema virgola").
Proof.
  assert (Hmore : forall fuel text (r : outcome (istream * json)),
             operator_shr fuel (istringstream text) rhs = r ->
             r <> Timeout ->
             operator_shr (fuel + k) (istringstream text) rhs = r).
  { intros fuel text r H Hr. rewrite <- H in Hr |- *.
    unfold operator_shr in Hr |- *.
    apply extends_bind;
      [apply operator_shr_while_mono; lia | intros; apply extends_refl | exact Hr]. }
  repeat split; apply Hmore; try discriminate; reflexivity.
Qed.

(** ** What the tokenizer skips *)

Lemma skip_space_app ws r :
  all_chars isspace ws = true -> skip_space (ws ++ r) = skip_space r.
Proof.
  induction ws as [|c ws IH]; simpl; intros H; [reflexivity|].
  apply andb_prop in H as [Hc Hws]. rewrite Hc. apply IH, Hws.
Qed.

(** With [skipws] set, white space in front of a token is invisible. *)
Lemma get_token_in_skips_space heap fuel i ws r c0 :
  good i = true -> skipws i = true -> all_chars isspace ws = true ->
  get_token_in heap fuel (tokenizer_at i (ws ++ r) c0)
  = get_token_in heap fuel (tokenizer_at i r c0).
Proof.
  intros Hgood Hskip Hws.
  unfold get_token_in, read_curr, extract, tokenizer_at. simpl.
  change (good (set_buf (ws ++ r) i)) with (good i).
  change (good (set_buf r i)) with (good i).
  rewrite Hgood, Hskip, (skip_space_app ws r Hws).
  reflexivity.
Qed.

Lemma get_token_skips_space fuel i ws r c0 :
  good i = true -> skipws i = true -> all_chars isspace ws = true ->
  get_token fuel (tokenizer_at i (ws ++ r) c0)
  = get_token fuel (tokenizer_at i r c0).
Proof. apply get_token_in_skips_space. Qed.

(** Reading a character that is not skipped from a good stream. *)
Lemma read_curr_char i c r c0 :
  good i = true -> (skipws i = true -> isspace c = false) ->
  read_curr (tokenizer_at i (String c r) c0) = (tokenizer_at i r c, true).
Proof.
  intros Hgood Hc. unfold read_curr, extract, tokenizer_at. simpl.
  change (good (set_buf (String c r) i)) with (good i). rewrite Hgood. simpl.
  destruct (skipws i); [simpl; rewrite (Hc eq_refl)|]; reflexivity.
Qed.

Lemma get_curr_char i c r c0 :
  good i = true ->
  get_curr (tokenizer_at i (String c r) c0) = tokenizer_at i r c.
Proof.
  intros Hgood. unfold get_curr, get, tokenizer_at. simpl.
  change (good (set_buf (String c r) i)) with (good i). rewrite Hgood.
  reflexivity.
Qed.

Lemma getWithoutWhiteSpace_S f t :
  getWithoutWhiteSpace (S f) t =
  if blank (curr_char t) then
    match read_curr t with
    | (t', true) => getWithoutWhiteSpace f t'
    | (t', false) => Ret t'
    end
  else Ret t.
Proof. reflexivity. Qed.

Lemma getWithoutWhiteSpace_run i : forall ws fuel w c r,
  skipws i = false -> good i = true ->
  blank w = true -> all_chars blank ws = true -> blank c = false ->
  String.length ws < fuel ->
  getWithoutWhiteSpace fuel (tokenizer_at i (ws ++ String c r) w)
  = Ret (tokenizer_at i r c).
Proof.
  assert (Hno : forall x, skipws i = false -> skipws i = true -> isspace x = false)
    by (intros x H1 H2; rewrite H1 in H2; discriminate).
  induction ws as [|x ws IH]; intros fuel w c r Hskip Hgood Hw Hws Hc Hlen;
    (destruct fuel as [|f]; [simpl in Hlen; lia|]);
    rewrite getWithoutWhiteSpace_S;
    change (curr_char (tokenizer_at i _ w)) with w; rewrite Hw.
  - change (EmptyString ++ String c r) with (String c r).
    rewrite (read_curr_char i c r w Hgood (Hno c Hskip)).
    destruct f; simpl; rewrite Hc; reflexivity.
  - simpl in Hws. apply andb_prop in Hws as [Hx Hws].
    change (String x ws ++ String c r) with (String x (ws ++ String c r)).
    rewrite (read_curr_char i x _ w Hgood (Hno x Hskip)).
    apply (IH f x c r Hskip Hgood Hx Hws Hc). simpl in Hlen. lia.
Qed.

Lemma get_token_in_unfold heap fuel t :
  get_token_in heap fuel t =
  match read_curr t with
  | (t, false) => Ret (token FINE_INPUT "", t)
  | (t, true) => get_token_after_in heap fuel t
  end.
Proof. reflexivity. Qed.

Lemma get_token_unfold fuel t :
  get_token fuel t =
  match read_curr t with
  | (t, false) => Ret (token FINE_INPUT "", t)
  | (t, true) => get_token_after fuel t
  end.
Proof. reflexivity. Qed.

(** With [skipws] cleared, the loop of the tokenizer skips a run of
    spaces and newlines in front of a token. *)
Lemma get_token_in_skips_blank heap fuel i ws c r c0 :
  skipws i = false -> good i = true ->
  all_chars blank ws = true -> blank c = false ->
  String.length ws <= fuel ->
  get_token_in heap fuel (tokenizer_at i (ws ++ String c r) c0)
  = get_token_in heap fuel (tokenizer_at i (String c r) c0).
Proof.
  intros Hskip Hgood Hws Hc Hlen.
  assert (Hno : forall x, skipws i = true -> isspace x = false)
    by (intros x H; rewrite Hskip in H; discriminate).
  destruct ws as [|w ws]; [reflexivity|].
  simpl in Hws. apply andb_prop in Hws as [Hw Hws].
  rewrite !get_token_in_unfold.
  change ((String w ws ++ String c r)) with (String w (ws ++ String c r)).
  rewrite (read_curr_char i w _ c0 Hgood (Hno w)).
  rewrite (read_curr_char i c r c0 Hgood (Hno c)).
  unfold get_token_after_in at 1.
  change (curr_char (tokenizer_at i (ws ++ String c r) w)) with w.
  rewrite Hw.
  rewrite (getWithoutWhiteSpace_run i ws fuel w c r Hskip Hgood Hw Hws Hc)
    by (simpl in Hlen; lia).
  unfold get_token_after_in.
  change (curr_char (tokenizer_at i r c)) with c. rewrite Hc. reflexivity.
Qed.

Lemma get_token_skips_blank fuel i ws c r c0 :
  skipws i = false -> good i = true ->
  all_chars blank ws = true -> blank c = false ->
  String.length ws <= fuel ->
  get_token fuel (tokenizer_at i (ws ++ String c r) c0)
  = get_token fuel (tokenizer_at i (String c r) c0).
Proof. apply get_token_in_skips_blank. Qed.

(** A skippable prefix in front of a character the tokenizer does not
    skip. *)
Lemma get_token_in_skips heap fuel i ws c r c0 :
  good i = true -> skippable i fuel ws -> isspace c = false ->
  get_token_in heap fuel (tokenizer_at i (ws ++ String c r) c0)
  = get_token_in heap fuel (tokenizer_at i (String c r) c0).
Proof.
  intros Hgood Hws Hc. unfold skippable in Hws.
  destruct (skipws i) eqn:Hskip.
  - apply get_token_in_skips_space; assumption.
  - destruct Hws as [Hws Hlen].
    apply get_token_in_skips_blank; try assumption.
    destruct c as [[] [] [] [] [] [] [] []]; try reflexivity; discriminate.
Qed.

Lemma get_token_skips fuel i ws c r c0 :
  good i = true -> skippable i fuel ws -> isspace c = false ->
  get_token fuel (tokenizer_at i (ws ++ String c r) c0)
  = get_token fuel (tokenizer_at i (String c r) c0).
Proof. apply get_token_in_skips. Qed.

(** ** The null literal *)

Lemma good_bits i : good i = true -> eofbit i = false /\ failbit i = false.
Proof.
  unfold good. destruct (eofbit i), (failbit i); simpl; intros H;
    try discriminate; split; reflexivity.
Qed.

Lemma seekg_three i c1 c2 c3 rest :
  good i = true ->
  seekg_cur 3 (set_buf (String c1 (String c2 (String c3 rest))) i)
  = set_buf rest i.
Proof.
  intros Hgood. destruct (good_bits i Hgood) as [He Hf].
  destruct i as [r e f sk]; simpl in He, Hf; subst e f. reflexivity.
Qed.

Lemma n_not_space : isspace "n" = false.
Proof. reflexivity. Qed.

(** C8.  When the next character that is not skipped is 'n',
    [get_token] returns a NULLO token whatever follows; when at least
    three characters follow, they are skipped without being looked at,
    and the next token starts after them.  So the document [nxyz]
    parses to Null. *)
Theorem null_literal_is_not_checked
    (fuel : nat) (i : istream) (ws : string) (c0 : ascii) :
  good i = true -> skippable i fuel ws ->
  (forall tail,
      get_token fuel (tokenizer_at i (ws ++ String "n" tail) c0)
      = Ret (token NULLO "",
             {| is_ := seekg_cur 3 (set_buf tail i); curr_char := "n" |}))
  /\ (forall c1 c2 c3 rest,
         get_token fuel
           (tokenizer_at i
              (ws ++ String "n" (String c1 (String c2 (String c3 rest)))) c0)
         = Ret (token NULLO "", tokenizer_at i rest "n"))
  /\ (forall k, parse (2 + k) "nxyz" = Ret json_new)
  /\ is_null json_new = true.
Proof.
  intros Hgood Hws.
  assert (Htail : forall tail,
             get_token fuel (tokenizer_at i (ws ++ String "n" tail) c0)
             = Ret (token NULLO "",
                    {| is_ := seekg_cur 3 (set_buf tail i); curr_char := "n" |})).
  { intros tail.
    rewrite (get_token_skips fuel i ws "n" tail c0 Hgood Hws n_not_space).
    rewrite get_token_unfold.
    rewrite (read_curr_char i "n" tail c0 Hgood (fun _ => n_not_space)).
    reflexivity. }
  split; [exact Htail|]. split; [|split].
  - intros c1 c2 c3 rest. rewrite Htail.
    rewrite (seekg_three i c1 c2 c3 rest Hgood). reflexivity.
  - intros k. apply parse_more; [reflexivity | discriminate].
  - reflexivity.
Qed.

Lemma null_literal_is_not_checked_witness :
  get_token 0 (tokenizer_at (istringstream "") " nxyz]" " ")
  = Ret (token NULLO "", tokenizer_at (istringstream "") "]" "n").
Proof.
  destruct (null_literal_is_not_checked 0 (istringstream "") " " " ")
    as (_ & H & _); [reflexivity | reflexivity |].
  apply (H "x"%char "y"%char "z"%char "]").
Defined.

(** ** White space between tokens *)

(** C5, as it holds.  On a stream with [skipws] set, white space in
    front of a token, a tab or a carriage return included, is skipped
    by the formatted read that opens [get_token].  On a stream with
    [skipws] cleared, only a run of spaces and newlines is skipped, and
    a tab or a carriage return after it makes [get_token] throw a
    [json_exception]. *)
Theorem whitespace_between_tokens
    (fuel : nat) (i : istream) (ws rest : string) (c c0 : ascii) :
  good i = true -> c = "009"%char \/ c = "013"%char ->
  (skipws i = true -> all_chars isspace ws = true ->
   get_token fuel (tokenizer_at i (ws ++ String c rest) c0)
   = get_token fuel (tokenizer_at i rest c0))
  /\ (skipws i = false -> all_chars blank ws = true ->
      String.length ws <= fuel ->
      exists msg,
        get_token fuel (tokenizer_at i (ws ++ String c rest) c0)
        = Throw (json_exception msg)).
Proof.
  intros Hgood Hc. split.
  - intros Hskip Hws.
    rewrite (get_token_skips_space fuel i ws _ c0 Hgood Hskip Hws).
    apply (get_token_skips_space fuel i (String c EmptyString) rest c0 Hgood Hskip).
    destruct Hc as [-> | ->]; reflexivity.
  - intros Hskip Hws Hlen.
    assert (Hblank : blank c = false) by (destruct Hc as [-> | ->]; reflexivity).
    rewrite (get_token_skips_blank fuel i ws c rest c0 Hskip Hgood Hws Hblank Hlen).
    rewrite get_token_unfold.
    rewrite (read_curr_char i c rest c0 Hgood)
      by (intros H; rewrite Hskip in H; discriminate).
    destruct Hc as [-> | ->]; eexists; reflexivity.
Qed.

Lemma whitespace_between_tokens_witness :
  (get_token 0 (tokenizer_at (istringstream "") (String "009" "]") "[")
   = get_token 0 (tokenizer_at (istringstream "") "]" "["))
  /\ (exists msg,
         get_token 1 (tokenizer_at (noskipws (istringstream ""))
                                   (String " " (String "009" "]")) "[")
         = Throw (json_exception msg)).
Proof.
  split.
  - apply (whitespace_between_tokens 0 (istringstream "") "" "]" "009" "[");
      [reflexivity | left; reflexivity | reflexivity | reflexivity].
  - apply (whitespace_between_tokens 1 (noskipws (istringstream "")) " " "]"
             "009" "[");
      [reflexivity | left; reflexivity | reflexivity | reflexivity | simpl; lia].
Defined.

(** C5, as stated, fails: on a stream as it is opened, the tab between
    the two tokens of the text "[", tab, "]" is skipped, and the second
    [get_token] returns the closing bracket instead of throwing. *)
Lemma tab_between_tokens_is_skipped :
  let t0 := Tokenizer_new (istringstream (String "[" (String "009" "]"))) in
  let t1 := tokenizer_at (istringstream "") (String "009" "]") "[" in
  let t2 := tokenizer_at (istringstream "") "" "]" in
  get_token 0 t0 = Ret (token QUADRA_APERTA "", t1)
  /\ get_token 0 t1 = Ret (token QUADRA_CHIUSA "", t2)
  /\ ~ (exists msg, get_token 0 t1 = Throw (json_exception msg)).
Proof.
  repeat split. intros [msg H]. discriminate H.
Qed.

(** ** The string loop *)

Lemma string_body_keeps_no_dquote st :
  no_dquote_ahead (snd st) -> no_dquote_ahead (snd (string_body st)).
Proof.
  destruct st as [v [i c]]. unfold no_dquote_ahead, string_body. simpl.
  intros [Hc Hbuf]. unfold get_curr, get. simpl.
  destruct (good i); simpl.
  - destruct (buf i) as [|x r] eqn:Hr; simpl.
    + rewrite Hr. split; assumption.
    + simpl in Hbuf. apply andb_prop in Hbuf as [Hx Hr']. split; assumption.
  - split; assumption.
Qed.

Lemma string_body_iter_no_dquote n : forall st,
  no_dquote_ahead (snd st) -> no_dquote_ahead (snd (Nat.iter n string_body st)).
Proof.
  induction n as [|n IH]; intros st H; simpl.
  - exact H.
  - apply string_body_keeps_no_dquote, IH, H.
Qed.

Lemma string_while_in_S heap f st :
  string_while_in heap (S f) st
  = if string_cond (snd st)
    then st' <- string_turn heap st ;; string_while_in heap f st'
    else Ret st.
Proof. reflexivity. Qed.

Lemma string_body_grows st :
  String.length (fst (string_body st)) = S (String.length (fst st)).
Proof.
  unfold string_body. cbn [fst].
  induction (fst st) as [|x v IH]; simpl; [|rewrite IH]; reflexivity.
Qed.

Lemma string_body_iter_grows n : forall st,
  String.length (fst (Nat.iter n string_body st)) = n + String.length (fst st).
Proof.
  induction n as [|n IH]; intros st; [reflexivity|].
  change (Nat.iter (S n) string_body st)
    with (string_body (Nat.iter n string_body st)).
  rewrite string_body_grows, IH. reflexivity.
Qed.

(** With an allocator that never refuses, the loop has no outcome. *)
Lemma string_while_never_returns fuel : forall st,
  no_dquote_ahead (snd st) -> string_while fuel st = Timeout.
Proof.
  unfold string_while.
  induction fuel as [|f IH]; intros st H; simpl;
    unfold string_cond; pose proof H as [Hc Hbuf];
    unfold not_dquote in Hc; rewrite Hc.
  - reflexivity.
  - apply IH, string_body_keeps_no_dquote, H.
Qed.

(** With the limit [limit], the append of the turn that finds [limit]
    characters in the text is refused. *)
Lemma string_while_in_exhausts limit fuel : forall st,
  no_dquote_ahead (snd st) -> String.length (fst st) <= limit ->
  string_while_in (Some limit) fuel st
  = if Nat.leb (fuel + String.length (fst st)) limit
    then Timeout else Throw std_bad_alloc.
Proof.
  induction fuel as [|f IH]; intros st H Hlen;
    pose proof H as [Hc Hbuf]; unfold not_dquote in Hc.
  - simpl. unfold string_cond. rewrite Hc.
    destruct (Nat.leb_spec (String.length (fst st)) limit); [reflexivity | lia].
  - rewrite string_while_in_S. unfold string_cond. rewrite Hc.
    unfold string_turn, allocate.
    destruct (Nat.leb_spec limit (String.length (fst st))) as [Hfull|Hroom].
    + destruct (Nat.leb_spec (S f + String.length (fst st)) limit);
        [lia | reflexivity].
    + rewrite !bind_ret.
      rewrite (IH (string_body st) (string_body_keeps_no_dquote st H))
        by (rewrite string_body_grows; lia).
      rewrite string_body_grows.
      replace (f + S (String.length (fst st)))
        with (S f + String.length (fst st)) by lia.
      reflexivity.
Qed.

Lemma dquote_not_space : isspace dquote = false.
Proof. reflexivity. Qed.

Lemma get_token_after_in_dquote heap fuel t :
  curr_char t = dquote ->
  get_token_after_in heap fuel t
  = (' (v, t') <- string_while_in heap fuel (EmptyString, get_curr t) ;;
     Ret (token STRING v, t')).
Proof.
  intros H. unfold get_token_after_in. rewrite H.
  change (blank dquote) with false. cbv beta iota.
  unfold bind at 1. cbv beta iota. rewrite H. reflexivity.
Qed.

Lemma get_token_after_dquote fuel t :
  curr_char t = dquote ->
  get_token_after fuel t
  = (' (v, t') <- string_while fuel (EmptyString, get_curr t) ;;
     Ret (token STRING v, t')).
Proof. apply get_token_after_in_dquote. Qed.




(** ** Serializing and parsing back *)

Lemma number_while_S f v t :
  number_while (S f) (v, t) =
  if number_char (curr_char t) then
    let '(i1, p1) := peek (is_ t) in
    let c := char_of_int p1 in
    let '(i2, p2) := peek i1 in
    match p2 with
    | Some "000"%char => Ret (v, {| is_ := i2; curr_char := c |})
    | _ =>
      if number_char c then
        number_while f (v ++ String c EmptyString,
                        get_curr {| is_ := i2; curr_char := c |})
      else number_while f (v, {| is_ := i2; curr_char := c |})
    end
  else Ret (v, t).
Proof. reflexivity. Qed.

Lemma number_char_not_nul (x : ascii) {A : Type} (a1 a2 : A) :
  number_char x = true ->
  match Some x with
  | Some "000"%char => a1
  | _ => a2
  end = a2.
Proof.
  destruct x as [[] [] [] [] [] [] [] []]; intros H;
    try discriminate H; reflexivity.
Qed.

Lemma peek_char i x r :
  good i = true ->
  peek (set_buf (String x r) i) = (set_buf (String x r) i, Some x).
Proof.
  intros Hgood. unfold peek.
  change (good (set_buf (String x r) i)) with (good i). rewrite Hgood.
  reflexivity.
Qed.

Lemma append_char v x r : (v ++ String x EmptyString) ++ r = v ++ String x r.
Proof. induction v as [|c v IH]; simpl; [|rewrite IH]; reflexivity. Qed.

Lemma append_empty v : v ++ EmptyString = v.
Proof. induction v as [|c v IH]; simpl; [|rewrite IH]; reflexivity. Qed.

(** The number loop on a run of number characters that ends the
    stream: it takes the whole run; the two [peek]s at the end set
    [eofbit] and then [failbit]. *)
Lemma number_while_run i : forall r fuel v c,
  good i = true -> number_char c = true ->
  all_chars number_char r = true -> String.length r < fuel ->
  number_while fuel (v, tokenizer_at i r c)
  = Ret (v ++ r,
         {| is_ := set_failbit (set_eofbit (set_buf EmptyString i));
            curr_char := "255" |}).
Proof.
  induction r as [|x r IH]; intros fuel v c Hgood Hc Hr Hlen;
    (destruct fuel as [|f]; [simpl in Hlen; lia|]);
    rewrite number_while_S;
    change (curr_char (tokenizer_at i _ c)) with c; rewrite Hc.
  - unfold tokenizer_at, peek. simpl.
    change (good (set_buf EmptyString i)) with (good i). rewrite Hgood. simpl.
    destruct (good_bits i Hgood) as [He Hf].
    unfold good. simpl. rewrite append_empty.
    destruct f; reflexivity.
  - simpl in Hr. apply andb_prop in Hr as [Hx Hr].
    change (is_ (tokenizer_at i (String x r) c)) with (set_buf (String x r) i).
    rewrite (peek_char i x r Hgood). cbv beta iota zeta.
    rewrite (peek_char i x r Hgood). cbv beta iota zeta.
    rewrite (number_char_not_nul x _ _ Hx).
    change (char_of_int (Some x)) with x. rewrite Hx.
    change {| is_ := set_buf (String x r) i; curr_char := x |}
      with (tokenizer_at i (String x r) x).
    rewrite (get_curr_char i x r x Hgood).
    rewrite (IH f (v ++ String x EmptyString) x Hgood Hx Hr)
      by (simpl in Hlen; lia).
    rewrite append_char. reflexivity.
Qed.

Lemma get_token_after_number fuel i r c :
  (Ascii.eqb c "-" || is_digit c) = true ->
  get_token_after fuel (tokenizer_at i r c)
  = (' (v, t') <- number_while fuel (String c EmptyString, tokenizer_at i r c) ;;
     Ret (token NUMBER v, t')).
Proof.
  destruct c as [[] [] [] [] [] [] [] []]; intros H;
    try discriminate H; reflexivity.
Qed.

Lemma sign_or_digit_facts c :
  (Ascii.eqb c "-" || is_digit c) = true ->
  isspace c = false /\ number_char c = true.
Proof.
  destruct c as [[] [] [] [] [] [] [] []]; intros H;
    try discriminate H; split; reflexivity.
Qed.

(** A plain decimal text that converts to [x] parses to the Number
    [x]. *)
Lemma parse_plain_decimal text x :
  plain_decimal text = true -> stod text = Ret x ->
  parse (2 + String.length text) text = Ret (number_value x).
Proof.
  destruct text as [|c r]; [discriminate|].
  unfold plain_decimal. intros Hplain Hstod.
  apply andb_prop in Hplain as [Hc Hr].
  destruct (sign_or_digit_facts c Hc) as [Hsp Hnum].
  unfold parse, operator_shr.
  change (Tokenizer_new (istringstream (String c r)))
    with (tokenizer_at (istringstream "") (String c r) " ").
  change (2 + String.length (String c r)) with (S (S (S (String.length r)))).
  rewrite operator_shr_while_S. unfold shr_body.
  rewrite get_token_unfold.
  rewrite (read_curr_char (istringstream "") c r " " eq_refl (fun _ => Hsp)).
  rewrite (get_token_after_number _ _ r c Hc).
  rewrite (number_while_run (istringstream "") r _ (String c EmptyString) c
             eq_refl Hnum Hr) by lia.
  change (String c EmptyString ++ r) with (String c r).
  rewrite bind_ret. cbv beta iota.
  rewrite bind_ret. cbv beta iota.
  change (type (token NUMBER (String c r))) with NUMBER. cbv beta iota.
  unfold get_json_number.
  change (value (token NUMBER (String c r))) with (String c r).
  rewrite Hstod. reflexivity.
Qed.

(** Two settled outcomes of the same parse agree. *)
Lemma parse_agree f1 f2 text (r1 r2 : outcome json) :
  parse f1 text = r1 -> parse f2 text = r2 ->
  r1 <> Timeout -> r2 <> Timeout -> r1 = r2.
Proof.
  intros H1 H2 Hr1 Hr2.
  rewrite <- (parse_more f1 f2 text r1 H1 Hr1).
  rewrite <- (parse_more f2 f1 text r2 H2 Hr2).
  rewrite Nat.add_comm. reflexivity.
Qed.

(** C3, as it holds.  A Bool and a Null are read back as themselves.
    A Number is read back as itself when its rendering with six
    significant digits is a plain decimal that converts to the same
    double.  A String is written as its bare text, without quotes. *)
Theorem literal_round_trip :
  (forall x : bool, round_trips (bool_value x))
  /\ round_trips json_new
  /\ (forall x : double,
         plain_decimal (print_double x) = true ->
         stod (print_double x) = Ret x ->
         round_trips (number_value x))
  /\ (forall str : string, operator_shl (string_value str) = Ret str).
Proof.
  split; [|split; [|split]].
  - intros [|]; eexists; (split; [reflexivity|]); exists 2; reflexivity.
  - eexists; (split; [reflexivity|]); exists 2; reflexivity.
  - intros x Hplain Hstod. exists (print_double x). split; [reflexivity|].
    exists (2 + String.length (print_double x)).
    apply parse_plain_decimal; assumption.
  - reflexivity.
Qed.

Lemma literal_round_trip_witness : round_trips (number_value double_one).
Proof.
  destruct literal_round_trip as (_ & _ & Hnumber & _).
  apply Hnumber; reflexivity.
Defined.

(** C3, as stated, fails.  The String "1" is written as the text 1,
    which parses to the Number 1.0; the Number 0.1234567 is written as
    0.123457 and parses to that other Number. *)
Lemma string_leaf_is_not_read_back :
  operator_shl (string_value "1") = Ret "1"
  /\ parse 2 "1" = Ret (number_value double_one)
  /\ ~ round_trips (string_value "1")
  /\ print_double (decimal_to_double false 1234567 7) = "0.123457"
  /\ ~ round_trips (number_value (decimal_to_double false 1234567 7)).
Proof.
  split; [reflexivity|]. split; [reflexivity|]. split; [|split].
  - intros (text & Hshl & fuel & Hparse).
    injection Hshl as <-.
    assert (H : Ret (string_value "1") = Ret (number_value double_one)).
    { apply (parse_agree fuel 2 "1"); [exact Hparse | reflexivity | |];
        discriminate. }
    discriminate H.
  - vm_compute. reflexivity.
  - intros (text & Hshl & fuel & Hparse).
    assert (Htext : text = "0.123457").
    { vm_compute in Hshl. injection Hshl as <-. reflexivity. }
    subst text.
    assert (H : Ret (number_value (decimal_to_double false 1234567 7))
                = Ret (number_value (decimal_to_double false 123457 6))).
    { apply (parse_agree fuel 10 "0.123457");
        [exact Hparse | vm_compute; reflexivity | |]; discriminate. }
    vm_compute in H. discriminate H.
Qed.

(** * Further properties of the value *)

(** ** Induction on values *)

Lemma json_nested_ind (P : json -> Prop) :
  (forall pn pb ps pl pd,
      match pl with
      | live elems => Forall P elems
      | _ => True
      end ->
      match pd with
      | live members => Forall (fun m => P (snd m)) members
      | _ => True
      end ->
      P (Impl pn pb ps pl pd)) ->
  forall j, P j.
Proof.
  intros H. fix IH 1. intros [pn pb ps pl pd]. apply H.
  - destruct pl as [|elems|]; try exact I.
    revert elems. fix IHl 1. intros [|v next]; constructor.
    + apply IH.
    + apply IHl.
  - destruct pd as [|members|]; try exact I.
    revert members. fix IHl 1. intros [|[k v] next]; constructor.
    + apply IH.
    + apply IHl.
Qed.

(** ** Copies *)

Lemma copy_unfold pn pb ps pl pd :
  copy (Impl pn pb ps pl pd) =
  (nb <- (if non_null pb then x <- deref pb ;; Ret (live x) else Ret nullptr) ;;
   nn <- (if non_null pn then x <- deref pn ;; Ret (live x) else Ret nullptr) ;;
   ns <- (if non_null ps then x <- deref ps ;; Ret (live x) else Ret nullptr) ;;
   nd <- match pd with
         | nullptr => Ret nullptr
         | dangling => Undefined
         | live members =>
           ys <- (fix copy_members (it : list (string * json)) :=
                    match it with
                    | [] => Ret []
                    | (k, v) :: next =>
                      v' <- copy v ;;
                      rest <- copy_members next ;;
                      Ret ((k, v') :: rest)
                    end) members ;;
           Ret (live ys)
         end ;;
   nl <- match pl with
         | nullptr => Ret nullptr
         | dangling => Undefined
         | live elems =>
           ys <- (fix copy_elems (it : list json) :=
                    match it with
                    | [] => Ret []
                    | v :: next =>
                      v' <- copy v ;;
                      rest <- copy_elems next ;;
                      Ret (v' :: rest)
                    end) elems ;;
           Ret (live ys)
         end ;;
   Ret (Impl nn nb ns nl nd)).
Proof. reflexivity. Qed.

Lemma copy_scalar {A : Type} (p : ptr A) :
  valid p = true ->
  (if non_null p then x <- deref p ;; Ret (live x) else Ret nullptr) = Ret p.
Proof. destruct p; intros H; try discriminate H; reflexivity. Qed.

Lemma copy_exact (j : json) :
  (no_dangling j = true -> copy j = Ret j)
  /\ (no_dangling j = false -> copy j = Undefined).
Proof.
  induction j as [pn pb ps pl pd IHl IHd] using json_nested_ind.
  assert (Helems :
    match pl with
    | live elems =>
      (forallb no_dangling elems = true ->
       (fix copy_elems (it : list json) :=
          match it with
          | [] => Ret []
          | v :: next =>
            v' <- copy v ;; rest <- copy_elems next ;; Ret (v' :: rest)
          end) elems = Ret elems)
      /\ (forallb no_dangling elems = false ->
          (fix copy_elems (it : list json) :=
             match it with
             | [] => Ret []
             | v :: next =>
               v' <- copy v ;; rest <- copy_elems next ;; Ret (v' :: rest)
             end) elems = Undefined)
    | _ => True
    end).
  { destruct pl as [|elems|]; try exact I.
    induction IHl as [|v next [Hv Hv'] _ [IHn IHn']]; [split; [reflexivity|discriminate]|].
    simpl. destruct (no_dangling v); simpl.
    - rewrite (Hv eq_refl). simpl. split; intros H.
      + rewrite (IHn H). reflexivity.
      + rewrite (IHn' H). reflexivity.
    - rewrite (Hv' eq_refl). split; [discriminate | reflexivity]. }
  assert (Hmembers :
    match pd with
    | live members =>
      (forallb (fun m => no_dangling (snd m)) members = true ->
       (fix copy_members (it : list (string * json)) :=
          match it with
          | [] => Ret []
          | (k, v) :: next =>
            v' <- copy v ;; rest <- copy_members next ;; Ret ((k, v') :: rest)
          end) members = Ret members)
      /\ (forallb (fun m => no_dangling (snd m)) members = false ->
          (fix copy_members (it : list (string * json)) :=
             match it with
             | [] => Ret []
             | (k, v) :: next =>
               v' <- copy v ;; rest <- copy_members next ;; Ret ((k, v') :: rest)
             end) members = Undefined)
    | _ => True
    end).
  { destruct pd as [|members|]; try exact I.
    induction IHd as [|[k v] next [Hv Hv'] _ [IHn IHn']];
      [split; [reflexivity|discriminate]|].
    simpl in Hv, Hv' |- *. destruct (no_dangling v); simpl.
    - rewrite (Hv eq_refl). simpl. split; intros H.
      + rewrite (IHn H). reflexivity.
      + rewrite (IHn' H). reflexivity.
    - rewrite (Hv' eq_refl). split; [discriminate | reflexivity]. }
  rewrite copy_unfold.
  change (no_dangling (Impl pn pb ps pl pd))
    with (valid pn && valid pb && valid ps
          && match pl with
             | nullptr => true
             | dangling => false
             | live elems => forallb no_dangling elems
             end
          && match pd with
             | nullptr => true
             | dangling => false
             | live members => forallb (fun m => no_dangling (snd m)) members
             end).
  destruct pb as [|xb|]; destruct pn as [|xn|]; destruct ps as [|xs|];
    cbn [bind non_null deref valid andb];
    try (split; [discriminate | reflexivity]);
    (destruct pd as [|members|]; cbn [bind];
     [ | destruct Hmembers as [Hm Hm'];
         destruct (forallb (fun m => no_dangling (snd m)) members);
         [rewrite (Hm eq_refl) | rewrite (Hm' eq_refl)]; cbn [bind]
       | ]);
    (destruct pl as [|elems|]; cbn [bind];
     [ | destruct Helems as [He He'];
         destruct (forallb no_dangling elems);
         [try rewrite (He eq_refl) | try rewrite (He' eq_refl)]; cbn [bind]
       | ]);
    cbn [andb]; rewrite ?andb_false_r; split; intros H;
      first [discriminate H | reflexivity].
Qed.

(** X1.  The copy constructor returns a value equal to its source,
    at every depth, whenever the source has no dangling pointer; on a
    source that has one it is undefined. *)
Theorem copy_is_deep_and_exact (j : json) :
  (no_dangling j = true -> copy j = Ret j)
  /\ (no_dangling j = false -> copy j = Undefined).
Proof. apply copy_exact. Qed.

Lemma copy_is_deep_and_exact_witness :
  let inner := array_value [number_value double_one; json_new] in
  let j := object_value [("a", inner); ("b", string_value "x")] in
  copy j = Ret j
  /\ copy (array_value [Impl dangling nullptr nullptr nullptr nullptr])
     = Undefined.
Proof.
  intros inner j. split.
  - apply (copy_is_deep_and_exact j). reflexivity.
  - apply (copy_is_deep_and_exact
             (array_value [Impl dangling nullptr nullptr nullptr nullptr])).
    reflexivity.
Defined.

(** ** Moves and assignments *)

(** X2.  The move constructor hands over every pointer as it is and
    leaves a Null source; move assignment to a fresh value gives the
    source, and copy assignment to a fresh value gives it too when the
    source has no dangling pointer. *)
Theorem move_transfers_and_empties (j : json) :
  move_construct j = (j, json_new)
  /\ move_assign json_new j = Ret j
  /\ (no_dangling j = true -> copy_assign json_new j = Ret j).
Proof.
  split; [|split].
  - destruct j as [[|xn|] [|xb|] [|xs|] [|xl|] [|xd|]]; reflexivity.
  - destruct j as [[|xn|] [|xb|] [|xs|] [|xl|] [|xd|]]; reflexivity.
  - intros H. unfold copy_assign.
    destruct (copy_exact j) as [Hcopy _].
    rewrite (Hcopy H).
    destruct j as [[|xn|] [|xb|] [|xs|] [|xl|] [|xd|]]; reflexivity.
Qed.

Lemma move_transfers_and_empties_witness :
  copy_assign json_new (array_value [bool_value true])
  = Ret (array_value [bool_value true]).
Proof.
  apply (move_transfers_and_empties (array_value [bool_value true])).
  reflexivity.
Defined.

(** X3.  Assigning over a value that holds a Number a value that does
    not (a Null included) deletes the Number but leaves its pointer in
    place: afterwards [is_number] is still true, [is_null] is false,
    and the destructor, like any further assignment, deletes the same
    object again. *)
Theorem assignment_leaves_stale_number (this j : json) (x : double) :
  number this = live x -> number j = nullptr ->
  exists r,
    move_assign this j = Ret r
    /\ number r = dangling /\ is_number r = true /\ is_null r = false
    /\ destroy r = Undefined
    /\ move_assign r j = Undefined.
Proof.
  intros Hthis Hj.
  destruct this as [pn pb ps pl pd], j as [qn qb qs ql qd].
  simpl in Hthis, Hj. subst pn qn.
  assert (Hnull : forall r, is_number r = true -> is_null r = false).
  { intros r H. unfold is_null. rewrite H. simpl.
    rewrite andb_false_r. reflexivity. }
  unfold move_assign. simpl.
  eexists. split; [reflexivity|].
  destruct qb, qs, ql, qd, pb; simpl; repeat split;
    try (apply Hnull; reflexivity).
Qed.

Lemma assignment_leaves_stale_number_witness :
  exists r,
    move_assign (number_value double_one) json_new = Ret r
    /\ number r = dangling /\ is_number r = true /\ is_null r = false
    /\ destroy r = Undefined
    /\ move_assign r json_new = Undefined.
Proof.
  apply (assignment_leaves_stale_number (number_value double_one) json_new
           double_one); reflexivity.
Defined.

(** ** Destruction *)

Lemma destroy_unfold pn pb ps pl pd :
  destroy (Impl pn pb ps pl pd) =
  (_ <- (if non_null pb then delete pb else Ret pb) ;;
   _ <- (if non_null pn then delete pn else Ret pn) ;;
   _ <- (if non_null ps then delete ps else Ret ps) ;;
   _ <- match pd with
        | nullptr => Ret tt
        | dangling => Undefined
        | live members =>
          (fix pop (it : list (string * json)) :=
             match it with
             | [] => Ret tt
             | (_, v) :: next => _ <- destroy v ;; pop next
             end) members
        end ;;
   match pl with
   | nullptr => Ret tt
   | dangling => Undefined
   | live elems =>
     (fix pop (it : list json) :=
        match it with
        | [] => Ret tt
        | v :: next => _ <- destroy v ;; pop next
        end) elems
   end).
Proof. reflexivity. Qed.

(** X4.  The destructor is defined exactly on the values that have no
    dangling pointer at any depth; on the others it deletes an object
    twice. *)
Theorem destroy_needs_no_dangling (j : json) :
  destroy j = if no_dangling j then Ret tt else Undefined.
Proof.
  induction j as [pn pb ps pl pd IHl IHd] using json_nested_ind.
  assert (Helems :
    match pl with
    | live elems =>
      (fix pop (it : list json) :=
         match it with
         | [] => Ret tt
         | v :: next => _ <- destroy v ;; pop next
         end) elems
      = if forallb no_dangling elems then Ret tt else Undefined
    | _ => True
    end).
  { destruct pl as [|elems|]; try exact I.
    induction IHl as [|v next Hv _ IHn]; [reflexivity|].
    cbn [forallb]. rewrite Hv, IHn.
    destruct (no_dangling v); reflexivity. }
  assert (Hmembers :
    match pd with
    | live members =>
      (fix pop (it : list (string * json)) :=
         match it with
         | [] => Ret tt
         | (_, v) :: next => _ <- destroy v ;; pop next
         end) members
      = if forallb (fun m => no_dangling (snd m)) members
        then Ret tt else Undefined
    | _ => True
    end).
  { destruct pd as [|members|]; try exact I.
    induction IHd as [|[k v] next Hv _ IHn]; [reflexivity|].
    cbn [forallb snd] in Hv |- *. rewrite Hv, IHn.
    destruct (no_dangling v); reflexivity. }
  rewrite destroy_unfold.
  change (no_dangling (Impl pn pb ps pl pd))
    with (valid pn && valid pb && valid ps
          && match pl with
             | nullptr => true
             | dangling => false
             | live elems => forallb no_dangling elems
             end
          && match pd with
             | nullptr => true
             | dangling => false
             | live members => forallb (fun m => no_dangling (snd m)) members
             end).
  destruct pb as [|xb|]; destruct pn as [|xn|]; destruct ps as [|xs|];
    cbn [bind non_null delete valid andb]; try reflexivity;
    (destruct pd as [|members|];
     [ | rewrite Hmembers;
         destruct (forallb (fun m => no_dangling (snd m)) members)
       | ]; cbn [bind]);
    (destruct pl as [|elems|];
     [ | try rewrite Helems; destruct (forallb no_dangling elems) | ]);
    reflexivity.
Qed.

(** ** Typed getters *)

(** X5.  A getter returns the payload when its own pointer is live and
    throws its [json_exception] whenever its own pointer is null,
    whatever the other fields hold: no getter converts from another
    variant.  In particular, after a setter on a fresh value only the
    matching getter succeeds. *)
Theorem getters_never_coerce (j : json) :
  (forall x, number j = live x -> get_number j = Ret x)
  /\ (forall x, b j = live x -> get_bool j = Ret x)
  /\ (forall x, s j = live x -> get_string j = Ret x)
  /\ (is_number j = false ->
      get_number j = Throw (json_exception "this is not a number"))
  /\ (is_bool j = false ->
      get_bool j = Throw (json_exception "this is not a bool"))
  /\ (is_string j = false ->
      get_string j = Throw (json_exception "this is not a string")).
Proof.
  unfold get_number, get_bool, get_string, is_number, is_bool, is_string.
  repeat split; intros; try rewrite H; reflexivity.
Qed.

Lemma getters_never_coerce_witness :
  (j <- set_number double_one json_new ;; get_number j) = Ret double_one
  /\ (j <- set_number double_one json_new ;; get_string j)
     = Throw (json_exception "this is not a string")
  /\ (j <- set_string "1" json_new ;; get_number j)
     = Throw (json_exception "this is not a number").
Proof.
  destruct (getters_never_coerce (number_value double_one))
    as (Hn & _ & _ & _ & _ & Hs).
  destruct (getters_never_coerce (string_value "1"))
    as (_ & _ & _ & Hn' & _ & _).
  split; [apply (Hn double_one); reflexivity|].
  split; [apply Hs; reflexivity | apply Hn'; reflexivity].
Defined.

(** ** Insertion and lookup together *)

Lemma find_member_shift kiave : forall members n,
  find_member kiave members (S n)
  = match find_member kiave members n with
    | Some (pos, v) => Some (S pos, v)
    | None => None
    end.
Proof.
  induction members as [|[k w] next IH]; intros n; simpl; [reflexivity|].
  destruct (String.eqb k kiave); [reflexivity | apply IH].
Qed.

Lemma find_member_other_back kiave k w : forall members n,
  k <> kiave ->
  find_member kiave (members ++ [(k, w)])%list n
  = find_member kiave members n.
Proof.
  induction members as [|[k0 w0] next IH]; intros n Hne; simpl.
  - destruct (String.eqb_spec k kiave); [contradiction | reflexivity].
  - destruct (String.eqb k0 kiave); [reflexivity | apply IH, Hne].
Qed.

Lemma find_member_new_back kiave w : forall members n,
  absent kiave members ->
  find_member kiave (members ++ [(kiave, w)])%list n
  = Some (n + List.length members, w).
Proof.
  induction members as [|[k0 w0] next IH]; intros n Habs; simpl.
  - rewrite String.eqb_refl, Nat.add_0_r. reflexivity.
  - destruct (String.eqb_spec k0 kiave) as [Heq|Hne].
    + exfalso. apply (Habs k0 w0); [left; reflexivity | exact Heq].
    + rewrite IH; [f_equal; f_equal; lia|].
      intros k1 w1 Hin. apply (Habs k1 w1). right; exact Hin.
Qed.

(** X6.  After [insert] of the member [(k, v)] into an Object, both
    lookups of [k] find the new member, in the first slot, even when an
    older member has the same key; the lookups of every other key are
    as before. *)
Theorem insert_then_lookup
    (j : json) (members : list (string * json)) (k : string) (v : json) :
  dict j = live members -> no_dangling v = true ->
  exists j',
    insert (k, v) j = Ret j'
    /\ dict j' = live ((k, v) :: members)
    /\ subscript_const k j' = Ret v
    /\ subscript k j' = Ret (j', 0)
    /\ (forall k', k' <> k -> subscript_const k' j' = subscript_const k' j).
Proof.
  intros Hd Hv.
  destruct (copy_exact v) as [Hcopy _].
  exists (set_dict_ptr (live ((k, v) :: members)) j).
  assert (Hfront : list_.push_front (k, v) members = (k, v) :: members)
    by (destruct members; reflexivity).
  split; [|split; [reflexivity|split; [|split]]].
  - unfold insert, is_dictionary. rewrite Hd. simpl.
    rewrite (Hcopy Hv). simpl. rewrite Hfront. reflexivity.
  - unfold subscript_const, is_dictionary, list_.begin. simpl.
    rewrite String.eqb_refl. reflexivity.
  - unfold subscript, is_dictionary, list_.begin. simpl.
    rewrite String.eqb_refl. reflexivity.
  - intros k' Hne.
    unfold subscript_const, is_dictionary, list_.begin. rewrite Hd. simpl.
    destruct (String.eqb_spec k k') as [Heq|_];
      [contradiction Hne; symmetry; exact Heq|].
    rewrite find_member_shift.
    destruct (find_member k' members 0) as [[pos w]|]; reflexivity.
Qed.

Lemma insert_then_lookup_witness :
  exists j',
    insert ("a", bool_value true) (object_value [("a", json_new)]) = Ret j'
    /\ dict j' = live [("a", bool_value true); ("a", json_new)]
    /\ subscript_const "a" j' = Ret (bool_value true)
    /\ subscript "a" j' = Ret (j', 0)
    /\ (forall k', k' <> "a" ->
        subscript_const k' j'
        = subscript_const k' (object_value [("a", json_new)])).
Proof.
  apply (insert_then_lookup (object_value [("a", json_new)])
           [("a", json_new)] "a" (bool_value true)); reflexivity.
Defined.

(** X7.  The mutable lookup of a key that no member has grows the
    Object by exactly one Null member, at the back; looking the key up
    again finds that member and adds nothing more, and the lookups of
    every other key are as before. *)
Theorem subscript_creates_once
    (j : json) (members : list (string * json)) (k : string) :
  dict j = live members -> absent k members ->
  exists j',
    subscript k j = Ret (j', List.length members)
    /\ dict j' = live (members ++ [(k, json_new)])%list
    /\ subscript k j' = Ret (j', List.length members)
    /\ subscript_const k j' = Ret json_new
    /\ (forall k', k' <> k -> subscript_const k' j' = subscript_const k' j).
Proof.
  intros Hd Habs.
  exists (set_dict_ptr (live (members ++ [(k, json_new)])%list) j).
  split.
  { unfold subscript, is_dictionary, list_.begin. rewrite Hd. simpl.
    rewrite (find_member_absent k members 0 Habs).
    rewrite push_back_app. unfold list_.back_val.
    rewrite rev_app_distr. simpl.
    rewrite length_app, Nat.add_1_r. reflexivity. }
  split; [reflexivity|].
  pose proof (find_member_new_back k json_new members 0 Habs) as Hfind.
  split; [|split].
  - unfold subscript, is_dictionary, list_.begin. simpl. rewrite Hfind.
    reflexivity.
  - unfold subscript_const, is_dictionary, list_.begin. simpl. rewrite Hfind.
    reflexivity.
  - intros k' Hne.
    unfold subscript_const, is_dictionary, list_.begin. rewrite Hd. simpl.
    rewrite (find_member_other_back k' k json_new members 0)
      by (intros Heq; apply Hne; symmetry; exact Heq).
    reflexivity.
Qed.

Lemma subscript_creates_once_witness :
  exists j',
    subscript "z" (object_value [("a", json_new)]) = Ret (j', 1)
    /\ dict j' = live [("a", json_new); ("z", json_new)]
    /\ subscript "z" j' = Ret (j', 1)
    /\ subscript_const "z" j' = Ret json_new
    /\ (forall k', k' <> "z" ->
        subscript_const k' j'
        = subscript_const k' (object_value [("a", json_new)])).
Proof.
  apply (subscript_creates_once (object_value [("a", json_new)])
           [("a", json_new)] "z"); [reflexivity|].
  intros k w [H|[]]. injection H as <- _. discriminate.
Defined.

(** ** Building a List *)

Lemma push_back_all_app : forall xs pn pb ps elems pd,
  forallb no_dangling xs = true ->
  push_back_all xs (Impl pn pb ps (live elems) pd)
  = Ret (Impl pn pb ps (live (elems ++ xs)%list) pd).
Proof.
  induction xs as [|x rest IH]; intros pn pb ps elems pd Hall; simpl.
  - rewrite app_nil_r. reflexivity.
  - simpl in Hall. apply andb_prop in Hall as [Hx Hrest].
    destruct (copy_exact x) as [Hcopy _].
    unfold push_back at 1. simpl. rewrite (Hcopy Hx). simpl.
    rewrite push_back_app. unfold set_l_ptr. simpl.
    rewrite (IH _ _ _ _ _ Hrest), <- app_assoc. reflexivity.
Qed.

Lemma push_front_all_rev : forall xs pn pb ps elems pd,
  forallb no_dangling xs = true ->
  push_front_all xs (Impl pn pb ps (live elems) pd)
  = Ret (Impl pn pb ps (live (rev xs ++ elems)%list) pd).
Proof.
  induction xs as [|x rest IH]; intros pn pb ps elems pd Hall; simpl.
  - reflexivity.
  - simpl in Hall. apply andb_prop in Hall as [Hx Hrest].
    destruct (copy_exact x) as [Hcopy _].
    unfold push_front at 1. simpl. rewrite (Hcopy Hx). simpl.
    assert (Hfront : list_.push_front x elems = x :: elems)
      by (destruct elems; reflexivity).
    rewrite Hfront. unfold set_l_ptr. simpl.
    rewrite (IH _ _ _ _ _ Hrest), <- app_assoc. reflexivity.
Qed.

(** X8.  Values pushed to the back of a List one after the other are
    held, and iterated from [begin_list], in the order of the calls,
    after the elements already there; pushed to the front they are
    held in reverse order, before them.  On a value that is not a List
    both operations throw. *)
Theorem push_back_keeps_order (xs elems : list json) (j x : json) :
  (forallb no_dangling xs = true ->
   push_back_all xs (array_value elems) = Ret (array_value (elems ++ xs)%list)
   /\ begin_list (array_value (elems ++ xs)%list) = Ret (elems ++ xs)%list
   /\ push_front_all xs (array_value elems)
      = Ret (array_value (rev xs ++ elems)%list))
  /\ (is_list j = false ->
      push_back x j = Throw (json_exception "this is not a list")
      /\ push_front x j = Throw (json_exception "this is not a list")).
Proof.
  split.
  - intros Hall. split; [apply push_back_all_app, Hall|].
    split; [reflexivity | apply push_front_all_rev, Hall].
  - intros Hj. unfold push_back, push_front. rewrite Hj. split; reflexivity.
Qed.

Lemma push_back_keeps_order_witness :
  push_back_all [bool_value true; json_new] (array_value [string_value "x"])
  = Ret (array_value [string_value "x"; bool_value true; json_new])
  /\ push_back json_new (string_value "x")
     = Throw (json_exception "this is not a list").
Proof.
  destruct (push_back_keeps_order [bool_value true; json_new]
              [string_value "x"] (string_value "x") json_new) as [Hlist Hother].
  split; [apply Hlist; reflexivity | apply Hother; reflexivity].
Defined.

(** * Properties of the [list] container *)

Lemma before_back_app {Val : Type} (v : Val) : forall x xs,
  list_.before_back (x :: xs ++ [v])%list = x :: xs.
Proof.
  intros x xs. revert x.
  induction xs as [|y ys IH]; intros x; [reflexivity|].
  change (list_.before_back (x :: (y :: ys) ++ [v])%list)
    with (match (ys ++ [v])%list with
          | _ :: _ => x :: list_.before_back (y :: ys ++ [v])%list
          | [] => [x]
          end).
  rewrite IH. destruct ys; reflexivity.
Qed.

(** X9.  [pop_back] undoes [push_back] and [pop_front] undoes
    [push_front], whatever the list; on an empty list both do
    nothing. *)
Theorem pop_undoes_push {Val : Type} (v : Val) (xs : list Val) :
  list_.pop_back (list_.push_back v xs) = xs
  /\ list_.pop_front (list_.push_front v xs) = xs
  /\ list_.pop_back (@nil Val) = []
  /\ list_.pop_front (@nil Val) = [].
Proof.
  split; [|split; [|split]]; try reflexivity.
  - rewrite push_back_app.
    destruct xs as [|x xs]; [reflexivity|].
    destruct xs as [|y ys]; [reflexivity|].
    apply (before_back_app v x (y :: ys)).
  - destruct xs; reflexivity.
Qed.

(** X10.  Indexed access walks [i] nodes without any test: it returns
    the element at position [i] when there is one and is undefined, a
    null pointer being followed or read, as soon as [i] is the length
    of the list or more. *)
Theorem index_is_unchecked {Val : Type} (xs : list Val) (i : nat) :
  list_.index xs i
  = match nth_error xs i with
    | Some v => Ret v
    | None => Undefined
    end.
Proof.
  revert xs. induction i as [|i IH]; intros [|x xs]; simpl; try reflexivity.
  apply IH.
Qed.

Lemma append_is_app {Val : Type} : forall (rhs xs : list Val),
  list_.append xs rhs = (xs ++ rhs)%list.
Proof.
  induction rhs as [|v next IH]; intros xs; simpl.
  - rewrite app_nil_r. reflexivity.
  - rewrite IH, push_back_app, <- app_assoc. reflexivity.
Qed.

Lemma append_self_never_ends {Val : Type} fuel : forall pos (xs : list Val),
  pos < List.length xs ->
  list_.append_self_from None fuel pos xs = Timeout.
Proof.
  induction fuel as [|f IH]; intros pos xs Hpos; simpl;
    destruct (nth_error xs pos) as [v|] eqn:Hnth;
    try (apply nth_error_None in Hnth; lia); try reflexivity.
  apply IH. rewrite push_back_app, length_app. simpl. lia.
Qed.

Lemma append_self_exhausts {Val : Type} limit fuel :
  forall pos (xs : list Val),
  pos < List.length xs ->
  list_.append_self_from (Some limit) fuel pos xs
  = if Nat.leb fuel (limit - List.length xs)
    then Timeout else Throw std_bad_alloc.
Proof.
  induction fuel as [|f IH]; intros pos xs Hpos; simpl;
    destruct (nth_error xs pos) as [v|] eqn:Hnth;
    try (apply nth_error_None in Hnth; lia); try reflexivity.
  destruct (Nat.leb_spec limit (List.length xs)) as [Hfull|Hroom].
  - replace (limit - List.length xs) with 0 by lia. reflexivity.
  - rewrite bind_ret.
    rewrite IH by (rewrite push_back_app, length_app; simpl; lia).
    rewrite push_back_app, length_app. simpl.
    destruct (limit - List.length xs) as [|k] eqn:Hk; [lia|].
    replace (limit - (List.length xs + 1)) with k by lia.
    reflexivity.
Qed.

(** X11.  [operator+=] with another list and the three [operator+]
    concatenate: the left operand, then the right one, element order
    kept; [clear] leaves the empty list.  A list appended to itself is
    left as it is when it is empty; when it is not, the walk follows
    the nodes it adds and the call never returns: it throws
    [std::bad_alloc] at the turn that finds [limit] nodes in the list
    when the allocator refuses more, and has no outcome whatever the
    fuel when the allocator never refuses. *)
Theorem list_concatenation {Val : Type} (xs ys : list Val) (v : Val)
    (heap : option nat) (limit fuel : nat) :
  list_.append xs ys = (xs ++ ys)%list
  /\ list_.plus xs ys = (xs ++ ys)%list
  /\ list_.plus_back xs v = (xs ++ [v])%list
  /\ list_.plus_front v xs = v :: xs
  /\ list_.clear xs = []
  /\ list_.append_self heap fuel (@nil Val) = Ret []
  /\ (xs <> [] ->
      list_.append_self None fuel xs = Timeout
      /\ list_.append_self (Some limit) fuel xs
         = if Nat.leb fuel (limit - List.length xs)
           then Timeout else Throw std_bad_alloc).
Proof.
  unfold list_.plus, list_.plus_back, list_.plus_front.
  rewrite !append_is_app, push_back_app. simpl.
  repeat split.
  - destruct xs; reflexivity.
  - induction xs as [|x next IH]; [reflexivity | exact IH].
  - destruct fuel; reflexivity.
  - apply append_self_never_ends. destruct xs; [contradiction | simpl; lia].
  - apply append_self_exhausts. destruct xs; [contradiction | simpl; lia].
Qed.

Lemma list_concatenation_witness :
  list_.append_self None 1000 [1; 2] = Timeout
  /\ list_.append_self (Some 5) 3 [1; 2] = Timeout
  /\ list_.append_self (Some 5) 4 [1; 2] = Throw std_bad_alloc.
Proof.
  destruct (list_concatenation [1; 2] [] 0 None 5 3)
    as (_ & _ & _ & _ & _ & _ & Hthree).
  destruct (list_concatenation [1; 2] [] 0 None 5 4)
    as (_ & _ & _ & _ & _ & _ & Hfour).
  destruct (list_concatenation [1; 2] [] 0 None 5 1000)
    as (_ & _ & _ & _ & _ & _ & Hmany).
  split; [apply Hmany; discriminate|].
  split; [apply Hthree; discriminate | apply Hfour; discriminate].
Defined.

(** * Further properties of the tokenizer *)

Lemma skip_space_all ws :
  all_chars isspace ws = true -> skip_space ws = EmptyString.
Proof.
  induction ws as [|c ws IH]; simpl; intros H; [reflexivity|].
  apply andb_prop in H as [Hc Hws]. rewrite Hc. apply IH, Hws.
Qed.

(** X12.  On a stream that holds nothing but white space, or nothing
    at all, [get_token] returns FINE_INPUT, and [operator>>] returns
    with the target exactly as it was, the stream being left with
    [eofbit] and [failbit] set.  The same happens, without a character
    being read, on a stream that is not good at the start. *)
Theorem end_of_input_leaves_target
    (fuel : nat) (i : istream) (ws : string) (c0 : ascii) (rhs : json) :
  (good i = true -> skipws i = true -> all_chars isspace ws = true ->
   get_token fuel (tokenizer_at i ws c0)
   = Ret (token FINE_INPUT "",
          {| is_ := set_failbit (set_eofbit (set_buf EmptyString i));
             curr_char := c0 |})
   /\ operator_shr (S fuel) (set_buf ws i) rhs
      = Ret (set_failbit (set_eofbit (set_buf EmptyString i)), rhs))
  /\ (good i = false ->
      get_token fuel {| is_ := i; curr_char := c0 |}
      = Ret (token FINE_INPUT "", {| is_ := set_failbit i; curr_char := c0 |})
      /\ operator_shr (S fuel) i rhs = Ret (set_failbit i, rhs)).
Proof.
  split.
  - intros Hgood Hskip Hws.
    assert (Hread : forall c,
               read_curr (tokenizer_at i ws c)
               = ({| is_ := set_failbit (set_eofbit (set_buf EmptyString i));
                     curr_char := c |}, false)).
    { intros c. unfold read_curr, extract, tokenizer_at. simpl.
      change (good (set_buf ws i)) with (good i).
      rewrite Hgood, Hskip, (skip_space_all ws Hws). reflexivity. }
    split.
    + rewrite get_token_unfold, Hread. reflexivity.
    + unfold operator_shr. rewrite operator_shr_while_S. unfold shr_body.
      change (Tokenizer_new (set_buf ws i)) with (tokenizer_at i ws " ").
      rewrite get_token_unfold, Hread. reflexivity.
  - intros Hbad.
    assert (Hread : forall c,
               read_curr {| is_ := i; curr_char := c |}
               = ({| is_ := set_failbit i; curr_char := c |}, false)).
    { intros c. unfold read_curr, extract. simpl. rewrite Hbad. reflexivity. }
    split.
    + rewrite get_token_unfold, Hread. reflexivity.
    + unfold operator_shr. rewrite operator_shr_while_S. unfold shr_body.
      unfold Tokenizer_new.
      rewrite get_token_unfold, Hread. reflexivity.
Qed.

Lemma end_of_input_leaves_target_witness :
  operator_shr 1 (istringstream (String " " (String "010" (String "009" ""))))
               (bool_value true)
  = Ret ({| buf := ""; eofbit := true; failbit := true; skipws := true |},
         bool_value true).
Proof.
  destruct (end_of_input_leaves_target 0 (istringstream "")
              (String " " (String "010" (String "009" ""))) " "
              (bool_value true)) as [Hws _].
  apply Hws; reflexivity.
Defined.

Lemma string_while_run i : forall content fuel v x rest,
  good i = true -> all_chars not_dquote content = true ->
  String.length content <= fuel ->
  string_while fuel
    (v, get_curr (tokenizer_at i (content ++ String dquote rest) x))
  = Ret (v ++ content, tokenizer_at i rest dquote).
Proof.
  induction content as [|c r IH]; intros fuel v x rest Hgood Hall Hlen.
  - change (EmptyString ++ String dquote rest) with (String dquote rest).
    rewrite (get_curr_char i dquote rest x Hgood), append_empty.
    destruct fuel; reflexivity.
  - simpl in Hall. apply andb_prop in Hall as [Hc Hr].
    change (String c r ++ String dquote rest)
      with (String c (r ++ String dquote rest)).
    rewrite (get_curr_char i c _ x Hgood).
    destruct fuel as [|f]; [simpl in Hlen; lia|].
    change (string_while (S f) (v, tokenizer_at i (r ++ String dquote rest) c))
      with (if string_cond (tokenizer_at i (r ++ String dquote rest) c)
            then string_while f
                   (string_body (v, tokenizer_at i (r ++ String dquote rest) c))
            else Ret (v, tokenizer_at i (r ++ String dquote rest) c)).
    unfold string_cond.
    change (curr_char (tokenizer_at i (r ++ String dquote rest) c)) with c.
    unfold not_dquote in Hc. rewrite Hc.
    unfold string_body. cbn [fst snd].
    change (curr_char (tokenizer_at i (r ++ String dquote rest) c)) with c.
    rewrite (IH f (v ++ String c EmptyString) c rest Hgood Hr)
      by (simpl in Hlen; lia).
    rewrite append_char. reflexivity.
Qed.

Lemma quoted_append content rest :
  quoted content ++ rest = String dquote (content ++ String dquote rest).
Proof.
  unfold quoted. simpl. f_equal.
  induction content as [|c r IH]; simpl; [|rewrite IH]; reflexivity.
Qed.

(** The STRING token of a quoted text. *)
Lemma get_token_quoted fuel i content rest c0 :
  good i = true -> all_chars not_dquote content = true ->
  String.length content <= fuel ->
  get_token fuel (tokenizer_at i (quoted content ++ rest) c0)
  = Ret (token STRING content, tokenizer_at i rest dquote).
Proof.
  intros Hgood Hall Hlen.
  rewrite quoted_append, get_token_unfold.
  rewrite (read_curr_char i dquote _ c0 Hgood (fun _ => dquote_not_space)).
  rewrite get_token_after_dquote by reflexivity.
  rewrite (string_while_run i content fuel EmptyString dquote rest
             Hgood Hall Hlen).
  reflexivity.
Qed.

(** X13.  A string literal is taken verbatim: for every text without
    a double quote, the token of that text between double quotes is a
    STRING holding exactly the text, and the stream is left just after
    the closing quote.  Nothing is unescaped, so a backslash stays in
    the text and the quote after a backslash closes the literal. *)
Theorem string_token_is_verbatim
    (fuel : nat) (i : istream) (content rest : string) (c0 : ascii) :
  good i = true -> all_chars not_dquote content = true ->
  String.length content <= fuel ->
  get_token fuel (tokenizer_at i (quoted content ++ rest) c0)
  = Ret (token STRING content, tokenizer_at i rest dquote).
Proof. apply get_token_quoted. Qed.

Lemma string_token_is_verbatim_witness :
  get_token 3 (tokenizer_at (istringstream "") (quoted "a\n" ++ ",1]") "[")
  = Ret (token STRING "a\n", tokenizer_at (istringstream "") ",1]" dquote).
Proof.
  apply (string_token_is_verbatim 3 (istringstream "") "a\n" ",1]" "[");
    [reflexivity | reflexivity | simpl; lia].
Defined.

(** The number loop in front of a character that is not a number
    character: the run is taken, the character is looked at and left in
    the stream. *)
Lemma number_while_stop i : forall r fuel v c d rest,
  good i = true -> number_char c = true ->
  all_chars number_char r = true -> number_char d = false ->
  String.length r < fuel ->
  number_while fuel (v, tokenizer_at i (r ++ String d rest) c)
  = Ret (v ++ r, tokenizer_at i (String d rest) d).
Proof.
  induction r as [|x r IH]; intros fuel v c d rest Hgood Hc Hr Hd Hlen;
    (destruct fuel as [|f]; [simpl in Hlen; lia|]);
    rewrite number_while_S;
    change (curr_char (tokenizer_at i _ c)) with c; rewrite Hc.
  - change (EmptyString ++ String d rest) with (String d rest).
    change (is_ (tokenizer_at i (String d rest) c))
      with (set_buf (String d rest) i).
    rewrite (peek_char i d rest Hgood). cbv beta iota zeta.
    rewrite (peek_char i d rest Hgood). cbv beta iota zeta.
    change (char_of_int (Some d)) with d. rewrite Hd, append_empty.
    assert (Hexit : forall g, number_while g (v, tokenizer_at i (String d rest) d)
                              = Ret (v, tokenizer_at i (String d rest) d)).
    { intros [|g]; simpl; rewrite Hd; reflexivity. }
    change {| is_ := set_buf (String d rest) i; curr_char := d |}
      with (tokenizer_at i (String d rest) d).
    rewrite Hexit.
    destruct d as [[] [] [] [] [] [] [] []]; reflexivity.
  - simpl in Hr. apply andb_prop in Hr as [Hx Hr].
    change (String x r ++ String d rest) with (String x (r ++ String d rest)).
    change (is_ (tokenizer_at i (String x (r ++ String d rest)) c))
      with (set_buf (String x (r ++ String d rest)) i).
    rewrite (peek_char i x _ Hgood). cbv beta iota zeta.
    rewrite (peek_char i x _ Hgood). cbv beta iota zeta.
    rewrite (number_char_not_nul x _ _ Hx).
    change (char_of_int (Some x)) with x. rewrite Hx.
    change {| is_ := set_buf (String x (r ++ String d rest)) i; curr_char := x |}
      with (tokenizer_at i (String x (r ++ String d rest)) x).
    rewrite (get_curr_char i x _ x Hgood).
    rewrite (IH f (v ++ String x EmptyString) x d rest Hgood Hx Hr Hd)
      by (simpl in Hlen; lia).
    rewrite append_char. reflexivity.
Qed.

(** The NUMBER token of a run followed by another character. *)
Lemma get_token_number fuel i c run d rest c0 :
  good i = true -> (Ascii.eqb c "-" || is_digit c) = true ->
  all_chars number_char run = true -> number_char d = false ->
  String.length run < fuel ->
  get_token fuel (tokenizer_at i (String c run ++ String d rest) c0)
  = Ret (token NUMBER (String c run), tokenizer_at i (String d rest) d).
Proof.
  intros Hgood Hc Hrun Hd Hlen.
  destruct (sign_or_digit_facts c Hc) as [Hsp Hnum].
  change (String c run ++ String d rest) with (String c (run ++ String d rest)).
  rewrite get_token_unfold.
  rewrite (read_curr_char i c _ c0 Hgood (fun _ => Hsp)).
  rewrite (get_token_after_number _ _ _ c Hc).
  rewrite (number_while_stop i run fuel (String c EmptyString) c d rest
             Hgood Hnum Hrun Hd Hlen).
  reflexivity.
Qed.

(** X14.  A number token is the longest run of '-', digits and '.'
    that starts with '-' or a digit, whatever its shape: the tokenizer
    returns it as the text of a NUMBER token and leaves the character
    that ends the run in the stream, to be read again by the next
    call. *)
Theorem number_token_is_greedy
    (fuel : nat) (i : istream) (c : ascii) (run : string) (d : ascii)
    (rest : string) (c0 : ascii) :
  good i = true -> (Ascii.eqb c "-" || is_digit c) = true ->
  all_chars number_char run = true -> number_char d = false ->
  String.length run < fuel ->
  get_token fuel (tokenizer_at i (String c run ++ String d rest) c0)
  = Ret (token NUMBER (String c run), tokenizer_at i (String d rest) d).
Proof. apply get_token_number. Qed.

Lemma number_token_is_greedy_witness :
  get_token 8 (tokenizer_at (istringstream "") "1-2.3.-,5]" "[")
  = Ret (token NUMBER "1-2.3.-", tokenizer_at (istringstream "") ",5]" ",").
Proof.
  apply (number_token_is_greedy 8 (istringstream "") "1" "-2.3.-" "," "5]" "[");
    [reflexivity | reflexivity | reflexivity | reflexivity | simpl; lia].
Defined.

(** What [get(buffer, n)] stores compares equal to a literal exactly
    when the stream starts with the literal. *)
Lemma get_chars_literal : forall lit tail,
  all_chars (fun c => negb (Ascii.eqb c "000") && negb (Ascii.eqb c "010")) lit
  = true ->
  String.eqb (c_str (fst (fst (get_chars (String.length lit) tail)))) lit
  = prefix lit tail.
Proof.
  induction lit as [|a lit IH]; intros tail Hlit.
  - destruct tail; reflexivity.
  - simpl in Hlit. apply andb_prop in Hlit as [Ha Hlit].
    apply andb_prop in Ha as [Hnul Hlf].
    destruct tail as [|x tail]; [reflexivity|].
    simpl.
    destruct (Ascii.eqb_spec x "010") as [->|Hx].
    + destruct (ascii_dec a "010") as [->|_]; [discriminate Hlf | reflexivity].
    + specialize (IH tail Hlit).
      destruct (get_chars (String.length lit) tail) as [[got rest] e].
      simpl in IH |- *.
      destruct (Ascii.eqb_spec x "000") as [->|Hx0].
      * destruct (ascii_dec a "000") as [->|_]; [discriminate Hnul | reflexivity].
      * simpl. rewrite IH.
        destruct (ascii_dec a x) as [->|Hne].
        -- rewrite Ascii.eqb_refl. reflexivity.
        -- destruct (Ascii.eqb_spec x a) as [->|_];
             [contradiction Hne; reflexivity | reflexivity].
Qed.

Lemma get_chars_prefix : forall lit rest,
  all_chars (fun c => negb (Ascii.eqb c "000") && negb (Ascii.eqb c "010")) lit
  = true ->
  get_chars (String.length lit) (lit ++ rest)
  = (lit, rest, match rest with EmptyString => true | _ => false end).
Proof.
  induction lit as [|a lit IH]; intros rest Hlit;
    [destruct rest; reflexivity|].
  simpl in Hlit. apply andb_prop in Hlit as [Ha Hlit].
  apply andb_prop in Ha as [_ Hlf].
  simpl. destruct (Ascii.eqb a "010"); [discriminate Hlf|].
  rewrite (IH rest Hlit). reflexivity.
Qed.

Lemma get_token_after_t fuel i r :
  get_token_after fuel (tokenizer_at i r "t")
  = let '(i', buffer) := get_buffer 4 (set_buf r i) in
    if negb (String.eqb (c_str buffer) "rue")
    then Throw (json_exception "boolean not valid")
    else Ret (token BOOLEAN "True", {| is_ := i'; curr_char := "t" |}).
Proof. reflexivity. Qed.

Lemma get_token_after_f fuel i r :
  get_token_after fuel (tokenizer_at i r "f")
  = let '(i', buffer) := get_buffer 5 (set_buf r i) in
    if negb (String.eqb (c_str buffer) "alse")
    then Throw (json_exception "boolean not valid")
    else Ret (token BOOLEAN "False", {| is_ := i'; curr_char := "f" |}).
Proof. reflexivity. Qed.

Lemma get_buffer_good n i r :
  good i = true ->
  get_buffer n (set_buf r i)
  = let '(got, rest, e) := get_chars (pred n) r in
    ({| buf := rest; eofbit := e;
        failbit := match got with EmptyString => true | _ => false end;
        skipws := skipws i |}, got).
Proof.
  intros Hgood. unfold get_buffer.
  change (good (set_buf r i)) with (good i). rewrite Hgood. reflexivity.
Qed.

Lemma t_f_not_space : isspace "t" = false /\ isspace "f" = false.
Proof. split; reflexivity. Qed.

(** The BOOLEAN tokens of the two literals. *)
Lemma get_token_true fuel i rest c0 :
  good i = true ->
  get_token fuel (tokenizer_at i ("true" ++ rest) c0)
  = Ret (token BOOLEAN "True",
         {| is_ := looked_ahead i rest; curr_char := "t" |}).
Proof.
  intros Hgood. destruct (good_bits i Hgood) as [He Hf].
  change ("true" ++ rest) with (String "t" ("rue" ++ rest)).
  rewrite get_token_unfold.
  rewrite (read_curr_char i "t" _ c0 Hgood (fun _ => proj1 t_f_not_space)).
  rewrite get_token_after_t, (get_buffer_good 4 i _ Hgood).
  change (pred 4) with (String.length "rue").
  rewrite (get_chars_prefix "rue" rest eq_refl).
  unfold looked_ahead, set_eofbit, set_buf.
  destruct rest; simpl; rewrite ?He, ?Hf; reflexivity.
Qed.

Lemma get_token_false fuel i rest c0 :
  good i = true ->
  get_token fuel (tokenizer_at i ("false" ++ rest) c0)
  = Ret (token BOOLEAN "False",
         {| is_ := looked_ahead i rest; curr_char := "f" |}).
Proof.
  intros Hgood. destruct (good_bits i Hgood) as [He Hf].
  change ("false" ++ rest) with (String "f" ("alse" ++ rest)).
  rewrite get_token_unfold.
  rewrite (read_curr_char i "f" _ c0 Hgood (fun _ => proj2 t_f_not_space)).
  rewrite get_token_after_f, (get_buffer_good 5 i _ Hgood).
  change (pred 5) with (String.length "alse").
  rewrite (get_chars_prefix "alse" rest eq_refl).
  unfold looked_ahead, set_eofbit, set_buf.
  destruct rest; simpl; rewrite ?He, ?Hf; reflexivity.
Qed.

(** X15.  After a 't' (after an 'f') the tokenizer accepts exactly the
    continuation [rue] ([alse]): it then returns the BOOLEAN token and
    leaves the stream after the literal, with [eofbit] set when the
    literal ends the stream, because [get(buffer, n)] looks at the
    character that follows; with any other continuation, the end of
    the stream included, it throws its [json_exception]. *)
Theorem boolean_literal_is_checked
    (fuel : nat) (i : istream) (tail : string) (c0 : ascii) :
  good i = true ->
  get_token fuel (tokenizer_at i ("true" ++ tail) c0)
  = Ret (token BOOLEAN "True",
         {| is_ := looked_ahead i tail; curr_char := "t" |})
  /\ get_token fuel (tokenizer_at i ("false" ++ tail) c0)
     = Ret (token BOOLEAN "False",
            {| is_ := looked_ahead i tail; curr_char := "f" |})
  /\ (prefix "rue" tail = false ->
      get_token fuel (tokenizer_at i (String "t" tail) c0)
      = Throw (json_exception "boolean not valid"))
  /\ (prefix "alse" tail = false ->
      get_token fuel (tokenizer_at i (String "f" tail) c0)
      = Throw (json_exception "boolean not valid")).
Proof.
  intros Hgood.
  split; [apply get_token_true, Hgood|].
  split; [apply get_token_false, Hgood|].
  split; intros Hno; rewrite get_token_unfold.
  - rewrite (read_curr_char i "t" _ c0 Hgood (fun _ => proj1 t_f_not_space)).
    rewrite get_token_after_t, (get_buffer_good 4 i _ Hgood).
    pose proof (get_chars_literal "rue" tail eq_refl) as Hlit.
    change (pred 4) with (String.length "rue").
    destruct (get_chars (String.length "rue") tail) as [[got rest] e].
    simpl in Hlit. rewrite Hlit, Hno. reflexivity.
  - rewrite (read_curr_char i "f" _ c0 Hgood (fun _ => proj2 t_f_not_space)).
    rewrite get_token_after_f, (get_buffer_good 5 i _ Hgood).
    pose proof (get_chars_literal "alse" tail eq_refl) as Hlit.
    change (pred 5) with (String.length "alse").
    destruct (get_chars (String.length "alse") tail) as [[got rest] e].
    simpl in Hlit. rewrite Hlit, Hno. reflexivity.
Qed.

Lemma boolean_literal_is_checked_witness :
  get_token 0 (tokenizer_at (istringstream "") "true]" "[")
  = Ret (token BOOLEAN "True", tokenizer_at (istringstream "") "]" "t")
  /\ get_token 0 (tokenizer_at (istringstream "") "false" "[")
     = Ret (token BOOLEAN "False",
            {| is_ := {| buf := ""; eofbit := true; failbit := false;
                         skipws := true |};
               curr_char := "f" |})
  /\ get_token 0 (tokenizer_at (istringstream "") "tru" "[")
     = Throw (json_exception "boolean not valid")
  /\ get_token 0 (tokenizer_at (istringstream "") "fxlse" "[")
     = Throw (json_exception "boolean not valid").
Proof.
  destruct (boolean_literal_is_checked 0 (istringstream "") "]" "[" eq_refl)
    as (Htrue & _).
  destruct (boolean_literal_is_checked 0 (istringstream "") "" "[" eq_refl)
    as (_ & Hfalse & _).
  split; [exact Htrue|]. split; [exact Hfalse|].
  destruct (boolean_literal_is_checked 0 (istringstream "") "ru" "[" eq_refl)
    as (_ & _ & Ht & _).
  destruct (boolean_literal_is_checked 0 (istringstream "") "xlse" "[" eq_refl)
    as (_ & _ & _ & Hf).
  split; [apply Ht | apply Hf]; reflexivity.
Defined.

(** * Further properties of the parser *)

(** ** The values it builds *)

Lemma well_formed_unfold pn pb ps pl pd :
  well_formed (Impl pn pb ps pl pd)
  = Nat.leb (populated (Impl pn pb ps pl pd)) 1
    && (valid pn && valid pb && valid ps
        && match pl with
           | nullptr => true
           | dangling => false
           | live elems => forallb well_formed elems
           end
        && match pd with
           | nullptr => true
           | dangling => false
           | live members => forallb (fun m => well_formed (snd m)) members
           end).
Proof. reflexivity. Qed.

Lemma no_dangling_unfold pn pb ps pl pd :
  no_dangling (Impl pn pb ps pl pd)
  = valid pn && valid pb && valid ps
    && match pl with
       | nullptr => true
       | dangling => false
       | live elems => forallb no_dangling elems
       end
    && match pd with
       | nullptr => true
       | dangling => false
       | live members => forallb (fun m => no_dangling (snd m)) members
       end.
Proof. reflexivity. Qed.

Lemma well_formed_no_dangling (j : json) :
  well_formed j = true -> no_dangling j = true.
Proof.
  induction j as [pn pb ps pl pd IHl IHd] using json_nested_ind.
  rewrite well_formed_unfold, no_dangling_unfold. intros H.
  apply andb_prop in H as [_ H].
  apply andb_prop in H as [H Hd]. apply andb_prop in H as [H Hl].
  rewrite H. simpl.
  apply andb_true_intro. split.
  - destruct pl as [|elems|]; try assumption.
    induction IHl as [|v next Hv _ IHn]; [reflexivity|].
    simpl in Hl |- *. apply andb_prop in Hl as [Hv' Hn].
    rewrite (Hv Hv'). apply IHn, Hn.
  - destruct pd as [|members|]; try assumption.
    induction IHd as [|[k v] next Hv _ IHn]; [reflexivity|].
    simpl in Hd, Hv |- *. apply andb_prop in Hd as [Hv' Hn].
    rewrite (Hv Hv'). apply IHn, Hn.
Qed.

Lemma copy_well_formed (v : json) : well_formed v = true -> copy v = Ret v.
Proof.
  intros H. apply (proj1 (copy_exact v)), well_formed_no_dangling, H.
Qed.

Lemma bind_inv {A B : Type} (m : outcome A) (k : A -> outcome B) (r : B) :
  bind m k = Ret r -> exists a, m = Ret a /\ k a = Ret r.
Proof.
  destruct m as [a| | |]; simpl; intros H; try discriminate H.
  exists a. split; [reflexivity | exact H].
Qed.

Lemma literal_builds_well_formed tok :
  builds_well_formed (literal (get_json_string tok))
  /\ builds_well_formed (literal (get_json_number tok))
  /\ builds_well_formed (literal (get_json_boolean tok))
  /\ builds_well_formed (literal (get_json_null tok)).
Proof.
  unfold builds_well_formed, literal.
  repeat split; intros t v t' H; apply bind_inv in H as (j & Hj & Hret);
    injection Hret as <- _.
  - injection Hj as <-. reflexivity.
  - unfold get_json_number in Hj. apply bind_inv in Hj as (x & _ & Hx).
    injection Hx as <-. reflexivity.
  - unfold get_json_boolean in Hj.
    destruct (String.eqb (value tok) "True"); injection Hj as <-; reflexivity.
  - injection Hj as <-. reflexivity.
Qed.

Lemma forallb_snoc {A : Type} (f : A -> bool) xs x :
  forallb f xs = true -> f x = true -> forallb f (xs ++ [x])%list = true.
Proof.
  intros Hxs Hx. rewrite forallb_app, Hxs. simpl. rewrite Hx. reflexivity.
Qed.

Lemma list_value_keeps mk st t st' t' :
  builds_well_formed mk -> wf_array (lj st) ->
  list_value mk st t = Ret (st', t') -> wf_array (lj st').
Proof.
  intros Hmk (elems & Hlj & Hall) H. unfold list_value in H.
  assert (Hpush : forall v, well_formed v = true ->
             push_back v (lj st) = Ret (array_value (elems ++ [v])%list)).
  { intros v Hv. rewrite Hlj. unfold push_back. simpl.
    rewrite (copy_well_formed v Hv). simpl. rewrite push_back_app.
    reflexivity. }
  destruct (lprimo st && negb (lvirgola st));
    [|destruct (negb (lprimo st) && lvirgola st); [|discriminate H]];
    apply bind_inv in H as ([v t1] & Hv & H);
    apply bind_inv in H as (j & Hj & H);
    injection H as <- _; simpl;
    rewrite (Hpush v (Hmk _ _ _ Hv)) in Hj; injection Hj as <-;
    exists (elems ++ [v])%list; (split; [reflexivity|]);
    apply forallb_snoc; [exact Hall | exact (Hmk _ _ _ Hv) | exact Hall
                         | exact (Hmk _ _ _ Hv)].
Qed.

Lemma dictionary_value_keeps mk tok st t st' t' :
  builds_well_formed mk -> wf_object (dj st) ->
  dictionary_value mk tok st t = Ret (st', t') -> wf_object (dj st').
Proof.
  intros Hmk (members & Hdj & Hall) H. unfold dictionary_value in H.
  assert (Hins : forall k v, well_formed v = true ->
             insert (k, v) (dj st) = Ret (object_value ((k, v) :: members))).
  { intros k v Hv. rewrite Hdj. unfold insert. simpl.
    rewrite (copy_well_formed v Hv). simpl.
    destruct members; reflexivity. }
  destruct (str_empty (sinistra st) && negb (db st)).
  { injection H as <- _. exists members. split; assumption. }
  destruct (negb (str_empty (sinistra st)) && db st); [|discriminate H].
  destruct (dprimo st && negb (dvirgola st));
    [|destruct (negb (dprimo st) && dvirgola st); [|discriminate H]];
    apply bind_inv in H as ([v t1] & Hv & H);
    apply bind_inv in H as (j & Hj & H);
    injection H as <- _; simpl;
    rewrite (Hins _ v (Hmk _ _ _ Hv)) in Hj; injection Hj as <-;
    exists ((sinistra st, v) :: members); (split; [reflexivity|]);
    simpl; rewrite (Hmk _ _ _ Hv); exact Hall.
Qed.

Lemma wf_object_well_formed j : wf_object j -> well_formed j = true.
Proof.
  intros (members & -> & Hall). unfold object_value.
  rewrite well_formed_unfold. simpl. exact Hall.
Qed.

Lemma wf_array_well_formed j : wf_array j -> well_formed j = true.
Proof.
  intros (elems & -> & Hall). unfold array_value.
  rewrite well_formed_unfold. simpl. rewrite Hall. reflexivity.
Qed.

Lemma dictionary_while_S f st tok t :
  dictionary_while (S f) st tok t =
  match type tok with
  | GRAFFA_CHIUSA => Ret (dj st, t)
  | ty =>
    ' (st, t) <-
      match ty with
      | STRING => dictionary_value (literal (get_json_string tok)) tok st t
      | NUMBER => dictionary_value (literal (get_json_number tok)) tok st t
      | BOOLEAN => dictionary_value (literal (get_json_boolean tok)) tok st t
      | NULLO => dictionary_value (literal (get_json_null tok)) tok st t
      | GRAFFA_APERTA => dictionary_value (get_json_dictionary f) tok st t
      | QUADRA_APERTA => dictionary_value (get_json_list f) tok st t
      | DUE_PUNTI =>
        if negb (str_empty (sinistra st)) && negb (db st) then
          Ret ({| dj := dj st; sinistra := sinistra st; db := true;
                  dprimo := dprimo st; dvirgola := dvirgola st |}, t)
        else Throw (json_exception "formato json non valido")
      | VIRGOLA =>
        if negb (dvirgola st) then
          Ret ({| dj := dj st; sinistra := ""; db := false;
                  dprimo := dprimo st; dvirgola := true |}, t)
        else Throw (json_exception "hai ricevuto una virgola non necessaria")
      | _ => Throw (json_exception "formato json non valido")
      end ;;
    dictionary_continue f st t
  end.
Proof. destruct (type tok) eqn:E; simpl; rewrite E; reflexivity. Qed.

Lemma list_while_S f st tok t :
  list_while (S f) st tok t =
  match type tok with
  | QUADRA_CHIUSA => Ret (lj st, t)
  | ty =>
    ' (st, t) <-
      match ty with
      | STRING => list_value (literal (get_json_string tok)) st t
      | NUMBER => list_value (literal (get_json_number tok)) st t
      | BOOLEAN => list_value (literal (get_json_boolean tok)) st t
      | NULLO => list_value (literal (get_json_null tok)) st t
      | GRAFFA_APERTA => list_value (get_json_dictionary f) st t
      | QUADRA_APERTA => list_value (get_json_list f) st t
      | VIRGOLA =>
        if negb (lvirgola st) then
          Ret ({| lj := lj st; lprimo := lprimo st; lvirgola := true |}, t)
        else Throw (json_exception "hai ricevuto una virgola non necessaria")
      | _ => Throw (json_exception "formato json non valido")
      end ;;
    list_continue f st t
  end.
Proof. destruct (type tok) eqn:E; simpl; rewrite E; reflexivity. Qed.

Lemma parser_keeps_well_formed fuel :
  (forall t j t', get_json_dictionary fuel t = Ret (j, t') -> wf_object j)
  /\ (forall st tok t j t',
         wf_object (dj st) ->
         dictionary_while fuel st tok t = Ret (j, t') -> wf_object j)
  /\ (forall t j t', get_json_list fuel t = Ret (j, t') -> wf_array j)
  /\ (forall st tok t j t',
         wf_array (lj st) ->
         list_while fuel st tok t = Ret (j, t') -> wf_array j).
Proof.
  induction fuel as [|f (IHd & IHdw & IHl & IHlw)].
  - repeat split; intros; try discriminate.
    + simpl in H0. destruct (type tok); try discriminate H0.
      injection H0 as <- _. exact H.
    + simpl in H0. destruct (type tok); try discriminate H0.
      injection H0 as <- _. exact H.
  - assert (Hbd : builds_well_formed (get_json_dictionary f))
      by (intros t v t' H; apply wf_object_well_formed, (IHd t v t' H)).
    assert (Hbl : builds_well_formed (get_json_list f))
      by (intros t v t' H; apply wf_array_well_formed, (IHl t v t' H)).
    repeat split.
    + intros t j t' H. rewrite get_json_dictionary_S in H.
      apply bind_inv in H as (j0 & Hj0 & H). injection Hj0 as <-.
      apply bind_inv in H as ([tok t1] & _ & H).
      apply (fun Hst => IHdw _ tok t1 j t' Hst H).
      exists []. split; reflexivity.
    + intros st tok t j t' Hst H. rewrite dictionary_while_S in H.
      destruct (literal_builds_well_formed tok) as (Hs & Hn & Hb & Hnull).
      destruct (type tok);
        try (injection H as <- _; exact Hst);
        apply bind_inv in H as ([st1 t1] & Hstep & H);
        unfold dictionary_continue in H;
        apply bind_inv in H as ([tok1 t2] & _ & H);
        try discriminate Hstep;
        (apply (IHdw st1 tok1 t2 j t'); [|exact H]);
        try (eapply dictionary_value_keeps; [| exact Hst | exact Hstep];
             assumption).
      * destruct (negb (str_empty (sinistra st)) && negb (db st));
          [|discriminate Hstep].
        injection Hstep as <- _. exact Hst.
      * destruct (negb (dvirgola st)); [|discriminate Hstep].
        injection Hstep as <- _. exact Hst.
    + intros t j t' H. rewrite get_json_list_S in H.
      apply bind_inv in H as (j0 & Hj0 & H). injection Hj0 as <-.
      apply bind_inv in H as ([tok t1] & _ & H).
      apply (fun Hst => IHlw _ tok t1 j t' Hst H).
      exists []. split; reflexivity.
    + intros st tok t j t' Hst H. rewrite list_while_S in H.
      destruct (literal_builds_well_formed tok) as (Hs & Hn & Hb & Hnull).
      destruct (type tok);
        try (injection H as <- _; exact Hst);
        apply bind_inv in H as ([st1 t1] & Hstep & H);
        unfold list_continue in H;
        apply bind_inv in H as ([tok1 t2] & _ & H);
        try discriminate Hstep;
        (apply (IHlw st1 tok1 t2 j t'); [|exact H]);
        try (eapply list_value_keeps; [| exact Hst | exact Hstep];
             assumption).
      destruct (negb (lvirgola st)); [|discriminate Hstep].
      injection Hstep as <- _. exact Hst.
Qed.

(** X16.  Whatever the input, a value returned by [get_json_dictionary]
    is an Object and a value returned by [get_json_list] is a List,
    and, at every depth, each of their nodes has at most one variant
    populated and no dangling pointer. *)
Theorem parser_builds_well_formed_values
    (fuel : nat) (t t' : Tokenizer) (j : json) :
  (get_json_dictionary fuel t = Ret (j, t') ->
   well_formed j = true /\ is_dictionary j = true /\ populated j = 1)
  /\ (get_json_list fuel t = Ret (j, t') ->
      well_formed j = true /\ is_list j = true /\ populated j = 1).
Proof.
  destruct (parser_keeps_well_formed fuel) as (Hd & _ & Hl & _).
  split; intros H.
  - pose proof (Hd t j t' H) as Hwf.
    split; [apply wf_object_well_formed, Hwf|].
    destruct Hwf as (members & -> & _). split; reflexivity.
  - pose proof (Hl t j t' H) as Hwf.
    split; [apply wf_array_well_formed, Hwf|].
    destruct Hwf as (elems & -> & _). split; reflexivity.
Qed.

Lemma parser_builds_well_formed_values_witness :
  let j := array_value [number_value double_one; array_value [bool_value true]] in
  well_formed j = true /\ is_list j = true /\ populated j = 1.
Proof.
  intros j.
  apply (proj2 (parser_builds_well_formed_values 8
                  (tokenizer_at (istringstream "") "1,[true]]" "[")
                  (tokenizer_at (istringstream "") "" "]") j)).
  vm_compute. reflexivity.
Defined.

(** ** Documents *)

Lemma doc_nested_ind (P : doc -> Prop) :
  (forall text x, P (DNumber text x)) ->
  (forall x, P (DBool x)) ->
  P DNull ->
  (forall x, P (DString x)) ->
  (forall elems, Forall P elems -> P (DList elems)) ->
  (forall members, Forall (fun m => P (snd m)) members -> P (DObject members)) ->
  forall d, P d.
Proof.
  intros Hn Hb Hnull Hs Hl Ho. fix IH 1.
  intros [text x|x| |x|elems|members];
    [apply Hn | apply Hb | apply Hnull | apply Hs | apply Hl | apply Ho].
  - revert elems. fix IHl 1. intros [|e next]; constructor.
    + apply IH.
    + apply IHl.
  - revert members. fix IHl 1. intros [|[k e] next]; constructor.
    + apply IH.
    + apply IHl.
Qed.

Lemma append_assoc_ (a b c : string) : (a ++ b) ++ c = a ++ (b ++ c).
Proof. induction a as [|x a IH]; simpl; [|rewrite IH]; reflexivity. Qed.

Lemma length_append_ (a b : string) :
  String.length (a ++ b) = String.length a + String.length b.
Proof. induction a as [|x a IH]; simpl; [|rewrite IH]; reflexivity. Qed.

Lemma concat_after_first x rest :
  String.concat "," (x :: rest) = x ++ after_first rest.
Proof.
  revert x. induction rest as [|y rest IH]; intros x.
  - simpl. rewrite append_empty. reflexivity.
  - change (String.concat "," (x :: y :: rest))
      with (x ++ "," ++ String.concat "," (y :: rest)).
    rewrite IH. reflexivity.
Qed.

Lemma forallb_rev {A : Type} (f : A -> bool) xs :
  forallb f (rev xs) = forallb f xs.
Proof.
  induction xs as [|x xs IH]; [reflexivity|].
  simpl. rewrite forallb_app, IH. simpl.
  rewrite andb_true_r. apply andb_comm.
Qed.

Lemma value_of_no_dangling (e : doc) : no_dangling (value_of e) = true.
Proof.
  induction e as [text x|x| |x|elems IH|members IH] using doc_nested_ind;
    try reflexivity.
  - simpl. induction IH as [|e next He _ IHn]; [reflexivity|].
    simpl. rewrite He. exact IHn.
  - simpl. rewrite forallb_rev.
    induction IH as [|[k e] next He _ IHn]; [reflexivity|].
    simpl in He |- *. rewrite He. exact IHn.
Qed.

Lemma push_back_array v elems :
  no_dangling v = true ->
  push_back v (array_value elems) = Ret (array_value (elems ++ [v])%list).
Proof.
  intros Hv. unfold push_back. simpl.
  rewrite (proj1 (copy_exact v) Hv). simpl. rewrite push_back_app.
  reflexivity.
Qed.

Lemma insert_object k v members :
  no_dangling v = true ->
  insert (k, v) (object_value members)
  = Ret (object_value ((k, v) :: members)).
Proof.
  intros Hv. unfold insert. simpl.
  rewrite (proj1 (copy_exact v) Hv). simpl.
  destruct members; reflexivity.
Qed.

Lemma get_token_punctuation fuel i d ty rest c0 :
  good i = true -> punctuation d = Some ty ->
  get_token fuel (tokenizer_at i (String d rest) c0)
  = Ret (token ty "", tokenizer_at i rest d).
Proof.
  intros Hgood Hd.
  assert (Hsp : isspace d = false).
  { destruct d as [[] [] [] [] [] [] [] []]; try discriminate Hd; reflexivity. }
  rewrite get_token_unfold.
  rewrite (read_curr_char i d rest c0 Hgood (fun _ => Hsp)).
  destruct d as [[] [] [] [] [] [] [] []]; try discriminate Hd;
    injection Hd as <-; reflexivity.
Qed.

Lemma list_while_value F st tok t :
  value_kind (type tok) = true ->
  list_while (S F) st tok t
  = (' (st', t') <- list_value (value_parser_of F tok) st t ;;
     list_continue F st' t').
Proof.
  intros H. rewrite list_while_S. unfold value_parser_of.
  destruct (type tok); try discriminate H; reflexivity.
Qed.

Lemma dictionary_while_value F st tok t :
  value_kind (type tok) = true ->
  dictionary_while (S F) st tok t
  = (' (st', t') <- dictionary_value (value_parser_of F tok) tok st t ;;
     dictionary_continue F st' t').
Proof.
  intros H. rewrite dictionary_while_S. unfold value_parser_of.
  destruct (type tok); try discriminate H; reflexivity.
Qed.

(** What follows an item starts with a comma or with the closing
    bracket. *)
Lemma delimiter_ahead xs tc bracket rest :
  number_char bracket = false ->
  exists d rest',
    after_first xs ++ closing tc bracket ++ rest = String d rest'
    /\ number_char d = false.
Proof.
  intros Hb. destruct xs as [|y xs].
  - destruct tc; simpl; eexists; eexists; (split; [reflexivity|]);
      [reflexivity | exact Hb].
  - simpl. eexists; eexists. split; reflexivity.
Qed.

Lemma after_first_cons_app y rest tail :
  after_first (y :: rest) ++ tail
  = String "," (y ++ after_first rest ++ tail).
Proof. simpl. rewrite append_assoc_. reflexivity. Qed.

Lemma list_close F i tc acc primo rest c0 :
  good i = true -> 2 <= F ->
  list_continue F {| lj := array_value acc; lprimo := primo; lvirgola := false |}
    (tokenizer_at i (closing tc "]" ++ rest) c0)
  = Ret (array_value acc, tokenizer_at i rest "]").
Proof.
  intros Hgood HF. unfold list_continue, closing.
  destruct tc.
  - change (("," ++ "]") ++ rest) with (String "," (String "]" rest)).
    rewrite (get_token_punctuation F i "," VIRGOLA _ c0 Hgood eq_refl).
    rewrite bind_ret. cbv beta iota.
    destruct F as [|F1]; [lia|].
    rewrite list_while_S. cbv beta iota.
    change (type (token VIRGOLA "")) with VIRGOLA. cbv beta iota.
    cbn [lvirgola negb]. rewrite bind_ret. cbv beta iota.
    unfold list_continue.
    rewrite (get_token_punctuation F1 i "]" QUADRA_CHIUSA _ "," Hgood eq_refl).
    rewrite bind_ret. cbv beta iota.
    destruct F1; reflexivity.
  - change (("" ++ "]") ++ rest) with (String "]" rest).
    rewrite (get_token_punctuation F i "]" QUADRA_CHIUSA _ c0 Hgood eq_refl).
    rewrite bind_ret. cbv beta iota.
    destruct F; reflexivity.
Qed.

Lemma list_items tc : forall es acc F i rest c0,
  Forall (parses_as_element tc) es -> good i = true ->
  2 * String.length (after_first (map (render tc) es) ++ closing tc "]") <= F ->
  list_continue F
    {| lj := array_value acc; lprimo := false; lvirgola := false |}
    (tokenizer_at i
       (after_first (map (render tc) es) ++ closing tc "]" ++ rest) c0)
  = Ret (array_value (acc ++ map value_of es)%list, tokenizer_at i rest "]").
Proof.
  induction es as [|e es IH]; intros acc F i rest c0 Hall Hgood HF.
  - simpl after_first. simpl map. rewrite app_nil_r.
    change (EmptyString ++ closing tc "]" ++ rest)
      with (closing tc "]" ++ rest).
    apply list_close; [exact Hgood|].
    destruct tc; simpl in HF; lia.
  - inversion Hall as [|e' es' He Hes]; subst.
    change (map (render tc) (e :: es))
      with (render tc e :: map (render tc) es) in HF |- *.
    change (map value_of (e :: es)) with (value_of e :: map value_of es).
    rewrite after_first_cons_app in HF |- *.
    cbn [String.length] in HF. rewrite !length_append_ in HF.
    destruct (delimiter_ahead (map (render tc) es) tc "]" rest eq_refl)
      as (d & rest' & Hahead & Hd).
    unfold list_continue at 1.
    rewrite (get_token_punctuation F i "," VIRGOLA _ c0 Hgood eq_refl).
    rewrite bind_ret. cbv beta iota.
    destruct F as [|F1]; [lia|].
    rewrite list_while_S. cbv beta iota.
    change (type (token VIRGOLA "")) with VIRGOLA. cbv beta iota.
    cbn [lvirgola negb]. rewrite bind_ret. cbv beta iota.
    destruct F1 as [|F2]; [lia|].
    unfold list_continue at 1.
    rewrite Hahead.
    destruct (He F2 i d rest' ","%char Hgood Hd) as (tok & t1 & c1 & Htok & Hkind & Hmk);
      [lia|].
    rewrite Htok, bind_ret. cbv beta iota.
    rewrite (list_while_value F2 _ tok t1 Hkind).
    unfold list_value. cbn [lprimo lvirgola lj andb negb].
    rewrite Hmk, bind_ret. cbv beta iota.
    rewrite (push_back_array _ acc (value_of_no_dangling e)), bind_ret.
    cbv beta iota. rewrite bind_ret. cbv beta iota. rewrite <- Hahead.
    rewrite (IH (acc ++ [value_of e])%list F2 i rest c1 Hes Hgood).
    + rewrite <- app_assoc. reflexivity.
    + rewrite length_append_. lia.
Qed.

Lemma list_start tc es F i rest c0 :
  Forall (parses_as_element tc) es -> good i = true ->
  2 * String.length (String.concat "," (map (render tc) es) ++ closing tc "]")
  + 1 <= F ->
  list_continue F
    {| lj := array_value []; lprimo := true; lvirgola := false |}
    (tokenizer_at i
       (String.concat "," (map (render tc) es) ++ closing tc "]" ++ rest) c0)
  = Ret (array_value (map value_of es), tokenizer_at i rest "]").
Proof.
  intros Hall Hgood HF. destruct es as [|e es].
  - change (String.concat "," (map (render tc) []) ++ closing tc "]" ++ rest)
      with (closing tc "]" ++ rest).
    apply list_close; [exact Hgood | destruct tc; simpl in HF; lia].
  - inversion Hall as [|e' es' He Hes]; subst.
    simpl map in HF |- *. rewrite concat_after_first in HF |- *.
    rewrite !length_append_ in HF.
    rewrite append_assoc_.
    destruct (delimiter_ahead (map (render tc) es) tc "]" rest eq_refl)
      as (d & rest' & Hahead & Hd).
    rewrite Hahead.
    destruct F as [|F1]; [lia|].
    unfold list_continue at 1.
    destruct (He F1 i d rest' c0 Hgood Hd) as (tok & t1 & c1 & Htok & Hkind & Hmk);
      [lia|].
    rewrite Htok, bind_ret. cbv beta iota.
    rewrite (list_while_value F1 _ tok t1 Hkind).
    unfold list_value. cbn [lprimo lvirgola lj andb negb].
    rewrite Hmk, bind_ret. cbv beta iota.
    rewrite (push_back_array _ [] (value_of_no_dangling e)), bind_ret.
    cbv beta iota. rewrite bind_ret. cbv beta iota. rewrite <- Hahead.
    rewrite (list_items tc es ([] ++ [value_of e])%list F1 i rest c1 Hes Hgood).
    + reflexivity.
    + rewrite length_append_. lia.
Qed.

Lemma member_text_length tc k e :
  String.length (member_text tc (k, e))
  = String.length k + 3 + String.length (render tc e).
Proof.
  unfold member_text, quoted. cbn [fst snd].
  change (String dquote (k ++ String dquote "") ++ ":" ++ render tc e)
    with (String dquote ((k ++ String dquote "") ++ String ":" (render tc e))).
  cbn [String.length]. rewrite !length_append_. cbn [String.length]. lia.
Qed.

Lemma dictionary_close F i tc acc sin primo rest c0 :
  good i = true -> 2 <= F ->
  dictionary_continue F
    {| dj := object_value acc; sinistra := sin; db := false;
       dprimo := primo; dvirgola := false |}
    (tokenizer_at i (closing tc "}" ++ rest) c0)
  = Ret (object_value acc, tokenizer_at i rest "}").
Proof.
  intros Hgood HF. unfold dictionary_continue, closing.
  destruct tc.
  - change (("," ++ "}") ++ rest) with (String "," (String "}" rest)).
    rewrite (get_token_punctuation F i "," VIRGOLA _ c0 Hgood eq_refl).
    rewrite bind_ret. cbv beta iota.
    destruct F as [|F1]; [lia|].
    rewrite dictionary_while_S. cbv beta iota.
    change (type (token VIRGOLA "")) with VIRGOLA. cbv beta iota.
    cbn [dvirgola negb]. rewrite bind_ret. cbv beta iota.
    unfold dictionary_continue.
    rewrite (get_token_punctuation F1 i "}" GRAFFA_CHIUSA _ "," Hgood eq_refl).
    rewrite bind_ret. cbv beta iota.
    destruct F1; reflexivity.
  - change (("" ++ "}") ++ rest) with (String "}" rest).
    rewrite (get_token_punctuation F i "}" GRAFFA_CHIUSA _ c0 Hgood eq_refl).
    rewrite bind_ret. cbv beta iota.
    destruct F; reflexivity.
Qed.

(** One member, read from a state in which a member may come: at the
    start of the Object, or after a comma. *)
Lemma dictionary_member tc k e acc primo F3 i d rest c0 :
  member_ok tc (k, e) -> good i = true -> number_char d = false ->
  String.length k <= F3 -> 2 * String.length (render tc e) <= F3 ->
  exists c1,
    dictionary_continue (S (S (S F3)))
      {| dj := object_value acc; sinistra := ""; db := false;
         dprimo := primo; dvirgola := negb primo |}
      (tokenizer_at i (member_text tc (k, e) ++ String d rest) c0)
    = dictionary_continue F3
        {| dj := object_value ((k, value_of e) :: acc); sinistra := k;
           db := false; dprimo := false; dvirgola := false |}
        (tokenizer_at i (String d rest) c1).
Proof.
  intros (Hk & Hq & He) Hgood Hd Hlen HF. simpl in Hk, Hq, He.
  unfold member_text. cbn [fst snd].
  rewrite !append_assoc_.
  change (":" ++ render tc e ++ String d rest)
    with (String ":" (render tc e ++ String d rest)).
  unfold dictionary_continue at 1.
  assert (Hlen' : String.length k <= S (S (S F3))) by lia.
  rewrite (get_token_quoted (S (S (S F3))) i k _ c0 Hgood Hq Hlen').
  rewrite bind_ret. cbv beta iota.
  rewrite (dictionary_while_value (S (S F3)) _ (token STRING k) _ eq_refl).
  unfold value_parser_of at 1, dictionary_value at 1.
  cbn [sinistra db str_empty andb negb type token value dj dprimo dvirgola].
  rewrite bind_ret. cbv beta iota.
  unfold dictionary_continue at 1.
  rewrite (get_token_punctuation (S (S F3)) i ":" DUE_PUNTI _ dquote Hgood eq_refl).
  rewrite bind_ret. cbv beta iota.
  rewrite dictionary_while_S. cbv beta iota.
  change (type (token DUE_PUNTI "")) with DUE_PUNTI. cbv beta iota.
  cbn [sinistra db negb andb]. rewrite Hk. cbn [negb andb].
  rewrite bind_ret. cbv beta iota.
  unfold dictionary_continue at 1.
  destruct (He F3 i d rest ":"%char Hgood Hd HF)
    as (tok & t1 & c1 & Htok & Hkind & Hmk).
  exists c1.
  rewrite Htok, bind_ret. cbv beta iota.
  rewrite (dictionary_while_value F3 _ tok t1 Hkind).
  unfold dictionary_value.
  cbn [sinistra db dprimo dvirgola dj]. rewrite Hk. cbn [negb andb].
  destruct primo; cbn [negb andb];
    rewrite Hmk, bind_ret; cbv beta iota;
    rewrite (insert_object k _ acc (value_of_no_dangling e)), bind_ret;
    cbv beta iota; rewrite bind_ret; reflexivity.
Qed.

Lemma dictionary_items tc : forall ms acc sin F i rest c0,
  Forall (member_ok tc) ms -> good i = true ->
  2 * String.length (after_first (map (member_text tc) ms) ++ closing tc "}")
  <= F ->
  dictionary_continue F
    {| dj := object_value acc; sinistra := sin; db := false;
       dprimo := false; dvirgola := false |}
    (tokenizer_at i
       (after_first (map (member_text tc) ms) ++ closing tc "}" ++ rest) c0)
  = Ret (object_value
           (rev (map (fun m => (fst m, value_of (snd m))) ms) ++ acc)%list,
         tokenizer_at i rest "}").
Proof.
  induction ms as [|[k e] ms IH]; intros acc sin F i rest c0 Hall Hgood HF.
  - change (after_first (map (member_text tc) []) ++ closing tc "}" ++ rest)
      with (closing tc "}" ++ rest).
    simpl rev. simpl app.
    apply dictionary_close; [exact Hgood|].
    destruct tc; simpl in HF; lia.
  - inversion Hall as [|m' ms' Hm Hms]; subst.
    change (map (member_text tc) ((k, e) :: ms))
      with (member_text tc (k, e) :: map (member_text tc) ms) in HF |- *.
    rewrite after_first_cons_app in HF |- *.
    cbn [String.length] in HF. rewrite !length_append_ in HF.
    rewrite member_text_length in HF.
    destruct (delimiter_ahead (map (member_text tc) ms) tc "}" rest eq_refl)
      as (d & rest' & Hahead & Hd).
    unfold dictionary_continue at 1.
    rewrite (get_token_punctuation F i "," VIRGOLA _ c0 Hgood eq_refl).
    rewrite bind_ret. cbv beta iota.
    destruct F as [|[|[|[|F3]]]]; try lia.
    rewrite dictionary_while_S. cbv beta iota.
    change (type (token VIRGOLA "")) with VIRGOLA. cbv beta iota.
    cbn [dvirgola negb dj dprimo]. rewrite bind_ret. cbv beta iota.
    rewrite Hahead.
    destruct (dictionary_member tc k e acc false F3 i d rest' ","%char
                Hm Hgood Hd) as (c1 & Hstep); [lia | lia |].
    cbn [negb] in Hstep. rewrite Hstep, <- Hahead.
    rewrite (IH ((k, value_of e) :: acc) k F3 i rest c1 Hms Hgood)
      by (rewrite length_append_; lia).
    simpl. rewrite <- app_assoc. reflexivity.
Qed.

Lemma dictionary_start tc ms F i rest c0 :
  Forall (member_ok tc) ms -> good i = true ->
  2 * String.length
        (String.concat "," (map (member_text tc) ms) ++ closing tc "}")
  + 1 <= F ->
  dictionary_continue F
    {| dj := object_value []; sinistra := ""; db := false;
       dprimo := true; dvirgola := false |}
    (tokenizer_at i
       (String.concat "," (map (member_text tc) ms) ++ closing tc "}" ++ rest)
       c0)
  = Ret (object_value (rev (map (fun m => (fst m, value_of (snd m))) ms)),
         tokenizer_at i rest "}").
Proof.
  intros Hall Hgood HF. destruct ms as [|[k e] ms].
  - change (String.concat "," (map (member_text tc) [])
              ++ closing tc "}" ++ rest)
      with (closing tc "}" ++ rest).
    apply dictionary_close; [exact Hgood | destruct tc; simpl in HF; lia].
  - inversion Hall as [|m' ms' Hm Hms]; subst.
    change (map (member_text tc) ((k, e) :: ms))
      with (member_text tc (k, e) :: map (member_text tc) ms) in HF |- *.
    rewrite concat_after_first in HF |- *.
    rewrite !length_append_ in HF.
    rewrite member_text_length in HF.
    rewrite append_assoc_.
    destruct (delimiter_ahead (map (member_text tc) ms) tc "}" rest eq_refl)
      as (d & rest' & Hahead & Hd).
    rewrite Hahead.
    destruct F as [|[|[|F3]]]; try lia.
    destruct (dictionary_member tc k e [] true F3 i d rest' c0
                Hm Hgood Hd) as (c1 & Hstep); [lia | lia |].
    cbn [negb] in Hstep. rewrite Hstep, <- Hahead.
    rewrite (dictionary_items tc ms [(k, value_of e)] k F3 i rest c1 Hms Hgood)
      by (rewrite length_append_; lia).
    simpl. reflexivity.
Qed.

Lemma get_token_null fuel i rest c0 :
  good i = true ->
  get_token fuel (tokenizer_at i ("null" ++ rest) c0)
  = Ret (token NULLO "", tokenizer_at i rest "n").
Proof.
  intros Hgood.
  change ("null" ++ rest) with (String "n" ("ull" ++ rest)).
  rewrite get_token_unfold.
  rewrite (read_curr_char i "n" _ c0 Hgood (fun _ => n_not_space)).
  change (get_token_after fuel (tokenizer_at i ("ull" ++ rest) "n"))
    with (Ret (token NULLO "",
               {| is_ := seekg_cur 3
                           (set_buf (String "u" (String "l" (String "l" rest))) i);
                  curr_char := "n" |})).
  rewrite (seekg_three i "u" "l" "l" rest Hgood). reflexivity.
Qed.

Lemma number_parses_as_element tc text x :
  plain_decimal text = true -> stod text = Ret x ->
  parses_as_element tc (DNumber text x).
Proof.
  intros Hplain Hstod F i d rest c0 Hgood Hd HF.
  destruct text as [|c run]; [discriminate Hplain|].
  unfold plain_decimal in Hplain. apply andb_prop in Hplain as [Hc Hrun].
  cbn [render String.length] in HF |- *.
  exists (token NUMBER (String c run)), (tokenizer_at i (String d rest) d), d.
  split; [|split; [reflexivity|]].
  - apply get_token_number; try assumption. lia.
  - unfold value_parser_of, literal, get_json_number.
    cbn [type token value]. rewrite Hstod. reflexivity.
Qed.

(** A Bool in front of a character: the look-ahead of
    [get(buffer, n)] finds it and leaves the stream good. *)
Lemma bool_parses_as_element tc x : parses_as_element tc (DBool x).
Proof.
  intros F i d rest c0 Hgood _ HF. destruct x; cbn [render].
  - exists (token BOOLEAN "True"), (tokenizer_at i (String d rest) "t"),
      "t"%char.
    split; [apply (get_token_true (S F) i (String d rest) c0 Hgood)
           | split; reflexivity].
  - exists (token BOOLEAN "False"), (tokenizer_at i (String d rest) "f"),
      "f"%char.
    split; [apply (get_token_false (S F) i (String d rest) c0 Hgood)
           | split; reflexivity].
Qed.

Lemma null_parses_as_value tc : parses_as_value tc DNull.
Proof.
  intros F i rest c0 Hgood HF. cbn [render].
  exists (token NULLO ""), (tokenizer_at i rest "n"), "n"%char.
  split; [apply get_token_null, Hgood | split; reflexivity].
Qed.

Lemma quoted_length x : String.length (quoted x) = String.length x + 2.
Proof.
  unfold quoted. cbn [String.length]. rewrite length_append_.
  cbn [String.length]. lia.
Qed.

Lemma string_parses_as_value tc x :
  all_chars not_dquote x = true -> parses_as_value tc (DString x).
Proof.
  intros Hx F i rest c0 Hgood HF. cbn [render] in HF |- *.
  rewrite quoted_length in HF.
  exists (token STRING x), (tokenizer_at i rest dquote), dquote.
  split; [|split; reflexivity].
  apply get_token_quoted; try assumption. lia.
Qed.

Lemma render_list_app tc es rest :
  render tc (DList es) ++ rest
  = String "[" (String.concat "," (map (render tc) es)
                ++ closing tc "]" ++ rest).
Proof.
  cbn [render]. unfold closing.
  change ("[" ++ String.concat "," (map (render tc) es)
              ++ (if tc then "," else "") ++ "]")
    with (String "[" (String.concat "," (map (render tc) es)
              ++ (if tc then "," else "") ++ "]")).
  cbn [append]. rewrite !append_assoc_. reflexivity.
Qed.

Lemma render_object_app tc ms rest :
  render tc (DObject ms) ++ rest
  = String "{" (String.concat "," (map (member_text tc) ms)
                ++ closing tc "}" ++ rest).
Proof.
  cbn [render]. unfold closing.
  change (map (fun m => quoted (fst m) ++ ":" ++ render tc (snd m)) ms)
    with (map (member_text tc) ms).
  change ("{" ++ String.concat "," (map (member_text tc) ms)
              ++ (if tc then "," else "") ++ "}")
    with (String "{" (String.concat "," (map (member_text tc) ms)
              ++ (if tc then "," else "") ++ "}")).
  cbn [append]. rewrite !append_assoc_. reflexivity.
Qed.

Lemma list_parses_as_value tc es :
  Forall (parses_as_element tc) es -> parses_as_value tc (DList es).
Proof.
  intros Hall F i rest c0 Hgood HF.
  pose proof (render_list_app tc es EmptyString) as Hlen.
  rewrite append_empty in Hlen. rewrite Hlen in HF.
  rewrite !append_empty in HF. cbn [String.length] in HF.
  rewrite render_list_app.
  exists (token QUADRA_APERTA ""),
    (tokenizer_at i (String.concat "," (map (render tc) es)
                     ++ closing tc "]" ++ rest) "["),
    "]"%char.
  split; [apply get_token_punctuation; [exact Hgood | reflexivity]|].
  split; [reflexivity|].
  unfold value_parser_of. cbn [type token].
  destruct F as [|F1]; [lia|].
  rewrite get_json_list_S.
  change (set_list json_new) with (Ret (array_value [])).
  rewrite bind_ret.
  apply (list_start tc es F1 i rest "[" Hall Hgood). lia.
Qed.

Lemma object_parses_as_value tc ms :
  Forall (member_ok tc) ms -> parses_as_value tc (DObject ms).
Proof.
  intros Hall F i rest c0 Hgood HF.
  pose proof (render_object_app tc ms EmptyString) as Hlen.
  rewrite append_empty in Hlen. rewrite Hlen in HF.
  rewrite !append_empty in HF. cbn [String.length] in HF.
  rewrite render_object_app.
  exists (token GRAFFA_APERTA ""),
    (tokenizer_at i (String.concat "," (map (member_text tc) ms)
                     ++ closing tc "}" ++ rest) "{"),
    "}"%char.
  split; [apply get_token_punctuation; [exact Hgood | reflexivity]|].
  split; [reflexivity|].
  unfold value_parser_of. cbn [type token].
  destruct F as [|F1]; [lia|].
  rewrite get_json_dictionary_S.
  change (set_dictionary json_new) with (Ret (object_value [])).
  rewrite bind_ret.
  apply (dictionary_start tc ms F1 i rest "{" Hall Hgood). lia.
Qed.

Lemma value_is_element tc e : parses_as_value tc e -> parses_as_element tc e.
Proof.
  intros H F i d rest c0 Hgood _ HF. apply (H F i (String d rest) c0 Hgood HF).
Qed.

(** Every covered document can be read as an element. *)
Lemma ok_parses_as_element tc (e : doc) : ok e -> parses_as_element tc e.
Proof.
  induction e as [text x|x| |x|elems IH|members IH] using doc_nested_ind;
    intros Hok.
  - inversion Hok; subst. apply number_parses_as_element; assumption.
  - apply bool_parses_as_element.
  - apply value_is_element, null_parses_as_value.
  - inversion Hok; subst.
    apply value_is_element, string_parses_as_value. assumption.
  - apply value_is_element, list_parses_as_value.
    assert (Hall : Forall ok elems) by (inversion Hok; assumption).
    clear Hok. induction IH as [|e next He _ IHn]; [constructor|].
    inversion Hall; subst.
    constructor; [apply He; assumption | apply IHn; assumption].
  - apply value_is_element, object_parses_as_value.
    assert (Hall : Forall (fun m => str_empty (fst m) = false
                     /\ all_chars not_dquote (fst m) = true
                     /\ ok (snd m)) members) by (inversion Hok; assumption).
    clear Hok. induction IH as [|[k e] next He _ IHn]; [constructor|].
    inversion Hall as [|m ms (Hk & Hq & Hv) Hrest]; subst.
    constructor.
    + split; [exact Hk | split; [exact Hq | apply He; exact Hv]].
    + apply IHn, Hrest.
Qed.

(** Every covered document but a number and a Bool can be read in
    front of any text, the end of the stream included. *)
Lemma ok_parses_as_value tc (e : doc) :
  ok e -> (forall text x, e <> DNumber text x) -> (forall x, e <> DBool x) ->
  parses_as_value tc e.
Proof.
  intros Hok Hnot Hnob.
  destruct Hok as [text x|x| |x Hx|elems Hall|members Hall].
  - contradiction (Hnot text x). reflexivity.
  - contradiction (Hnob x). reflexivity.
  - apply null_parses_as_value.
  - apply string_parses_as_value, Hx.
  - apply list_parses_as_value.
    apply (Forall_impl _ (ok_parses_as_element tc) Hall).
  - apply object_parses_as_value.
    refine (Forall_impl _ _ Hall).
    intros [k e] (Hk & Hq & Hv).
    split; [exact Hk | split; [exact Hq | apply ok_parses_as_element, Hv]].
Qed.

(** ** Whole documents *)

(** Assigning a parsed value to a fresh target gives that value. *)
Lemma move_assign_fresh (d : doc) :
  move_assign json_new (value_of d) = Ret (value_of d).
Proof. destruct d; reflexivity. Qed.

Lemma space_is_no_number_char c : isspace c = true -> number_char c = false.
Proof.
  destruct c as [[] [] [] [] [] [] [] []]; intros H;
    try discriminate H; reflexivity.
Qed.

(** The loop of [operator>>] on a stream that holds only white
    space. *)
Lemma operator_shr_while_at_end f i ws c rhs :
  good i = true -> skipws i = true -> all_chars isspace ws = true ->
  operator_shr_while (S f) (tokenizer_at i ws c) rhs
  = Ret ({| is_ := set_failbit (set_eofbit (set_buf EmptyString i));
            curr_char := c |}, rhs).
Proof.
  intros Hgood Hskip Hws.
  rewrite operator_shr_while_S. unfold shr_body.
  rewrite get_token_unfold.
  assert (Hread : read_curr (tokenizer_at i ws c)
                  = ({| is_ := set_failbit (set_eofbit (set_buf EmptyString i));
                        curr_char := c |}, false)).
  { unfold read_curr, extract, tokenizer_at. simpl.
    change (good (set_buf ws i)) with (good i).
    rewrite Hgood, Hskip, (skip_space_all ws Hws). reflexivity. }
  rewrite Hread. reflexivity.
Qed.

(** A value read at the top level, white space after it: [operator>>]
    assigns it to the fresh target and returns at the end of the
    input. *)
Lemma document_at_top text d ws F :
  (exists tok t1 c1,
      get_token (S F) (tokenizer_at (istringstream "") text " ")
      = Ret (tok, t1)
      /\ value_kind (type tok) = true
      /\ value_parser_of F tok t1
         = Ret (value_of d, tokenizer_at (istringstream "") ws c1)) ->
  all_chars isspace ws = true ->
  parse (S (S F)) text = Ret (value_of d).
Proof.
  intros (tok & t1 & c1 & Htok & Hkind & Hval) Hws.
  unfold parse, operator_shr.
  change (Tokenizer_new (istringstream text))
    with (tokenizer_at (istringstream "") text " ").
  rewrite operator_shr_while_S. unfold shr_body.
  rewrite Htok, bind_ret. cbv beta iota.
  destruct (parser_mono F (S F) (Nat.le_succ_diag_r F)) as (Hd & _ & Hl & _).
  unfold value_parser_of in Hval.
  assert (Hend : forall rhs,
             operator_shr_while (S F) (tokenizer_at (istringstream "") ws c1) rhs
             = Ret ({| is_ := set_failbit (set_eofbit
                                 (set_buf EmptyString (istringstream "")));
                       curr_char := c1 |}, rhs))
    by (intros rhs; apply operator_shr_while_at_end;
        [reflexivity | reflexivity | exact Hws]).
  destruct (type tok); try discriminate Hkind;
    try (unfold literal in Hval; apply bind_inv in Hval as (v & Hv & Hret);
         injection Hret as Hv1 Ht1; subst v t1;
         rewrite Hv, bind_ret, move_assign_fresh, bind_ret, Hend;
         reflexivity).
  - rewrite (Hd t1) by (rewrite Hval; discriminate). rewrite Hval, bind_ret.
    cbv beta iota. rewrite move_assign_fresh, bind_ret, Hend. reflexivity.
  - rewrite (Hl t1) by (rewrite Hval; discriminate). rewrite Hval, bind_ret.
    cbv beta iota. rewrite move_assign_fresh, bind_ret, Hend. reflexivity.
Qed.

(** A covered document, white space after it, is parsed to its value. *)
Lemma parse_ok_document (tc : bool) (d : doc) (ws : string) (fuel : nat) :
  ok d -> all_chars isspace ws = true ->
  2 * String.length (render tc d) + 2 <= fuel ->
  parse fuel (render tc d ++ ws) = Ret (value_of d).
Proof.
  intros Hok Hws Hfuel.
  assert (Hmono : extends (parse (S (S (2 * String.length (render tc d))))
                             (render tc d ++ ws))
                          (parse fuel (render tc d ++ ws)))
    by (apply parse_mono; lia).
  assert (Hsettled : forall text x,
             d = DNumber text x -> ws = EmptyString ->
             parse fuel (render tc d ++ ws) = Ret (value_of d)).
  { intros text x -> ->. inversion Hok as [text' x' Hplain Hstod| | | | |]; subst.
    cbn [render value_of] in *. rewrite append_empty.
    pose proof (parse_plain_decimal text x Hplain Hstod) as Hp.
    rewrite <- Hp. apply parse_mono; [lia | rewrite Hp; discriminate]. }
  assert (Htop : parse (S (S (2 * String.length (render tc d))))
                   (render tc d ++ ws) = Ret (value_of d) ->
                 parse fuel (render tc d ++ ws) = Ret (value_of d)).
  { intros H. rewrite <- H. apply Hmono. rewrite H. discriminate. }
  destruct d as [text x|x| |x|elems|members].
  - destruct ws as [|c r]; [apply (Hsettled text x); reflexivity|].
    apply Htop, (document_at_top _ _ (String c r)); [|exact Hws].
    simpl in Hws. apply andb_prop in Hws as [Hc _].
    apply (ok_parses_as_element tc _ Hok);
      [reflexivity | apply space_is_no_number_char, Hc | lia].
  - destruct ws as [|c r].
    + assert (Hp : parse 2 (render tc (DBool x) ++ "") = Ret (value_of (DBool x)))
        by (destruct x; reflexivity).
      rewrite <- Hp. apply parse_mono; [lia | rewrite Hp; discriminate].
    + apply Htop, (document_at_top _ _ (String c r)); [|exact Hws].
      simpl in Hws. apply andb_prop in Hws as [Hc _].
      apply (bool_parses_as_element tc x);
        [reflexivity | apply space_is_no_number_char, Hc | lia].
  - apply Htop, (document_at_top _ _ ws); [|exact Hws].
    apply (ok_parses_as_value tc _ Hok);
      [discriminate | discriminate | reflexivity | lia].
  - apply Htop, (document_at_top _ _ ws); [|exact Hws].
    apply (ok_parses_as_value tc _ Hok);
      [discriminate | discriminate | reflexivity | lia].
  - apply Htop, (document_at_top _ _ ws); [|exact Hws].
    apply (ok_parses_as_value tc _ Hok);
      [discriminate | discriminate | reflexivity | lia].
  - apply Htop, (document_at_top _ _ ws); [|exact Hws].
    apply (ok_parses_as_value tc _ Hok);
      [discriminate | discriminate | reflexivity | lia].
Qed.

(** X17.  Every compact JSON text is parsed to the value it stands
    for.  The text may hold Lists and Objects nested to any depth, may
    put a comma before every closing bracket and brace, and may be
    followed by white space; its numbers are plain decimals, its
    strings hold no double quote and its keys are not empty.  The List
    keeps the order of the text, the Object holds the members last one
    first, and a fuel of twice the length of the text plus two is
    enough. *)
Theorem parse_document (tc : bool) (d : doc) (ws : string) (fuel : nat) :
  ok d -> all_chars isspace ws = true ->
  2 * String.length (render tc d) + 2 <= fuel ->
  parse fuel (render tc d ++ ws) = Ret (value_of d).
Proof. apply parse_ok_document. Qed.

Lemma parse_document_witness :
  let d := DObject [("a", DList [DNumber "1" double_one; DBool true; DNull]);
                    ("b", DString "x")] in
  parse 80 (render true d ++ " ") = Ret (value_of d).
Proof.
  intros d. apply (parse_document true d " " 80).
  - repeat constructor.
  - reflexivity.
  - vm_compute. lia.
Defined.

(** * The serializer and the parser *)

Lemma printable_nested_ind (P : json -> Prop) :
  (forall x, plain_decimal (print_double x) = true ->
             stod (print_double x) = Ret x -> P (number_value x)) ->
  (forall x, P (bool_value x)) ->
  P json_new ->
  (forall elems, Forall P elems -> P (array_value elems)) ->
  forall j, printable j -> P j.
Proof.
  intros Hn Hb Hnull Hl. fix IH 2.
  intros j [x Hp Hs|x| |elems Hall];
    [apply Hn; assumption | apply Hb | apply Hnull |].
  apply Hl. revert elems Hall. fix IHl 2.
  intros elems [|e es He Hes]; constructor.
  - apply IH, He.
  - apply IHl, Hes.
Qed.

(** A Number, a Bool and a Null are written as in a compact text. *)
Lemma reads_of_parses tc e :
  parses_as_element tc e -> render tc e = written e -> reads_element e.
Proof.
  intros H Heq F i d rest c0 Hgood _ Hd HF. rewrite <- Heq in HF |- *.
  destruct (H F i d rest c0 Hgood Hd HF) as (tok & t1 & c1 & Htok & Hkind & Hmk).
  exists tok, t1, c1, EmptyString.
  split; [exact Htok | split; [exact Hkind | split; [reflexivity | exact Hmk]]].
Qed.

Lemma written_list_app es rest :
  written (DList es) ++ rest
  = String "[" (String " " (join (map (fun e => written e ++ ", ") es)
                            ++ "] " ++ rest)).
Proof.
  cbn [written].
  change ("[ " ++ join (map (fun e => written e ++ ", ") es) ++ "] ")
    with (String "[" (String " "
            (join (map (fun e => written e ++ ", ") es) ++ "] "))).
  cbn [append]. rewrite append_assoc_. reflexivity.
Qed.

Lemma join_item_app e es tail :
  join (map (fun e => written e ++ ", ") (e :: es)) ++ tail
  = written e ++ String "," (String " "
      (join (map (fun e => written e ++ ", ") es) ++ tail)).
Proof. cbn [map join]. rewrite !append_assoc_. reflexivity. Qed.

(** The List loop on the written elements: every element is followed
    by a comma and a blank, the closing bracket comes after the last
    comma. *)
Lemma written_items : forall es acc primo F i rest c0,
  Forall reads_element es -> good i = true -> skipws i = true ->
  2 * String.length (join (map (fun e => written e ++ ", ") es) ++ "] ") <= F ->
  list_continue F
    {| lj := array_value acc; lprimo := primo; lvirgola := negb primo |}
    (tokenizer_at i
       (String " " (join (map (fun e => written e ++ ", ") es) ++ "] " ++ rest))
       c0)
  = Ret (array_value (acc ++ map value_of es)%list,
         tokenizer_at i (String " " rest) "]").
Proof.
  induction es as [|e es IH]; intros acc primo F i rest c0 Hall Hgood Hskip HF.
  - cbn [map join]. rewrite app_nil_r.
    change (String " " (EmptyString ++ "] " ++ rest))
      with (" " ++ String "]" (String " " rest)).
    unfold list_continue.
    rewrite (get_token_skips_space F i " " _ c0 Hgood Hskip eq_refl).
    rewrite (get_token_punctuation F i "]" QUADRA_CHIUSA _ c0 Hgood eq_refl).
    rewrite bind_ret. cbv beta iota.
    destruct F; reflexivity.
  - inversion Hall as [|e' es' He Hes]; subst.
    rewrite join_item_app in HF |- *.
    rewrite length_append_ in HF. cbn [String.length] in HF.
    destruct F as [|Fe]; [lia|].
    unfold list_continue at 1.
    match goal with
    | |- context [tokenizer_at i (String " " ?X) c0] =>
      change (String " " X) with (" " ++ X);
      rewrite (get_token_skips_space (S Fe) i " " X c0 Hgood Hskip eq_refl)
    end.
    destruct (He Fe i ","%char
                (String " " (join (map (fun e => written e ++ ", ") es)
                             ++ "] " ++ rest)) c0 Hgood Hskip eq_refl)
      as (tok & t1 & c1 & ws & Htok & Hkind & Hws & Hmk); [lia|].
    rewrite Htok, bind_ret. cbv beta iota.
    rewrite (list_while_value Fe _ tok t1 Hkind).
    assert (Hstep :
      list_value (value_parser_of Fe tok)
        {| lj := array_value acc; lprimo := primo; lvirgola := negb primo |} t1
      = Ret ({| lj := array_value (acc ++ [value_of e])%list;
                lprimo := false; lvirgola := false |},
             tokenizer_at i
               (ws ++ String "," (String " "
                  (join (map (fun e => written e ++ ", ") es) ++ "] " ++ rest)))
               c1)).
    { unfold list_value. cbn [lprimo lvirgola lj].
      destruct primo; cbn [negb andb]; rewrite Hmk, bind_ret; cbv beta iota;
        rewrite (push_back_array _ acc (value_of_no_dangling e)), bind_ret;
        reflexivity. }
    rewrite Hstep, bind_ret. cbv beta iota.
    unfold list_continue at 1.
    rewrite (get_token_skips_space Fe i ws _ c1 Hgood Hskip Hws).
    rewrite (get_token_punctuation Fe i "," VIRGOLA _ c1 Hgood eq_refl).
    rewrite bind_ret. cbv beta iota.
    destruct Fe as [|F3]; [lia|].
    rewrite list_while_S. change (type (token VIRGOLA "")) with VIRGOLA.
    cbv beta iota. cbn [lvirgola lprimo lj negb]. rewrite bind_ret.
    cbv beta iota.
    assert (Hlen : 2 * String.length
                         (join (map (fun e => written e ++ ", ") es) ++ "] ")
                   <= F3) by lia.
    pose proof (IH (acc ++ [value_of e])%list false F3 i rest ","%char
                  Hes Hgood Hskip Hlen) as Hnext.
    cbn [negb] in Hnext. rewrite <- app_assoc in Hnext. exact Hnext.
Qed.

(** A written List in front of any text. *)
Lemma written_list_reads es F i rest c0 :
  Forall reads_element es -> good i = true -> skipws i = true ->
  2 * String.length (written (DList es)) <= F ->
  exists tok t1,
    get_token (S F) (tokenizer_at i (written (DList es) ++ rest) c0)
    = Ret (tok, t1)
    /\ value_kind (type tok) = true
    /\ value_parser_of F tok t1
       = Ret (value_of (DList es), tokenizer_at i (String " " rest) "]").
Proof.
  intros Hall Hgood Hskip HF.
  pose proof (written_list_app es EmptyString) as Hlen.
  rewrite append_empty in Hlen. rewrite Hlen in HF.
  change ("] " ++ EmptyString) with "] " in HF. cbn [String.length] in HF.
  rewrite written_list_app.
  exists (token QUADRA_APERTA ""),
    (tokenizer_at i
       (String " " (join (map (fun e => written e ++ ", ") es) ++ "] " ++ rest))
       "[").
  split; [apply get_token_punctuation; [exact Hgood | reflexivity]|].
  split; [reflexivity|].
  unfold value_parser_of. cbn [type token].
  destruct F as [|F1]; [lia|].
  rewrite get_json_list_S.
  change (set_list json_new) with (Ret (array_value [])).
  rewrite bind_ret.
  apply (written_items es [] true F1 i rest "[" Hall Hgood Hskip). lia.
Qed.

Lemma written_list_is_element es :
  Forall reads_element es -> reads_element (DList es).
Proof.
  intros Hall F i d rest c0 Hgood Hskip _ HF.
  destruct (written_list_reads es F i (String d rest) c0 Hall Hgood Hskip HF)
    as (tok & t1 & Htok & Hkind & Hmk).
  exists tok, t1, "]"%char, " ".
  split; [exact Htok | split; [exact Hkind | split; [reflexivity | exact Hmk]]].
Qed.

(** The loop of the serializer over the elements of a List. *)
Lemma serialized_elements ds :
  Forall (fun d => operator_shl (value_of d) = Ret (written d)) ds ->
  operator_shl (array_value (map value_of ds)) = Ret (written (DList ds)).
Proof.
  intros Hall.
  assert (Heach :
    (fix each (it : list json) : outcome string :=
       match it with
       | [] => Ret ""
       | v :: next =>
         sv <- operator_shl v ;;
         rest <- each next ;;
         Ret (sv ++ ", " ++ rest)
       end) (map value_of ds)
    = Ret (join (map (fun e => written e ++ ", ") ds))).
  { induction Hall as [|d next Hd _ IH]; [reflexivity|].
    cbn [map join]. rewrite Hd, bind_ret, IH, bind_ret.
    rewrite append_assoc_. reflexivity. }
  change (operator_shl (array_value (map value_of ds)))
    with (body <- (fix each (it : list json) : outcome string :=
                     match it with
                     | [] => Ret ""
                     | v :: next =>
                       sv <- operator_shl v ;;
                       rest <- each next ;;
                       Ret (sv ++ ", " ++ rest)
                     end) (map value_of ds) ;;
          Ret ("[ " ++ body ++ "] ")).
  rewrite Heach. reflexivity.
Qed.

(** A printable value is the value of a document whose written text
    the serializer prints and the List loop reads. *)
Lemma printable_written j :
  printable j ->
  exists d, value_of d = j
            /\ operator_shl j = Ret (written d)
            /\ reads_element d.
Proof.
  induction 1 as [x Hplain Hstod|x| |elems IH] using printable_nested_ind.
  - exists (DNumber (print_double x) x).
    split; [reflexivity | split; [reflexivity|]].
    apply (reads_of_parses true);
      [apply number_parses_as_element; assumption | reflexivity].
  - exists (DBool x). split; [reflexivity | split; [destruct x; reflexivity|]].
    apply (reads_of_parses true);
      [apply bool_parses_as_element | reflexivity].
  - exists DNull. split; [reflexivity | split; [reflexivity|]].
    apply (reads_of_parses true);
      [apply value_is_element, null_parses_as_value | reflexivity].
  - assert (Hds : exists ds,
               map value_of ds = elems
               /\ Forall (fun d => operator_shl (value_of d) = Ret (written d)) ds
               /\ Forall reads_element ds).
    { induction IH as [|v next (d & Hv & Hshl & Hread) _ (ds & Hmap & Hs & Hr)].
      - exists []. repeat split; constructor.
      - exists (d :: ds). subst v next.
        split; [reflexivity | split; constructor; assumption]. }
    destruct Hds as (ds & <- & Hs & Hr).
    exists (DList ds).
    split; [reflexivity | split].
    + apply serialized_elements, Hs.
    + apply written_list_is_element, Hr.
Qed.

(** X18.  A List of Numbers, Bools, Nulls and such Lists, nested to
    any depth, is read back as itself: [operator<<] writes a text
    that [operator>>] parses, into a fresh value, to the same value.
    The same holds of a single Number, Bool or Null.  The Numbers are
    those whose text with six significant digits is a plain decimal
    that converts back to them.  A fuel of twice the length of the
    text plus two is enough. *)
Theorem printable_values_round_trip (j : json) :
  printable j ->
  exists text,
    operator_shl j = Ret text
    /\ parse (2 * String.length text + 2) text = Ret j.
Proof.
  intros Hp. destruct Hp as [x Hplain Hstod|x| |elems Hall].
  - exists (print_double x). split; [reflexivity|].
    pose proof (parse_plain_decimal _ x Hplain Hstod) as Hparse.
    rewrite <- Hparse. apply parse_mono; [lia | rewrite Hparse; discriminate].
  - destruct x; eexists; split; reflexivity.
  - eexists; split; reflexivity.
  - assert (Hds : exists ds,
               map value_of ds = elems /\ Forall reads_element ds
               /\ Forall (fun d => operator_shl (value_of d) = Ret (written d)) ds).
    { induction Hall as [|v next Hv _ (ds & Hmap & Hr & Hs)].
      - exists []. repeat split; constructor.
      - destruct (printable_written v Hv) as (d & Hd & Hshl & Hread).
        exists (d :: ds). subst v next.
        split; [reflexivity | split; constructor; assumption]. }
    destruct Hds as (ds & <- & Hr & Hs).
    exists (written (DList ds)).
    split; [apply serialized_elements, Hs|].
    replace (2 * String.length (written (DList ds)) + 2)
      with (S (S (2 * String.length (written (DList ds))))) by lia.
    apply (document_at_top _ (DList ds) " "); [|reflexivity].
    destruct (written_list_reads ds (2 * String.length (written (DList ds)))
                (istringstream "") EmptyString " "
                Hr eq_refl eq_refl (Nat.le_refl _))
      as (tok & t1 & Htok & Hkind & Hmk).
    rewrite append_empty in Htok.
    exists tok, t1, "]"%char.
    split; [exact Htok | split; [exact Hkind | exact Hmk]].
Qed.

Lemma printable_values_round_trip_witness :
  let j := array_value [number_value double_one;
                        array_value [bool_value true; json_new];
                        array_value []] in
  exists text,
    operator_shl j = Ret text
    /\ parse (2 * String.length text + 2) text = Ret j.
Proof.
  intros j. apply (printable_values_round_trip j).
  repeat constructor.
Defined.

(** * Characters that start no token *)

Lemma get_token_unknown fuel i c rest c0 :
  good i = true -> (skipws i = true -> isspace c = false) ->
  blank c = false -> starts_token c = false ->
  get_token fuel (tokenizer_at i (String c rest) c0)
  = (msg <- unidentified c ;; Throw (json_exception msg)).
Proof.
  intros Hgood Hc Hblank Hstart.
  rewrite get_token_unfold, (read_curr_char i c rest c0 Hgood Hc).
  clear Hc.
  destruct c as [[] [] [] [] [] [] [] []];
    try discriminate Hblank; try discriminate Hstart; reflexivity.
Qed.

Lemma printing_is_no_space c :
  blank c = false -> 28 < nat_of_ascii c -> isspace c = false.
Proof.
  destruct c as [[] [] [] [] [] [] [] []]; intros Hblank Hn;
    try discriminate Hblank; try reflexivity;
    vm_compute in Hn; lia.
Qed.

(** X19.  A character that starts no token is not reported by name.
    The message of the exception is the literal indexed by the
    character: for a character whose code is at most 28 the tokenizer
    throws [json_exception] with the rest of the literal from that
    position, and for every other one, every letter but [t], [f] and
    [n] included, the index is outside the literal, which is undefined
    behaviour.  A document that starts with such a character makes
    [operator>>] undefined. *)
Theorem unknown_character_is_not_reported
    (fuel : nat) (i : istream) (c : ascii) (rest : string) (c0 : ascii) :
  good i = true -> (skipws i = true -> isspace c = false) ->
  blank c = false -> starts_token c = false ->
  get_token fuel (tokenizer_at i (String c rest) c0)
  = (if Nat.leb (nat_of_ascii c) 28
     then Throw (json_exception
                   (substring (nat_of_ascii c) (28 - nat_of_ascii c)
                              "carattere non identificato: "))
     else Undefined)
  /\ (28 < nat_of_ascii c -> parse (S fuel) (String c rest) = Undefined).
Proof.
  intros Hgood Hc Hblank Hstart. split.
  - rewrite (get_token_unknown fuel i c rest c0 Hgood Hc Hblank Hstart).
    unfold unidentified. cbv zeta.
    destruct (Nat.leb (nat_of_ascii c) 28); reflexivity.
  - intros Hn.
    unfold parse, operator_shr.
    change (Tokenizer_new (istringstream (String c rest)))
      with (tokenizer_at (istringstream "") (String c rest) " ").
    rewrite operator_shr_while_S. unfold shr_body.
    rewrite (get_token_unknown fuel (istringstream "") c rest " " eq_refl
               (fun _ => printing_is_no_space c Hblank Hn) Hblank Hstart).
    unfold unidentified. cbv zeta.
    destruct (Nat.leb_spec (nat_of_ascii c) 28) as [Hle|_]; [lia | reflexivity].
Qed.

Lemma unknown_character_is_not_reported_witness :
  get_token 1 (tokenizer_at (istringstream "") "abc" " ") = Undefined
  /\ parse 2 "abc" = Undefined.
Proof.
  destruct (unknown_character_is_not_reported
              1 (istringstream "") "a" "bc" " "
              eq_refl (fun _ => eq_refl) eq_refl eq_refl) as [Htoken Hparse].
  split; [exact Htoken | apply Hparse; vm_compute; lia].
Defined.

(** * Parsing and lookup together *)

Lemma find_member_skip k v : forall xs ys pos,
  (forall m, In m xs -> fst m <> k) ->
  find_member k (xs ++ (k, v) :: ys)%list pos = Some (pos + List.length xs, v).
Proof.
  induction xs as [|[k' v'] xs IH]; intros ys pos Hxs.
  - cbn [app find_member List.length]. rewrite String.eqb_refl.
    rewrite Nat.add_0_r. reflexivity.
  - cbn [app find_member List.length].
    destruct (String.eqb_spec k' k) as [Heq|_].
    + exfalso. apply (Hxs (k', v')); [left; reflexivity | exact Heq].
    + rewrite IH by (intros m Hin; apply Hxs; right; exact Hin).
      f_equal. f_equal. lia.
Qed.

(** X20.  When a key occurs several times in the text of an Object,
    the lookups find its last occurrence: for a covered Object text in
    which no member after [(k, e)] has the key [k], whatever the
    members before it, the parsed value returns the value of [e] for
    [k], in the slot that counts the members that follow it in the
    text. *)
Theorem last_occurrence_of_a_key_wins
    (tc : bool) (before after : list (string * doc)) (k : string) (e : doc)
    (fuel : nat) :
  ok (DObject (before ++ (k, e) :: after)) ->
  (forall m, In m after -> fst m <> k) ->
  2 * String.length (render tc (DObject (before ++ (k, e) :: after))) + 2
  <= fuel ->
  exists j,
    parse fuel (render tc (DObject (before ++ (k, e) :: after))) = Ret j
    /\ subscript_const k j = Ret (value_of e)
    /\ subscript k j = Ret (j, List.length after).
Proof.
  intros Hok Hafter Hfuel.
  exists (value_of (DObject (before ++ (k, e) :: after))).
  split.
  - rewrite <- (append_empty (render tc (DObject (before ++ (k, e) :: after))))
      at 1.
    apply parse_ok_document; [exact Hok | reflexivity | exact Hfuel].
  - cbn [value_of]. rewrite map_app. cbn [map fst snd].
    rewrite rev_app_distr. cbn [rev]. rewrite <- app_assoc.
    cbn [app].
    assert (Hskip : forall m,
               In m (rev (map (fun m => (fst m, value_of (snd m))) after)) ->
               fst m <> k).
    { intros m Hin. apply in_rev, in_map_iff in Hin as (m0 & <- & Hin0).
      apply (Hafter m0 Hin0). }
    unfold subscript_const, subscript, object_value, is_dictionary, list_.begin.
    cbn [dict non_null negb deref bind].
    rewrite (find_member_skip k (value_of e) _ _ 0 Hskip).
    rewrite length_rev, length_map. split; reflexivity.
Qed.

Lemma last_occurrence_of_a_key_wins_witness :
  let members := [("a", DNumber "1" double_one); ("a", DBool true); ("b", DNull)] in
  exists j,
    parse 60 (render false (DObject members)) = Ret j
    /\ subscript_const "a" j = Ret (bool_value true)
    /\ subscript "a" j = Ret (j, 1).
Proof.
  intros members.
  apply (last_occurrence_of_a_key_wins false [("a", DNumber "1" double_one)]
           [("b", DNull)] "a" (DBool true) 60).
  - repeat constructor.
  - intros m [<-|[]]. discriminate.
  - vm_compute. lia.
Defined.

(** * Documents in a row *)

(** One turn of the loop of [operator>>] on a token that starts a
    value. *)
Lemma shr_step F t tok t1 v t2 rhs :
  get_token (S F) t = Ret (tok, t1) -> value_kind (type tok) = true ->
  value_parser_of F tok t1 = Ret (v, t2) ->
  operator_shr_while (S (S F)) t rhs
  = (r <- move_assign rhs v ;; operator_shr_while (S F) t2 r).
Proof.
  intros Htok Hkind Hval.
  rewrite operator_shr_while_S. unfold shr_body.
  rewrite Htok, bind_ret. cbv beta iota.
  destruct (parser_mono F (S F) (Nat.le_succ_diag_r F)) as (Hd & _ & Hl & _).
  unfold value_parser_of in Hval.
  destruct (type tok); try discriminate Hkind;
    try (unfold literal in Hval; apply bind_inv in Hval as (w & Hw & Hret);
         injection Hret as Hw1 Ht1; subst w t1;
         rewrite Hw, bind_ret; reflexivity).
  - rewrite (Hd t1) by (rewrite Hval; discriminate). rewrite Hval, bind_ret.
    reflexivity.
  - rewrite (Hl t1) by (rewrite Hval; discriminate). rewrite Hval, bind_ret.
    reflexivity.
Qed.

(** White space in front of the text is invisible to the loop. *)
Lemma shr_skips_space F i ws text c0 rhs :
  good i = true -> skipws i = true -> all_chars isspace ws = true ->
  operator_shr_while F (tokenizer_at i (ws ++ text) c0) rhs
  = operator_shr_while F (tokenizer_at i text c0) rhs.
Proof.
  intros Hgood Hskip Hws. destruct F as [|f]; [reflexivity|].
  rewrite !operator_shr_while_S. unfold shr_body.
  rewrite (get_token_skips_space f i ws text c0 Hgood Hskip Hws).
  reflexivity.
Qed.

Lemma documents_text_cons tc d ws items :
  documents_text tc ((d, ws) :: items)
  = render tc d ++ ws ++ documents_text tc items.
Proof.
  unfold documents_text. cbn [map join fst snd]. apply append_assoc_.
Qed.

Lemma shr_documents tc : forall items rhs F i c0,
  Forall spaced items -> good i = true -> skipws i = true ->
  2 * String.length (documents_text tc items) + 1 <= F ->
  (' (t, r) <- operator_shr_while F (tokenizer_at i (documents_text tc items) c0)
                 rhs ;;
   Ret (is_ t, r))
  = (r <- assign_all rhs (map (fun p => value_of (fst p)) items) ;;
     Ret (set_failbit (set_eofbit (set_buf EmptyString i)), r)).
Proof.
  induction items as [|[d ws] items IH]; intros rhs F i c0 Hall Hgood Hskip HF.
  - destruct F as [|f]; [lia|].
    change (documents_text tc []) with EmptyString.
    rewrite (operator_shr_while_at_end f i EmptyString c0 rhs Hgood Hskip eq_refl).
    reflexivity.
  - inversion Hall as [|p ps (Hok & Hws & Hne) Hrest]; subst.
    cbn [fst snd] in Hok, Hws, Hne.
    rewrite documents_text_cons in HF |- *.
    rewrite !length_append_ in HF.
    destruct ws as [|c r]; [discriminate Hne|].
    cbn [String.length] in HF.
    pose proof Hws as Hc. cbn [all_chars] in Hc.
    apply andb_prop in Hc as [Hc _].
    destruct F as [|[|Fe]]; [lia | lia |].
    destruct (ok_parses_as_element tc d Hok Fe i c
                (r ++ documents_text tc items) c0 Hgood
                (space_is_no_number_char c Hc))
      as (tok & t1 & c1 & Htok & Hkind & Hval); [lia|].
    change (String c r ++ documents_text tc items)
      with (String c (r ++ documents_text tc items)).
    rewrite (shr_step Fe _ tok t1 _ _ rhs Htok Hkind Hval).
    cbn [map fst assign_all].
    destruct (move_assign rhs (value_of d)) as [rhs'| | |]; try reflexivity.
    rewrite !bind_ret.
    change (String c (r ++ documents_text tc items))
      with (String c r ++ documents_text tc items).
    rewrite (shr_skips_space (S Fe) i (String c r) _ c1 rhs' Hgood Hskip Hws).
    apply (IH rhs' (S Fe) i c1 Hrest Hgood Hskip). lia.
Qed.



(** * Malformed documents that are accepted, and some that are not *)

(** An Object text that holds a key and no value. *)
Lemma lone_key F i k (colon : bool) rest c0 :
  good i = true -> all_chars not_dquote k = true ->
  (colon = true -> str_empty k = false) ->
  String.length k + 4 <= F ->
  get_json_dictionary F
    (tokenizer_at i (quoted k ++ (if colon then ":" else "") ++ "}" ++ rest) c0)
  = Ret (object_value [], tokenizer_at i rest "}").
Proof.
  intros Hgood Hq Hk HF.
  destruct F as [|[|F2]]; [lia | lia |].
  rewrite get_json_dictionary_S.
  change (set_dictionary json_new) with (Ret (object_value [])).
  rewrite bind_ret.
  assert (Hlen : String.length k <= S F2) by lia.
  rewrite (get_token_quoted (S F2) i k _ c0 Hgood Hq Hlen).
  rewrite bind_ret. cbv beta iota.
  rewrite (dictionary_while_value F2 _ (token STRING k) _ eq_refl).
  unfold value_parser_of at 1, dictionary_value at 1.
  cbn [sinistra db str_empty andb negb type token value dj dprimo dvirgola].
  rewrite bind_ret. cbv beta iota.
  destruct colon.
  - change (":" ++ "}" ++ rest) with (String ":" (String "}" rest)).
    unfold dictionary_continue at 1.
    rewrite (get_token_punctuation F2 i ":" DUE_PUNTI _ dquote Hgood eq_refl).
    rewrite bind_ret. cbv beta iota.
    destruct F2 as [|F3]; [lia|].
    rewrite dictionary_while_S. cbv beta iota.
    change (type (token DUE_PUNTI "")) with DUE_PUNTI. cbv beta iota.
    cbn [sinistra db negb andb]. rewrite (Hk eq_refl). cbn [negb andb].
    rewrite bind_ret. cbv beta iota.
    unfold dictionary_continue.
    rewrite (get_token_punctuation F3 i "}" GRAFFA_CHIUSA _ ":" Hgood eq_refl).
    rewrite bind_ret. cbv beta iota.
    destruct F3; reflexivity.
  - apply (dictionary_close F2 i false [] k true rest dquote Hgood). lia.
Qed.

(** X22.  A key that no value follows is dropped without an error: an
    Object text that holds only a key between double quotes, or a key
    and a colon, is parsed to the empty Object. *)
Theorem key_without_value_is_dropped
    (k : string) (colon : bool) (ws : string) (fuel : nat) :
  all_chars not_dquote k = true ->
  (colon = true -> str_empty k = false) ->
  all_chars isspace ws = true ->
  String.length k + 6 <= fuel ->
  parse fuel ("{" ++ quoted k ++ (if colon then ":" else "") ++ "}" ++ ws)
  = Ret (object_value []).
Proof.
  intros Hq Hk Hws Hfuel.
  destruct fuel as [|[|F]]; [lia | lia |].
  apply (document_at_top _ (DObject []) ws F); [|exact Hws].
  exists (token GRAFFA_APERTA ""),
    (tokenizer_at (istringstream "")
       (quoted k ++ (if colon then ":" else "") ++ "}" ++ ws) "{"),
    "}"%char.
  split; [apply get_token_punctuation; reflexivity|].
  split; [reflexivity|].
  apply lone_key; [reflexivity | exact Hq | exact Hk | lia].
Qed.

Lemma key_without_value_is_dropped_witness :
  parse 9 ("{" ++ quoted "key" ++ ":}") = Ret (object_value []).
Proof.
  apply (key_without_value_is_dropped "key" true "" 9);
    [reflexivity | reflexivity | reflexivity | vm_compute; lia].
Defined.

Lemma punctuation_kinds d ty :
  punctuation d = Some ty ->
  ty = GRAFFA_APERTA \/ ty = GRAFFA_CHIUSA \/ ty = QUADRA_APERTA
  \/ ty = QUADRA_CHIUSA \/ ty = DUE_PUNTI \/ ty = VIRGOLA.
Proof.
  unfold punctuation.
  repeat match goal with
         | |- (if ?c then _ else _) = _ -> _ => destruct c
         end;
    intros H; inversion H; auto 7.
Qed.

(** X23.  A text whose first character is a closing bracket, a closing
    brace, a colon or a comma makes [operator>>] throw its
    [json_exception], whatever follows and whatever the target
    holds. *)
Theorem stray_punctuation_is_rejected
    (fuel : nat) (d : ascii) (ty : TOKEN) (rest : string) (rhs : json) :
  punctuation d = Some ty -> ty <> GRAFFA_APERTA -> ty <> QUADRA_APERTA ->
  operator_shr (S fuel) (istringstream (String d rest)) rhs
  = Throw (json_exception "formato json non valiod").
Proof.
  intros Hd Hbrace Hbracket.
  unfold operator_shr.
  change (Tokenizer_new (istringstream (String d rest)))
    with (tokenizer_at (istringstream "") (String d rest) " ").
  rewrite operator_shr_while_S. unfold shr_body.
  rewrite (get_token_punctuation fuel (istringstream "") d ty rest " "
             eq_refl Hd).
  rewrite bind_ret. cbv beta iota.
  change (type (token ty "")) with ty.
  destruct (punctuation_kinds d ty Hd) as [->|[->|[->|[->|[->| ->]]]]];
    try reflexivity; contradiction.
Qed.

Lemma stray_punctuation_is_rejected_witness :
  operator_shr 1 (istringstream "]") (bool_value true)
  = Throw (json_exception "formato json non valiod").
Proof.
  apply (stray_punctuation_is_rejected 0 "]" QUADRA_CHIUSA "" (bool_value true));
    [reflexivity | discriminate | discriminate].
Defined.

(** X24.  Two elements of a List with a blank and no comma between
    them make the parser throw its [json_exception]: the second one is
    refused at its first token, before it is read. *)
Theorem missing_comma_is_rejected
    (tc : bool) (e1 e2 : doc) (rest : string) (fuel : nat) :
  ok e1 -> ok e2 ->
  2 * (String.length (render tc e1) + String.length (render tc e2)) + 4
  <= fuel ->
  parse fuel ("[" ++ render tc e1 ++ " " ++ render tc e2 ++ "]" ++ rest)
  = Throw (json_exception "problema virgola").
Proof.
  intros H1 H2 Hfuel.
  destruct fuel as [|[|[|[|F]]]]; try lia.
  unfold parse, operator_shr.
  change (Tokenizer_new
            (istringstream
               ("[" ++ render tc e1 ++ " " ++ render tc e2 ++ "]" ++ rest)))
    with (tokenizer_at (istringstream "")
            (String "[" (render tc e1
                         ++ String " " (render tc e2 ++ String "]" rest))) " ").
  rewrite operator_shr_while_S. unfold shr_body.
  rewrite (get_token_punctuation _ (istringstream "") "[" QUADRA_APERTA _ " "
             eq_refl eq_refl).
  rewrite bind_ret. cbv beta iota.
  change (type (token QUADRA_APERTA "")) with QUADRA_APERTA. cbv beta iota.
  rewrite get_json_list_S.
  change (set_list json_new) with (Ret (array_value [])).
  rewrite bind_ret.
  destruct (ok_parses_as_element tc e1 H1 (S F) (istringstream "") " "%char
              (render tc e2 ++ String "]" rest) "["%char eq_refl eq_refl)
    as (tok & t1 & c1 & Htok & Hkind & Hmk); [lia|].
  rewrite Htok, bind_ret. cbv beta iota.
  rewrite (list_while_value (S F) _ tok t1 Hkind).
  unfold list_value at 1. cbn [lprimo lvirgola lj andb negb].
  rewrite Hmk, bind_ret. cbv beta iota.
  rewrite (push_back_array _ [] (value_of_no_dangling e1)), bind_ret.
  cbv beta iota. rewrite bind_ret. cbv beta iota.
  unfold list_continue at 1.
  change (String " " (render tc e2 ++ String "]" rest))
    with (" " ++ render tc e2 ++ String "]" rest).
  rewrite (get_token_skips_space (S F) (istringstream "") " " _ c1
             eq_refl eq_refl eq_refl).
  destruct (ok_parses_as_element tc e2 H2 F (istringstream "") "]"%char
              rest c1 eq_refl eq_refl)
    as (tok2 & t2 & c2 & Htok2 & Hkind2 & _); [lia|].
  rewrite Htok2, bind_ret. cbv beta iota.
  rewrite (list_while_value F _ tok2 t2 Hkind2).
  reflexivity.
Qed.

Lemma missing_comma_is_rejected_witness :
  parse 30 ("[" ++ "1" ++ " " ++ "[true]" ++ "]" ++ "")
  = Throw (json_exception "problema virgola").
Proof.
  apply (missing_comma_is_rejected false (DNumber "1" double_one)
           (DList [DBool true]) "" 30).
  - repeat constructor.
  - repeat constructor.
  - vm_compute. lia.
Defined.

(** * The serializer on any value *)

Lemma operator_shl_unfold pn pb ps pl pd :
  operator_shl (Impl pn pb ps pl pd) =
  (if non_null pn then x <- deref pn ;; Ret (print_double x)
   else
     match pl with
     | live elems =>
       body <- shl_elements elems ;; Ret ("[ " ++ body ++ "] ")
     | dangling => Undefined
     | nullptr =>
       match pd with
       | live members =>
         body <- shl_members members ;; Ret ("{ " ++ body ++ "} ")
       | dangling => Undefined
       | nullptr =>
         if non_null ps then deref ps
         else if non_null pb then
           x <- deref pb ;; Ret (if x : bool then "true" else "false")
         else Ret "null"
       end
     end).
Proof. reflexivity. Qed.

Lemma never_throws_bind {A B : Type} (m : outcome A) (k : A -> outcome B) :
  never_throws m -> (forall a, never_throws (k a)) -> never_throws (bind m k).
Proof.
  intros [(a & ->)| ->] Hk; [apply Hk | right; reflexivity].
Qed.

Lemma never_throws_ret {A : Type} (a : A) : never_throws (Ret a).
Proof. left. exists a. reflexivity. Qed.

Lemma never_throws_deref {A : Type} (p : ptr A) : never_throws (deref p).
Proof.
  destruct p; [right; reflexivity | apply never_throws_ret | right; reflexivity].
Qed.

Lemma shl_elements_settles elems :
  Forall (fun j => never_throws (operator_shl j)
                   /\ (no_dangling j = true ->
                       exists text, operator_shl j = Ret text)) elems ->
  never_throws (shl_elements elems)
  /\ (forallb no_dangling elems = true ->
      exists body, shl_elements elems = Ret body).
Proof.
  induction 1 as [|v next (Hv & Hvd) _ (IHn & IHd)]; cbn [shl_elements forallb].
  - split; [apply never_throws_ret | intros _; eexists; reflexivity].
  - split.
    + apply never_throws_bind; [exact Hv | intros sv].
      apply never_throws_bind; [exact IHn | intros rest].
      apply never_throws_ret.
    + intros H. apply andb_prop in H as [H1 H2].
      destruct (Hvd H1) as (sv & ->). destruct (IHd H2) as (rest & ->).
      eexists. reflexivity.
Qed.

Lemma shl_members_settles (members : list (string * json)) :
  Forall (fun m => never_throws (operator_shl (snd m))
                   /\ (no_dangling (snd m) = true ->
                       exists text, operator_shl (snd m) = Ret text)) members ->
  never_throws (shl_members members)
  /\ (forallb (fun m => no_dangling (snd m)) members = true ->
      exists body, shl_members members = Ret body).
Proof.
  induction 1 as [|[k v] next (Hv & Hvd) _ (IHn & IHd)];
    cbn [shl_members forallb snd] in *.
  - split; [apply never_throws_ret | intros _; eexists; reflexivity].
  - split.
    + apply never_throws_bind; [exact Hv | intros sv].
      apply never_throws_bind; [exact IHn | intros rest].
      apply never_throws_ret.
    + intros H. apply andb_prop in H as [H1 H2].
      destruct (Hvd H1) as (sv & ->). destruct (IHd H2) as (rest & ->).
      eexists. reflexivity.
Qed.

(** X25.  [operator<<] never throws: every getter it calls is guarded
    by the predicate of its variant.  On a value without a dangling
    pointer, at any depth, it returns a text; on any value at all it
    returns a text or runs into undefined behaviour. *)
Theorem serializer_never_throws (j : json) :
  never_throws (operator_shl j)
  /\ (no_dangling j = true -> exists text, operator_shl j = Ret text).
Proof.
  induction j as [pn pb ps pl pd Hl Hd] using json_nested_ind.
  rewrite operator_shl_unfold, no_dangling_unfold.
  destruct pn as [|x|].
  - destruct pl as [|elems|].
    + destruct pd as [|members|].
      * destruct ps as [|str|]; [destruct pb as [|y|]| |]; simpl;
          (split; [first [ apply never_throws_ret | right; reflexivity ]
                  | intros H;
                    first [ discriminate H
                          | eexists; reflexivity
                          | destruct pb; discriminate H ]]).
      * destruct (shl_members_settles members Hd) as (Hn & Hret).
        cbn [non_null]. split.
        -- apply never_throws_bind; [exact Hn | intros; apply never_throws_ret].
        -- intros H. apply andb_prop in H as [_ H].
           destruct (Hret H) as (body & ->). eexists. reflexivity.
      * cbn [non_null]. split; [right; reflexivity|].
        intros H. apply andb_prop in H as [_ H]. discriminate H.
    + destruct (shl_elements_settles elems Hl) as (Hn & Hret).
      cbn [non_null]. split.
      * apply never_throws_bind; [exact Hn | intros; apply never_throws_ret].
      * intros H. apply andb_prop in H as [H _]. apply andb_prop in H as [_ H].
        destruct (Hret H) as (body & ->). eexists. reflexivity.
    + cbn [non_null]. split; [right; reflexivity|].
      intros H. apply andb_prop in H as [H _]. apply andb_prop in H as [_ H].
      discriminate H.
  - cbn [non_null deref]. split; [apply never_throws_ret|].
    intros _. eexists. reflexivity.
  - cbn [non_null deref]. split; [right; reflexivity|].
    intros H. discriminate H.
Qed.

Lemma serializer_never_throws_witness :
  exists text,
    operator_shl (object_value [("k", array_value [string_value "x"; json_new])])
    = Ret text.
Proof.
  apply (proj2 (serializer_never_throws
                  (object_value [("k", array_value [string_value "x"; json_new])]))).
  reflexivity.
Defined.
